(* ===================================================================== *)
(* focusd: the interception data plane and its control files, in Rocq    *)
(*                                                                       *)
(*   internal/sni/parser.go      ExtractSNI, parseSNIExtension,          *)
(*                               IsClientHello                           *)
(*   internal/proxy/proxy.go     isBlocked, handleHTTP, handleHTTPS,     *)
(*                               forwardConnection, sendTLSAlert         *)
(*   internal/resolver           Resolver.Resolve, GetDomainVariants     *)
(*   internal/dns                Manager.ApplyRules, RemoveRules,        *)
(*                               UpdateRules, IsConfigured               *)
(*   internal/config             Config.LoadBlocklist                    *)
(*   internal/state              State.IsEnabled, SetEnabled, String     *)
(*                                                                       *)
(* Conventions.                                                          *)
(*  - A Go string and a Go []byte are both sequences of bytes; both are  *)
(*    [list byte] here, so string(b) and []byte(s) are the identity.     *)
(*  - A Go int is a nat: every int of the modelled code is a length, an  *)
(*    index or a sum of a few 8/16-bit fields, far below 2^63.  The one  *)
(*    uint16 addition of the parser has its wrap-around written out.     *)
(*  - strings.ToLower is its loop over ASCII bytes, which Go runs on a   *)
(*    string without a byte above 0x7f.  Go sends any other string       *)
(*    through the Unicode case tables, which are not modelled: what is   *)
(*    proved of the matcher's comparisons is stated for ASCII names.     *)
(*    strings.TrimSpace follows unicode.IsSpace on UTF-8.                *)
(*  - What the outside world answers (the kernel, the peers, the system  *)
(*    resolver, the YAML reader, the file system) is an argument of the  *)
(*    function that asks; within one call the same question gets the     *)
(*    same answer.                                                       *)
(* ===================================================================== *)

From Stdlib Require Import Strings.Byte Strings.String NArith.
From stdpp Require Import base decidable countable list gmap.

Set Warnings "-abstract-large-number".

Local Open Scope nat_scope.

(* --------------------------------------------------------------------- *)
(* Bytes and Go strings                                                  *)
(* --------------------------------------------------------------------- *)

#[global] Instance byte_eq_dec : EqDecision byte := Byte.byte_eq_dec.

#[global] Instance byte_countable : Countable byte :=
  inj_countable Byte.to_N Byte.of_N Byte.of_to_N.

Abbreviation gostring := (list byte).

(** A string literal of the source. *)
Definition lit (s : string) : gostring := String.list_byte_of_string s.

Definition byte_val (b : byte) : nat := N.to_nat (Byte.to_N b).

Definition byte_of_nat (n : nat) : byte :=
  match Byte.of_N (N.of_nat n) with
  | Some b => b
  | None => x00
  end.

(** Go's [a == b] on strings. *)
Definition streq (a b : gostring) : bool := bool_decide (a = b).

Module strings.

(** strings.HasPrefix: len(s) >= len(prefix) && s[:len(prefix)] == prefix *)
Definition HasPrefix (s prefix : gostring) : bool :=
  (length prefix <=? length s) && streq (take (length prefix) s) prefix.

(** strings.HasSuffix:
    len(s) >= len(suffix) && s[len(s)-len(suffix):] == suffix *)
Definition HasSuffix (s suffix : gostring) : bool :=
  (length suffix <=? length s)
  && streq (drop (length s - length suffix) s) suffix.

(** strings.TrimPrefix *)
Definition TrimPrefix (s prefix : gostring) : gostring :=
  if HasPrefix s prefix then drop (length prefix) s else s.

(** strings.TrimSuffix *)
Definition TrimSuffix (s suffix : gostring) : gostring :=
  if HasSuffix s suffix then take (length s - length suffix) s else s.

(** One byte of strings.ToLower: 'A'..'Z' are moved to 'a'..'z'. *)
Definition lower_byte (c : byte) : byte :=
  if (65 <=? byte_val c) && (byte_val c <=? 90)
  then byte_of_nat (byte_val c + 32)
  else c.

(** strings.ToLower on a string whose bytes are all below utf8.RuneSelf
    (0x80): the byte loop of its isASCII branch.  A string with a byte
    from 0x80 on is handed by Go to Map(unicode.ToLower, s), which is not
    modelled.  The two uses in the code: isBlocked, for which [ascii]
    below marks the names this definition speaks for; and the "host:"
    test of handleHTTP, which asks whether the result begins with the five
    bytes "host:", where Map and the byte loop give the same answer on
    every line: Map works rune by rune from the front, and h, o, s, t and
    ':' are the lower case of no rune other than themselves and H, O, S,
    T. *)
Definition ToLower (s : gostring) : gostring := lower_byte <$> s.

(** unicode.IsSpace, on the UTF-8 encoding of a rune.  One byte: '\t',
    '\n', '\v', '\f', '\r', ' '.  Two bytes: U+0085, U+00A0.  Three bytes:
    U+1680, U+2000..U+200A, U+2028, U+2029, U+202F, U+205F, U+3000. *)
Definition is_space (c : byte) : bool :=
  ((9 <=? byte_val c) && (byte_val c <=? 13)) || (byte_val c =? 32).

Definition is_space2 (c0 c1 : byte) : bool :=
  bool_decide (c0 = xc2) && (bool_decide (c1 = x85) || bool_decide (c1 = xa0)).

Definition is_space3 (c0 c1 c2 : byte) : bool :=
  (bool_decide (c0 = xe1) && bool_decide (c1 = x9a) && bool_decide (c2 = x80))
  || (bool_decide (c0 = xe2) && bool_decide (c1 = x80)
      && (((128 <=? byte_val c2) && (byte_val c2 <=? 138))
          || bool_decide (c2 = xa8) || bool_decide (c2 = xa9)
          || bool_decide (c2 = xaf)))
  || (bool_decide (c0 = xe2) && bool_decide (c1 = x81) && bool_decide (c2 = x9f))
  || (bool_decide (c0 = xe3) && bool_decide (c1 = x80) && bool_decide (c2 = x80)).

(** Leading white space: rune after rune from the front, as
    utf8.DecodeRuneInString yields them, until one is not a space. *)
Fixpoint TrimLeft (s : gostring) : gostring :=
  match s with
  | [] => []
  | c0 :: s1 =>
    if is_space c0 then TrimLeft s1 else
    match s1 with
    | [] => s
    | c1 :: s2 =>
      if is_space2 c0 c1 then TrimLeft s2 else
      match s2 with
      | [] => s
      | c2 :: s3 => if is_space3 c0 c1 c2 then TrimLeft s3 else s
      end
    end
  end.

(** Trailing white space, on the reversed string: rune after rune from the
    back, as utf8.DecodeLastRuneInString yields them. *)
Fixpoint TrimLeftRev (r : gostring) : gostring :=
  match r with
  | [] => []
  | c0 :: r1 =>
    if is_space c0 then TrimLeftRev r1 else
    match r1 with
    | [] => r
    | c1 :: r2 =>
      if is_space2 c1 c0 then TrimLeftRev r2 else
      match r2 with
      | [] => r
      | c2 :: r3 => if is_space3 c2 c1 c0 then TrimLeftRev r3 else r
      end
    end
  end.

Definition TrimRight (s : gostring) : gostring :=
  reverse (TrimLeftRev (reverse s)).

(** strings.TrimSpace: its ASCII fast path and its fall-back to
    TrimFunc(s, unicode.IsSpace) strip the same runs of white space. *)
Definition TrimSpace (s : gostring) : gostring := TrimRight (TrimLeft s).

(** strings.Index(s, sep) for a one-byte separator; None stands for -1. *)
Fixpoint IndexByte (s : gostring) (c : byte) : option nat :=
  match s with
  | [] => None
  | b :: s' => if bool_decide (b = c) then Some 0 else S <$> IndexByte s' c
  end.

End strings.

(* --------------------------------------------------------------------- *)
(* internal/proxy: the domain matcher                                    *)
(* --------------------------------------------------------------------- *)

Definition dot : gostring := lit ".".
Definition www : gostring := lit "www.".

(** The normal form both the host and every rule are brought to:
    strings.ToLower(strings.TrimSuffix(x, ".")). *)
Definition normalize (x : gostring) : gostring :=
  strings.ToLower (strings.TrimSuffix x dot).

(** The body of the [for _, blocked := range p.blockedDomains] loop for one
    rule, [host] being normalised already: true when the body returns true,
    false when it falls through to the next rule. *)
Definition rule_hits (host blocked0 : gostring) : bool :=
  let blocked := normalize blocked0 in
  if streq host blocked || strings.HasSuffix host (dot ++ blocked) then true
  else if strings.HasPrefix blocked www then
    let bareBlocked := strings.TrimPrefix blocked www in
    streq host bareBlocked || strings.HasSuffix host (dot ++ bareBlocked)
  else false.

Fixpoint isBlocked_loop (host : gostring) (blockedDomains : list gostring)
  : bool :=
  match blockedDomains with
  | [] => false
  | blocked :: rest =>
      if rule_hits host blocked then true else isBlocked_loop host rest
  end.

(** TransparentProxy.isBlocked, the rule list being the receiver's
    [blockedDomains]. *)
Definition isBlocked (host : gostring) (blockedDomains : list gostring)
  : bool :=
  isBlocked_loop (normalize host) blockedDomains.

(** The rule test of isBlocked in terms of normal forms: the host equals
    the rule or ends with "." + rule, for the rule itself and, when its
    normal form begins with "www.", for what follows the "www.". *)
Definition matches_rule (h r : gostring) : Prop :=
  h = r ∨ (dot ++ r) `suffix_of` h.

Definition rule_matches (h r : gostring) : Prop :=
  matches_rule (normalize h) (normalize r)
  ∨ (www `prefix_of` normalize r
     ∧ matches_rule (normalize h) (drop 4 (normalize r))).

(** A DomainRule in the sense of the data model: lower case, no trailing
    dot. *)
Definition DomainRule (r : gostring) : Prop := normalize r = r.

(* --------------------------------------------------------------------- *)
(* The matcher as the specification words it                             *)
(* --------------------------------------------------------------------- *)

(** Host names and rules made of ASCII bytes. *)
Definition ascii (s : gostring) : Prop := Forall (λ c, byte_val c < 128) s.

(** Two bytes that are equal, or a capital letter 'A'..'Z' and its small
    letter. *)
Definition same_letter (a b : byte) : Prop :=
  a = b
  ∨ (65 ≤ byte_val a ≤ 90 ∧ byte_val b = byte_val a + 32)
  ∨ (65 ≤ byte_val b ≤ 90 ∧ byte_val a = byte_val b + 32).

(** Equal without regard to case. *)
Definition eq_fold (a b : gostring) : Prop := Forall2 same_letter a b.

(** A name with its trailing dot, if it has one, taken off. *)
Definition strip_dot (x : gostring) : gostring :=
  match reverse x with
  | c :: r => if bool_decide (c = x2e) then reverse r else x
  | [] => x
  end.

(** [h] matches [r]: h == r, or h ends with "." + r, without regard to
    case. *)
Definition matches_fold (h r : gostring) : Prop :=
  eq_fold h r ∨ ∃ p s, h = p ++ s ∧ eq_fold s (dot ++ r).

(** A rule takes part as itself and, when it begins with "www.", as its
    bare form r[4:]; host and rule are taken without their trailing dot
    and compared without regard to case. *)
Definition rule_blocks (h r : gostring) : Prop :=
  matches_fold (strip_dot h) (strip_dot r)
  ∨ (eq_fold (take 4 (strip_dot r)) www
     ∧ matches_fold (strip_dot h) (drop 4 (strip_dot r))).

Definition matches (h : gostring) (rules : list gostring) : Prop :=
  ∃ r, r ∈ rules ∧ rule_blocks h r.

(* --------------------------------------------------------------------- *)
(* Go byte slices and run-time panics                                    *)
(* --------------------------------------------------------------------- *)

(** The outcome of a Go call returning [(T, error)]: a value, an error of
    type [E], or a run-time panic (index or slice bounds out of range). *)
Inductive result (E A : Type) : Type :=
  | Ok (a : A)
  | Err (e : E)
  | Panic.
Arguments Ok {E A} a.
Arguments Err {E A} e.
Arguments Panic {E A}.

#[global] Instance result_ret {E} : MRet (result E) := λ A, Ok.
#[global] Instance result_bind {E} : MBind (result E) := λ A B f m,
  match m with
  | Ok a => f a
  | Err e => Err e
  | Panic => Panic
  end.

(** A []byte: the backing array from the slice's first element on, and the
    slice's length; its capacity is the length of [arr]. *)
Record slice : Type := mkSlice { arr : list byte; len : nat }.

Definition cap (s : slice) : nat := length (arr s).

(** A slice whose capacity equals its length, as a []byte{...} literal or
    the result of a conversion from a string has. *)
Definition of_bytes (l : list byte) : slice := mkSlice l (length l).

(** string(s): the bytes within the length. *)
Definition bytes_of (s : slice) : gostring := take (len s) (arr s).

(** s[i]: panics unless i < len(s). *)
Definition index {E} (s : slice) (i : nat) : result E byte :=
  if i <? len s then
    match arr s !! i with
    | Some b => Ok b
    | None => Panic
    end
  else Panic.

(** s[lo:hi]: panics unless lo <= hi <= cap(s); the bound of a slice
    expression on a slice is its capacity, not its length. *)
Definition reslice {E} (s : slice) (lo hi : nat) : result E slice :=
  if (lo <=? hi) && (hi <=? cap s)
  then Ok (mkSlice (drop lo (arr s)) (hi - lo))
  else Panic.

(** uint16(b1) | uint16(b0)<<8 *)
Definition be16 (b0 b1 : byte) : nat :=
  N.to_nat (N.lor (Byte.to_N b1) (N.shiftl (Byte.to_N b0) 8)).

(** binary.BigEndian.Uint16(b):
    _ = b[1]; return uint16(b[1]) | uint16(b[0])<<8 *)
Definition Uint16 {E} (b : slice) : result E nat :=
  b1 ← index b 1;
  b0 ← index b 0;
  mret (be16 b0 b1).

(* --------------------------------------------------------------------- *)
(* internal/sni: the ClientHello parser                                  *)
(* --------------------------------------------------------------------- *)

Module sni.

(** ErrNotHandshake, ErrNotClientHello, ErrNoSNI, ErrInvalidData *)
Inductive error : Set :=
  | ErrNotHandshake
  | ErrNotClientHello
  | ErrNoSNI
  | ErrInvalidData.

Definition contentTypeHandshake : byte := x16.
Definition handshakeTypeClientHello : byte := x01.
Definition extensionTypeSNI : nat := 0.
Definition sniNameTypeHostname : byte := x00.

Definition parseSNIExtension (data : slice) : result error gostring :=
  if len data <? 5 then Err ErrInvalidData else
  (* Server Name List Length, read and dropped *)
  b ← reslice data 0 2;
  _ ← Uint16 b;
  let pos := 2 in
  if len data <=? pos then Err ErrInvalidData else
  nameType ← index data pos;
  let pos := pos + 1 in
  if negb (bool_decide (nameType = sniNameTypeHostname)) then Err ErrNoSNI
  else
  if len data <? pos + 2 then Err ErrInvalidData else
  b ← reslice data pos (pos + 2);
  nameLength ← Uint16 b;
  let pos := pos + 2 in
  if len data <? pos + nameLength then Err ErrInvalidData else
  b ← reslice data pos (pos + nameLength);
  let hostname := bytes_of b in
  if streq hostname [] then Err ErrNoSNI else
  Ok hostname.

(** The loop [for pos+4 <= extensionsEnd { ... }].  Every round moves
    [pos] forward by at least 4, so [extensionsEnd - pos] rounds of fuel
    are never used up: with none left the loop condition is false and the
    loop is left for [return "", ErrNoSNI]. *)
Fixpoint extensions_loop (fuel : nat) (data : slice)
    (pos extensionsEnd : nat) : result error gostring :=
  match fuel with
  | 0 => Err ErrNoSNI
  | S fuel =>
    if pos + 4 <=? extensionsEnd then
      b ← reslice data pos (pos + 2);
      extType ← Uint16 b;
      b ← reslice data (pos + 2) (pos + 4);
      extLength ← Uint16 b;
      let pos := pos + 4 in
      if len data <? pos + extLength then Err ErrInvalidData else
      if extType =? extensionTypeSNI then
        b ← reslice data pos (pos + extLength);
        parseSNIExtension b
      else
        extensions_loop fuel data (pos + extLength) extensionsEnd
    else Err ErrNoSNI
  end.

Definition ExtractSNI (data : slice) : result error gostring :=
  if len data <? 5 then Err ErrInvalidData else
  contentType ← index data 0;
  b ← reslice data 3 5;
  recordLength ← Uint16 b;
  if negb (bool_decide (contentType = contentTypeHandshake))
  then Err ErrNotHandshake else
  (* 5+recordLength is a uint16 sum: it wraps at 2^16 *)
  if len data <? (5 + recordLength) mod (256 * 256)
  then Err ErrInvalidData else
  if len data <? 9 then Err ErrInvalidData else
  handshakeType ← index data 5;
  if negb (bool_decide (handshakeType = handshakeTypeClientHello))
  then Err ErrNotClientHello else
  let pos := 9 in
  let pos := pos + 2 in
  let pos := pos + 32 in
  if len data <=? pos then Err ErrInvalidData else
  sid ← index data pos;
  let sessionIDLength := byte_val sid in
  let pos := pos + (1 + sessionIDLength) in
  if len data <? pos + 2 then Err ErrInvalidData else
  b ← reslice data pos (pos + 2);
  cipherSuitesLength ← Uint16 b;
  let pos := pos + (2 + cipherSuitesLength) in
  if len data <=? pos then Err ErrInvalidData else
  cm ← index data pos;
  let compressionMethodsLength := byte_val cm in
  let pos := pos + (1 + compressionMethodsLength) in
  if len data <? pos + 2 then Err ErrInvalidData else
  b ← reslice data pos (pos + 2);
  extensionsLength ← Uint16 b;
  let pos := pos + 2 in
  let extensionsEnd := pos + extensionsLength in
  extensions_loop extensionsLength data pos extensionsEnd.

(** IsClientHello: a bool and no error; the two reads can still panic on
    a slice header that is not well formed. *)
Definition IsClientHello (data : slice) : result Empty_set bool :=
  if len data <? 6 then Ok false else
  b0 ← index data 0;
  if negb (bool_decide (b0 = contentTypeHandshake)) then Ok false else
  b5 ← index data 5;
  if negb (bool_decide (b5 = handshakeTypeClientHello)) then Ok false else
  Ok true.

End sni.

(* --------------------------------------------------------------------- *)
(* internal/proxy: the per-connection handlers                           *)
(* --------------------------------------------------------------------- *)

(** What a handler does to its two sockets, in program order. *)
Inductive event : Type :=
  | ClientSetReadDeadline
  | ClientSetWriteDeadline
  | ClientRead (got : list byte)   (* bytes taken from the client socket *)
  | ClientWrite (sent : list byte)
  | ClientClose
  | Dial (destAddr : gostring)     (* dialer.Dial("tcp", destAddr) *)
  | DestWrite (sent : list byte)
  | Splice                         (* the two io.Copy halves, CloseWrite, Wait *)
  | DestClose
  | GoPanic.                       (* an unrecovered run-time panic *)

Definition cr : byte := x0d.
Definition lf : byte := x0a.
Definition crlf : gostring := [cr; lf].
Definition colon : byte := x3a.

Module proxy.

(** What the peers and the kernel answer during one connection. *)
Record world : Type := mkWorld {
  (* getOriginalDst: None when the socket option cannot be read *)
  origDst : option gostring;
  (* dialer.Dial succeeds *)
  dialOk : bool;
  (* destConn.Write(initialData) succeeds *)
  writeOk : bool
}.

(** sendTLSAlert *)
Definition alert : list byte := [x15; x03; x03; x00; x02; x01; x00].

Definition sendTLSAlert : list event :=
  [ClientSetWriteDeadline; ClientWrite alert].

(** forwardConnection; [defer destConn.Close()] runs on each return after
    a successful dial. *)
Definition forwardConnection (w : world) (destAddr : gostring)
    (initialData : list byte) : list event :=
  Dial destAddr ::
  if dialOk w then
    if 0 <? length initialData then
      DestWrite initialData ::
      if writeOk w then [Splice; DestClose] else [DestClose]
    else [Splice; DestClose]
  else [].

(** buf := make([]byte, 16384); n, err := clientConn.Read(buf);
    clientHello := buf[:n].  [avail] is what the socket holds when Read
    returns: Read copies at most len(buf) bytes of it and leaves the rest
    of the zeroed buffer alone. *)
Definition bufSize : nat := 16384.

Definition readInto (avail : list byte) : slice :=
  mkSlice (take bufSize avail ++ replicate (bufSize - length avail) x00)
          (min bufSize (length avail)).

(** handleHTTPS.  [read] is the outcome of the one clientConn.Read: None
    for an error (time-out, reset, EOF).  [defer clientConn.Close()] runs
    on every return, and while a panic unwinds. *)
Definition handleHTTPS (blockedDomains : list gostring) (w : world)
    (read : option (list byte)) : list event :=
  ClientSetReadDeadline ::
  match origDst w with
  | None => [ClientClose]
  | Some origDst =>
    match read with
    | None => [ClientClose]
    | Some avail =>
      let clientHello := readInto avail in
      ClientRead (bytes_of clientHello) ::
      match sni.ExtractSNI clientHello with
      | Panic => [ClientClose; GoPanic]
      | Err _ => sendTLSAlert ++ [ClientClose]
      | Ok hostname =>
        if isBlocked hostname blockedDomains then
          sendTLSAlert ++ [ClientClose]
        else
          forwardConnection w origDst (bytes_of clientHello)
          ++ [ClientClose]
      end
    end
  end.

(** bufio.Reader.ReadString('\n') on the bytes the client still delivers
    before it stalls or closes: the line up to and including the first
    '\n', the remaining bytes, and whether a '\n' was found (err == nil).
    Without one, everything left is returned together with an error. *)
Fixpoint ReadString (s : list byte) : gostring * list byte * bool :=
  match s with
  | [] => ([], [], false)
  | b :: s' =>
    if bool_decide (b = lf) then ([b], s', true)
    else let '(line, rest, ok) := ReadString s' in (b :: line, rest, ok)
  end.

(** strings.SplitN(line, ":", 2)[1]: what follows the first ':'; indexing
    the one-element result of a line without ':' panics. *)
Definition afterColon (line : gostring) : result unit gostring :=
  match strings.IndexByte line colon with
  | Some i => Ok (drop (S i) line)
  | None => Panic
  end.

(** The header loop of handleHTTP: the value left in [host] when it ends,
    and the lines ReadString handed out, in order.  Each round but the
    last takes at least one byte off the stream, so with more than
    [length s] rounds of fuel the loop ends before the fuel does. *)
Fixpoint headerLoop (fuel : nat) (s : list byte)
    : result unit (gostring * list gostring) :=
  match fuel with
  | 0 => Ok ([], [])
  | S fuel =>
    let '(line, rest, ok) := ReadString s in
    if negb ok || streq line crlf || streq line [lf] then Ok ([], [line])
    else if strings.HasPrefix (strings.ToLower line) (lit "host:") then
      v ← afterColon line;
      Ok (strings.TrimSpace v, [line])
    else
      '(host, lines) ← headerLoop fuel rest;
      Ok (host, line :: lines)
  end.

(** if idx := strings.Index(host, ":"); idx != -1 { host = host[:idx] } *)
Definition stripPort (host : gostring) : gostring :=
  match strings.IndexByte host colon with
  | Some idx => take idx host
  | None => host
  end.

Definition response403 : list byte :=
  lit "HTTP/1.1 403 Forbidden" ++ crlf ++
  lit "Content-Type: text/html" ++ crlf ++
  lit "Connection: close" ++ crlf ++
  crlf ++
  lit "<html><body><h1>403 Forbidden</h1><p>Blocked by focusd</p></body></html>".

(** handleHTTP.  [stream] is everything the client delivers before it
    stalls or closes.  The bufio.Reader may pull more from the socket than
    the lines it hands out; the [ClientRead] events list the lines, a
    lower bound of what has left the socket. *)
Definition handleHTTP (blockedDomains : list gostring) (w : world)
    (stream : list byte) : list event :=
  ClientSetReadDeadline ::
  match origDst w with
  | None => [ClientClose]
  | Some origDst =>
    let '(requestLine, rest, ok) := ReadString stream in
    if negb ok then [ClientRead requestLine; ClientClose] else
    ClientRead requestLine ::
    match headerLoop (S (length rest)) rest with
    | Ok (host, lines) =>
      (ClientRead <$> lines) ++
      if streq host [] then [ClientClose] else
      let host := stripPort host in
      if isBlocked host blockedDomains then
        [ClientWrite response403; ClientClose]
      else
        forwardConnection w origDst requestLine ++ [ClientClose]
    | _ => [ClientClose; GoPanic]
    end
  end.

(** The two extractors on their own: the hostname each handler hands to
    isBlocked. *)
Definition tlsHost (avail : list byte) : result sni.error gostring :=
  sni.ExtractSNI (readInto avail).

Definition httpHost (stream : list byte) : option gostring :=
  let '(requestLine, rest, ok) := ReadString stream in
  if negb ok then None else
  match headerLoop (S (length rest)) rest with
  | Ok (host, _) => if streq host [] then None else Some (stripPort host)
  | _ => None
  end.

End proxy.

(** The bytes taken from the client and the bytes written upstream, as a
    trace records them. *)
Definition clientBytes (t : list event) : list byte :=
  concat (omap (λ e, match e with ClientRead b => Some b | _ => None end) t).

Definition upstreamBytes (t : list event) : list byte :=
  concat (omap (λ e, match e with DestWrite b => Some b | _ => None end) t).

Definition dials (t : list event) : list gostring :=
  omap (λ e, match e with Dial a => Some a | _ => None end) t.

Definition clientWrites (t : list event) : list (list byte) :=
  omap (λ e, match e with ClientWrite b => Some b | _ => None end) t.

(* --------------------------------------------------------------------- *)
(* internal/resolver                                                     *)
(* --------------------------------------------------------------------- *)

Module resolver.

(** net.IP is a []byte. *)
Abbreviation IP := (list byte).

Section Resolve.

(** net.LookupIP, the system resolver: None for a lookup error. *)
Variable LookupIP : gostring → option (list IP).
(** net.IP.String, the textual form the set is keyed by. *)
Variable IPString : IP → gostring.

(** What Resolve has built up so far: the [ipSet] map, and the names it
    has handed to resolveDomain, in order. *)
Record progress : Type := mkProgress {
  ipSet : gmap gostring IP;
  queried : list gostring
}.

(** resolveDomain *)
Definition resolveDomain (domain : gostring) (p : progress)
    : option (list IP) * progress :=
  (LookupIP domain, mkProgress (ipSet p) (queried p ++ [domain])).

(** for _, ip := range ips { ipSet[ip.String()] = ip } *)
Definition addAll (ips : list IP) (p : progress) : progress :=
  mkProgress (foldl (λ m ip, <[IPString ip := ip]> m) (ipSet p) ips)
             (queried p).

(** One round of [for _, domain := range domains]. *)
Definition resolveOne (domain : gostring) (p : progress) : progress :=
  match resolveDomain domain p with
  | (None, p) => p                               (* continue *)
  | (Some ips, p) =>
    let p := addAll ips p in
    if negb (strings.HasPrefix domain www) then
      let wwwDomain := www ++ domain in
      match resolveDomain wwwDomain p with
      | (None, p) => p                           (* continue *)
      | (Some ips, p) => addAll ips p
      end
    else p
  end.

Definition resolveAll (domains : list gostring) : progress :=
  foldl (λ p domain, resolveOne domain p) (mkProgress ∅ []) domains.

(** Resolver.Resolve: the values of [ipSet] (Go ranges over the map in
    no particular order; the order of the map's listing stands for it);
    the error is always nil. *)
Definition Resolve (domains : list gostring) : list IP :=
  (map_to_list (ipSet (resolveAll domains))).*2.

End Resolve.

(** GetDomainVariants *)
Definition GetDomainVariants (domain : gostring) : list gostring :=
  let variants := [domain] in
  if negb (strings.HasPrefix domain www) then variants ++ [www ++ domain]
  else variants.

End resolver.

(* --------------------------------------------------------------------- *)
(* The file system seen through package os                               *)
(* --------------------------------------------------------------------- *)

Module os.

Inductive error : Set :=
  | ErrNotExist        (* os.IsNotExist(err) *)
  | ErrOther.          (* permission denied, I/O error, ... *)

(** The regular files by path, and the paths every access to which fails
    (permissions, a broken device).  A path that names no file reads as
    "does not exist". *)
Record FS : Type := mkFS {
  files : gmap gostring (list byte);
  faulty : gset gostring
}.

Definition ReadFile (fs : FS) (name : gostring) : error + list byte :=
  match files fs !! name with
  | None => inl ErrNotExist
  | Some data =>
    if decide (name ∈ faulty fs) then inl ErrOther else inr data
  end.

(** os.WriteFile creates or truncates the file and writes [data]. *)
Definition WriteFile (fs : FS) (name : gostring) (data : list byte)
    : option error * FS :=
  if decide (name ∈ faulty fs) then (Some ErrOther, fs)
  else (None, mkFS (<[name := data]> (files fs)) (faulty fs)).

(** os.MkdirAll: directories are not tracked, only whether it fails. *)
Definition MkdirAll (fs : FS) (dir : gostring) : option error :=
  if decide (dir ∈ faulty fs) then Some ErrOther else None.

(** os.Remove, for the path of a regular file. *)
Definition Remove (fs : FS) (name : gostring) : option error * FS :=
  match files fs !! name with
  | None => (Some ErrNotExist, fs)
  | Some _ =>
    if decide (name ∈ faulty fs) then (Some ErrOther, fs)
    else (None, mkFS (delete name (files fs)) (faulty fs))
  end.

(** os.Stat, as far as its error goes. *)
Definition Stat (fs : FS) (name : gostring) : option error :=
  match files fs !! name with
  | None => Some ErrNotExist
  | Some _ => if decide (name ∈ faulty fs) then Some ErrOther else None
  end.

(** os.IsNotExist *)
Definition IsNotExist (e : error) : bool :=
  match e with ErrNotExist => true | ErrOther => false end.

End os.

(* --------------------------------------------------------------------- *)
(* internal/config                                                       *)
(* --------------------------------------------------------------------- *)

Module config.

Record Config : Type := mkConfig {
  BlockedDomains : list gostring;
  BlocklistPath : gostring;
  RefreshIntervalMinutes : nat;
  USBKeyPath : gostring;
  TokenHashPath : gostring;
  DnsmasqConfigPath : gostring
}.

Inductive error : Set :=
  | ErrNoBlocklistPath            (* "no blocklist path configured" *)
  | ErrReadingBlocklist (e : os.error)
  | ErrParsingBlocklist
  | ErrNoDomains.                 (* "blocklist file contains no domains" *)

Section LoadBlocklist.

(** yaml.Unmarshal(data, &blocklist) followed by blocklist.Domains:
    None for a parse error. *)
Variable yamlDomains : list byte → option (list gostring).

Definition LoadBlocklist (c : Config) (fs : os.FS)
    : error + list gostring :=
  if 0 <? length (BlockedDomains c) then inr (BlockedDomains c) else
  if streq (BlocklistPath c) [] then inl ErrNoBlocklistPath else
  match os.ReadFile fs (BlocklistPath c) with
  | inl e => inl (ErrReadingBlocklist e)
  | inr data =>
    match yamlDomains data with
    | None => inl ErrParsingBlocklist
    | Some domains =>
      if length domains =? 0 then inl ErrNoDomains else inr domains
    end
  end.

End LoadBlocklist.

End config.

(* --------------------------------------------------------------------- *)
(* internal/state                                                        *)
(* --------------------------------------------------------------------- *)

Module state.

Definition DefaultStatePath : gostring := lit "/var/lib/focusd/state".
Definition stateEnabled : gostring := lit "enabled".
Definition stateDisabled : gostring := lit "disabled".

Record State : Type := mkState { path : gostring }.

Inductive error : Set :=
  | ErrReadingStateFile (e : os.error)
  | ErrCreatingStateDir (e : os.error)
  | ErrWritingStateFile (e : os.error).

Definition New (path : gostring) : State :=
  if streq path [] then mkState DefaultStatePath else mkState path.

Definition IsEnabled (s : State) (fs : os.FS) : bool * option error :=
  match os.ReadFile fs (path s) with
  | inl os.ErrNotExist => (true, None)
  | inl e => (false, Some (ErrReadingStateFile e))
  | inr data => (streq (strings.TrimSpace data) stateEnabled, None)
  end.

Section SetEnabled.

(** filepath.Dir *)
Variable Dir : gostring → gostring.

Definition SetEnabled (s : State) (enabled : bool) (fs : os.FS)
    : option error * os.FS :=
  let dir := Dir (path s) in
  match os.MkdirAll fs dir with
  | Some e => (Some (ErrCreatingStateDir e), fs)
  | None =>
    let value := if enabled then stateEnabled else stateDisabled in
    match os.WriteFile fs (path s) (value ++ [lf]) with
    | (Some e, fs) => (Some (ErrWritingStateFile e), fs)
    | (None, fs) => (None, fs)
    end
  end.

End SetEnabled.

(** State.String *)
Definition String (s : State) (fs : os.FS) : gostring * option error :=
  match IsEnabled s fs with
  | (_, Some err) => ([], Some err)
  | (true, None) => (lit "enabled", None)
  | (false, None) => (lit "disabled", None)
  end.

End state.

(* --------------------------------------------------------------------- *)
(* internal/dns                                                          *)
(* --------------------------------------------------------------------- *)

Module dns.

Record Manager : Type := mkManager { configPath : gostring }.

Definition New (configPath : gostring) : Manager := mkManager configPath.

Inductive error : Set :=
  | ErrCreatingConfigDir (e : os.error)
  | ErrWritingConfig (e : os.error)
  | ErrRemovingConfig (e : os.error).

(** The two sb.WriteString calls before the loop. *)
Definition header : gostring :=
  lit "# focusd - DNS blocking configuration" ++ [lf]
  ++ lit "# Auto-generated - do not edit manually" ++ [lf; lf].

(** What one round of [for _, domain := range domains] appends:
    fmt.Sprintf of address=/%s/0.0.0.0 and, unless the domain begins
    with "www.", of address=/www.%s/0.0.0.0, each ended by a newline. *)
Definition domainText (domain : gostring) : gostring :=
  (lit "address=/" ++ domain ++ lit "/0.0.0.0" ++ [lf])
  ++ if negb (strings.HasPrefix domain www)
     then lit "address=/www." ++ domain ++ lit "/0.0.0.0" ++ [lf]
     else [].

Definition rulesText (domains : list gostring) : gostring :=
  foldl (λ sb domain, sb ++ domainText domain) header domains.

Section ApplyRules.

(** filepath.Dir *)
Variable Dir : gostring → gostring.

Definition ApplyRules (m : Manager) (domains : list gostring) (fs : os.FS)
    : option error * os.FS :=
  let dir := Dir (configPath m) in
  match os.MkdirAll fs dir with
  | Some e => (Some (ErrCreatingConfigDir e), fs)
  | None =>
    match os.WriteFile fs (configPath m) (rulesText domains) with
    | (Some e, fs) => (Some (ErrWritingConfig e), fs)
    | (None, fs) => (None, fs)
    end
  end.

Definition UpdateRules (m : Manager) (domains : list gostring) (fs : os.FS)
    : option error * os.FS :=
  ApplyRules m domains fs.

End ApplyRules.

Definition RemoveRules (m : Manager) (fs : os.FS) : option error * os.FS :=
  match os.Remove fs (configPath m) with
  | (Some e, fs) =>
    if negb (os.IsNotExist e) then (Some (ErrRemovingConfig e), fs)
    else (None, fs)
  | (None, fs) => (None, fs)
  end.

Definition IsConfigured (m : Manager) (fs : os.FS) : bool :=
  match os.Stat fs (configPath m) with
  | None => true
  | Some _ => false
  end.

End dns.

(* --------------------------------------------------------------------- *)
(* Test data                                                             *)
(* --------------------------------------------------------------------- *)

(** byte(n): conversion of an int to a byte keeps the low eight bits. *)
Definition byte_trunc (n : nat) : byte := byte_of_nat (n mod 256).

Module sni_test.

(** buildSNIExtension of the parser's tests *)
Definition buildSNIExtension (hostname : gostring) : list byte :=
  let serverName :=
    [x00; byte_trunc (length hostname / 256); byte_trunc (length hostname)]
    ++ hostname in
  let serverNameList :=
    [byte_trunc (length serverName / 256); byte_trunc (length serverName)]
    ++ serverName in
  [x00; x00;
   byte_trunc (length serverNameList / 256);
   byte_trunc (length serverNameList)]
  ++ serverNameList.

(** buildSimpleClientHello of the parser's tests *)
Definition buildSimpleClientHello (hostname : gostring) : list byte :=
  let sniExt := buildSNIExtension hostname in
  let extensions := [x00; byte_trunc (length sniExt)] ++ sniExt in
  let clientHello :=
    [x03; x03] ++ replicate 32 x00 ++ [x00] ++ [x00; x02; x00; x2f]
    ++ [x01; x00] ++ extensions in
  let handshake :=
    [x01; x00;
     byte_trunc (length clientHello / 256); byte_trunc (length clientHello)]
    ++ clientHello in
  [x16; x03; x03;
   byte_trunc (length handshake / 256); byte_trunc (length handshake)]
  ++ handshake.

End sni_test.

(** Record and handshake headers, version, random, an empty session id. *)
Definition hello_head : list byte :=
  [x16; x03; x03; x00; x00] ++ [x01; x00; x00; x00]
  ++ [x03; x03] ++ replicate 32 x00 ++ [x00].

(** A ClientHello cut off right after its extensions-length field, which
    announces four more bytes: 49 bytes in all. *)
Definition truncated_hello : list byte :=
  hello_head ++ [x00; x00] ++ [x00] ++ [x00; x04].

(** The same cut placed at the end of a full first read: 16335 bytes of
    cipher suites push the extensions-length field to offsets 16382-16383
    of 16384. *)
Definition full_buffer_hello : list byte :=
  hello_head ++ [x3f; xcf] ++ replicate 16335 x00 ++ [x00] ++ [x00; x04].

(** Worlds in which every call of a handler succeeds, for a flow first
    bound for port 443 and for one bound for port 80. *)
Definition friendly : proxy.world :=
  proxy.mkWorld (Some (lit "93.184.216.34:443")) true true.

Definition friendly_http : proxy.world :=
  proxy.mkWorld (Some (lit "93.184.216.34:80")) true true.

(** GET / HTTP/1.1\r\nHost: example.org\r\n\r\n *)
Definition get_example_org : list byte :=
  lit "GET / HTTP/1.1" ++ crlf ++ lit "Host: example.org" ++ crlf ++ crlf.

(** GET / HTTP/1.1\r\n\r\n: a request without a Host header. *)
Definition get_without_host : list byte :=
  lit "GET / HTTP/1.1" ++ crlf ++ crlf.

(** GET / HTTP/1.1\r\nHost: Example.COM.\r\n\r\n *)
Definition get_upper_dotted : list byte :=
  lit "GET / HTTP/1.1" ++ crlf ++ lit "Host: Example.COM." ++ crlf ++ crlf.

(** A resolver that knows www.a.com only. *)
Definition only_www (domain : gostring) : option (list resolver.IP) :=
  if streq domain (lit "www.a.com") then Some [[x5d; xb8; xd8; x22]]
  else None.

(** A YAML reader for the one document [domains: []]. *)
Definition yaml_empty_list (data : list byte) : option (list gostring) :=
  if streq data (lit "domains: []") then Some [] else None.

Definition blocklist_yml : gostring := lit "/etc/focusd/blocklist.yml".

Definition empty_blocklist_fs : os.FS :=
  os.mkFS {[ blocklist_yml := lit "domains: []" ]} ∅.

Definition file_config : config.Config :=
  config.mkConfig [] blocklist_yml 60
    (lit "/run/media/*/FOCUSD/focusd.key")
    (lit "/etc/focusd/token.sha256")
    (lit "/run/focusd/dnsmasq.conf").

Definition no_files : os.FS := os.mkFS ∅ ∅.

(* --------------------------------------------------------------------- *)
(* The inputs ExtractSNI takes a host name from                          *)
(* --------------------------------------------------------------------- *)

(** The body of a server_name extension as parseSNIExtension reads it: two
    bytes that are skipped (the list length), name type 0, the name length
    (2 bytes), the name [h], not empty, and whatever follows. *)
Definition server_name (body : list byte) (h : gostring) : Prop :=
  ∃ ll0 ll1 n0 n1 rest,
    body = [ll0; ll1; x00; n0; n1] ++ h ++ rest
    ∧ length h = be16 n0 n1
    ∧ h ≠ [].

(** The walk of the extensions loop with [n] bytes of the announced
    extensions length left: each extension is a 2-byte type, a 2-byte
    length and a body of that length; one is looked at only while at least
    four of the [n] bytes are left; the first of type 0 decides, and
    skipping one uses up its header and its body. *)
Inductive carry_within : nat → list byte → gostring → Prop :=
  | within_here n t0 t1 l0 l1 body rest h :
      4 ≤ n →
      be16 t0 t1 = 0 →
      length body = be16 l0 l1 →
      server_name body h →
      carry_within n ([t0; t1; l0; l1] ++ body ++ rest) h
  | within_later n t0 t1 l0 l1 body rest h :
      4 ≤ n →
      be16 t0 t1 ≠ 0 →
      length body = be16 l0 l1 →
      carry_within (n - (4 + length body)) rest h →
      carry_within n ([t0; t1; l0; l1] ++ body ++ rest) h.

(** The layout ExtractSNI goes by, with every check it makes and none it
    does not make: content type 0x16 at offset 0 and handshake type 0x01 at
    offset 5; the record length [r0 r1], of which only 5 + length (a
    16-bit sum) is compared with the size of the input; three bytes [hl]
    (the handshake length) and 34 bytes [fixed] (version and random) that
    are passed over; session id, cipher suites and compression methods,
    each behind its length; the extensions length [e0 e1] and the bytes
    that follow, walked as [carry_within] says.  Nothing ties the record
    length, the handshake length or the list length of the server_name
    extension to what follows them, and a second record header inside the
    input is read as part of the message. *)
Definition hello_within (d : list byte) (h : gostring) : Prop :=
  ∃ v0 v1 r0 r1 hl fixed sidLen sid c0 c1 cs cmLen cm e0 e1 exts,
    d = [x16; v0; v1; r0; r1] ++ [x01] ++ hl ++ fixed
        ++ [sidLen] ++ sid ++ [c0; c1] ++ cs ++ [cmLen] ++ cm
        ++ [e0; e1] ++ exts
    ∧ (5 + be16 r0 r1) mod (256 * 256) ≤ length d
    ∧ length hl = 3
    ∧ length fixed = 34
    ∧ length sid = byte_val sidLen
    ∧ length cs = be16 c0 c1
    ∧ length cm = byte_val cmLen
    ∧ carry_within (be16 e0 e1) exts h.

(** [h] occurs in [d] byte for byte. *)
Definition occurs_in (h d : list byte) : Prop := ∃ a c, d = a ++ h ++ c.

(* --------------------------------------------------------------------- *)
(* The names Resolve asks the system resolver for                        *)
(* --------------------------------------------------------------------- *)

(** Every rule, followed by its www. variant when the rule itself resolved
    and does not begin with "www.". *)
Fixpoint lookups_made (LookupIP : gostring → option (list resolver.IP))
    (domains : list gostring) : list gostring :=
  match domains with
  | [] => []
  | d :: rest =>
    match LookupIP d with
    | None => [d]
    | Some _ => if strings.HasPrefix d www then [d] else [d; www ++ d]
    end ++ lookups_made LookupIP rest
  end.

(** What holds of Resolve's set and log between two rounds.  Sound: every
    entry is keyed by its own textual form and comes from a successful
    lookup that was made.  Complete: every address of such a lookup has its
    textual form in the set. *)
Definition resolver_sound (LookupIP : gostring → option (list resolver.IP))
    (IPString : resolver.IP → gostring) (p : resolver.progress) : Prop :=
  ∀ k ip, resolver.ipSet p !! k = Some ip →
    IPString ip = k
    ∧ ∃ q ips, q ∈ resolver.queried p ∧ LookupIP q = Some ips ∧ ip ∈ ips.

Definition resolver_complete
    (LookupIP : gostring → option (list resolver.IP))
    (IPString : resolver.IP → gostring) (p : resolver.progress) : Prop :=
  ∀ q ips ip, q ∈ resolver.queried p → LookupIP q = Some ips → ip ∈ ips →
    is_Some (resolver.ipSet p !! IPString ip).

(** One call of resolveDomain followed, on success, by the insertion of
    what it returned. *)
Definition resolver_ask (LookupIP : gostring → option (list resolver.IP))
    (IPString : resolver.IP → gostring) (q : gostring)
    (p : resolver.progress) : resolver.progress :=
  match LookupIP q with
  | None => resolver.mkProgress (resolver.ipSet p) (resolver.queried p ++ [q])
  | Some ips =>
      resolver.addAll IPString ips
        (resolver.mkProgress (resolver.ipSet p) (resolver.queried p ++ [q]))
  end.

(* --------------------------------------------------------------------- *)
(* Counting in traces; lines of a request head                           *)
(* --------------------------------------------------------------------- *)

(** How often a trace closes the client socket, and the upstream one. *)
Definition clientCloses (t : list event) : nat :=
  length (omap (λ e, match e with ClientClose => Some () | _ => None end) t).

Definition destCloses (t : list event) : nat :=
  length (omap (λ e, match e with DestClose => Some () | _ => None end) t).

(** A line as ReadString hands it out: ended by its only '\n'. *)
Definition is_line (l : gostring) : Prop :=
  ∃ body, l = body ++ [lf] ∧ lf ∉ body.

(** The header name Host with its ':', in whatever case it is written. *)
Definition host_colon (name : gostring) : Prop :=
  eq_fold name (lit "host:").

(** A header line other than a Host line, and not the blank line that
    ends the head. *)
Definition other_header (l : gostring) : Prop :=
  is_line l ∧ l ≠ crlf ∧ l ≠ [lf] ∧ ¬ host_colon (take 5 l).

(** A byte of a host name as it is written: printable ASCII, no ':'. *)
Definition host_byte (c : byte) : bool :=
  (33 <=? byte_val c) && (byte_val c <=? 126) && negb (bool_decide (c = colon)).

(** A space or a tab. *)
Definition blank (c : byte) : bool :=
  bool_decide (c = x20) || bool_decide (c = x09).

(* --------------------------------------------------------------------- *)
(* The names the DNS layer and the resolver deal with                    *)
(* --------------------------------------------------------------------- *)

(** One dnsmasq line that answers 0.0.0.0 for [name] and everything
    below it. *)
Definition addressLine (name : gostring) : gostring :=
  lit "address=/" ++ name ++ lit "/0.0.0.0" ++ [lf].

(** Every rule with its variants, in blocklist order. *)
Definition allVariants (domains : list gostring) : list gostring :=
  concat (resolver.GetDomainVariants <$> domains).

(* --------------------------------------------------------------------- *)
(* A well-formed ClientHello, as TLS defines it                          *)
(* --------------------------------------------------------------------- *)

(** What the words "a well-formed TLS ClientHello carrying an SNI extension
    that names h" of the specification stand for, written after RFC 8446
    (4.1.2, 4.2, 5.1) and RFC 6066 (3), not after the parser: the record
    layer is undone first, every length field has to fit what it
    announces, and the name is read out of the handshake message. *)
Module tls.

(** The first [n] bytes and the rest; None when fewer than [n] are left. *)
Definition cut (n : nat) (l : list byte) : option (list byte * list byte) :=
  if n <=? length l then Some (take n l, drop n l) else None.

(** A vector behind a one-byte, or a two-byte, length. *)
Definition vec8 (l : list byte) : option (list byte * list byte) :=
  match l with
  | n :: rest => cut (byte_val n) rest
  | [] => None
  end.

Definition vec16 (l : list byte) : option (list byte * list byte) :=
  match l with
  | n0 :: n1 :: rest => cut (be16 n0 n1) rest
  | _ => None
  end.

(** The record layer: the input is a run of handshake records, each made
    of the content type 0x16, two version bytes, a two-byte length and a
    fragment of exactly that length, which is not empty.  The handshake
    bytes are the fragments joined: a handshake message may be split over
    several records.  Every record takes at least six bytes, so
    [length d] rounds of fuel are enough. *)
Fixpoint fragments (fuel : nat) (d : list byte) : option (list byte) :=
  match fuel, d with
  | _, [] => Some []
  | S fuel, ct :: _ :: _ :: l0 :: l1 :: rest =>
    if bool_decide (ct = x16) && (1 <=? be16 l0 l1) then
      '(frag, rest) ← cut (be16 l0 l1) rest;
      more ← fragments fuel rest;
      Some (frag ++ more)
    else None
  | _, _ => None
  end.

Definition be24 (b0 b1 b2 : byte) : nat :=
  256 * 256 * byte_val b0 + 256 * byte_val b1 + byte_val b2.

(** The extensions vector of a handshake message that is one ClientHello
    and nothing more: type 1, a three-byte length that is the length of
    the body, and in the body the version and the random (34 bytes),
    legacy_session_id<0..32>, cipher_suites<2..2^16-2>,
    legacy_compression_methods<1..2^8-1>, extensions<..>, with nothing
    after them. *)
Definition client_hello_extensions (msg : list byte)
    : option (list byte) :=
  match msg with
  | ht :: h0 :: h1 :: h2 :: body =>
    if bool_decide (ht = x01) && (be24 h0 h1 h2 =? length body) then
      '(_, body) ← cut 34 body;
      '(sid, body) ← vec8 body;
      '(cs, body) ← vec16 body;
      '(cm, body) ← vec8 body;
      '(exts, body) ← vec16 body;
      if (length sid <=? 32) && (2 <=? length cs) && Nat.even (length cs)
         && (1 <=? length cm) && bool_decide (body = [])
      then Some exts else None
    else None
  | _ => None
  end.

(** The extensions, one after another up to the end of the vector: type
    and body of each. *)
Fixpoint extensions (fuel : nat) (v : list byte)
    : option (list (nat * list byte)) :=
  match fuel, v with
  | _, [] => Some []
  | S fuel, t0 :: t1 :: rest =>
    '(body, rest) ← vec16 rest;
    more ← extensions fuel rest;
    Some ((be16 t0 t1, body) :: more)
  | _, _ => None
  end.

(** The body of the first extension of type [ty]. *)
Fixpoint extension (ty : nat) (l : list (nat * list byte))
    : option (list byte) :=
  match l with
  | [] => None
  | (t, body) :: l => if t =? ty then Some body else extension ty l
  end.

(** The host name of a server_name extension: a ServerNameList filled by
    one entry of type host_name (0) whose name is not empty. *)
Definition host_name (body : list byte) : option gostring :=
  '(list, rest) ← vec16 body;
  match list with
  | nameType :: entry =>
    '(name, more) ← vec16 entry;
    if bool_decide (nameType = x00) && (1 <=? length name)
       && bool_decide (more = []) && bool_decide (rest = [])
    then Some name else None
  | [] => None
  end.

(** The host a well-formed ClientHello names; None when the input is not
    one, or carries no server_name extension. *)
Definition serverName (d : list byte) : option gostring :=
  msg ← fragments (length d) d;
  exts ← client_hello_extensions msg;
  l ← extensions (length exts) exts;
  body ← extension 0 l;
  host_name body.

End tls.

(** A ClientHello for youtube.com that its sender has split over two
    handshake records, 89 bytes in all.  The message carries an extension
    of type 0x0a0a with eight bytes of data, then the server_name
    extension; the first record ends after three of the eight bytes. *)
Definition split_hello_head : list byte :=
  [x01; x00; x00; x4b]                    (* ClientHello, 75 bytes *)
  ++ [x03; x03] ++ replicate 32 x00       (* version, random *)
  ++ [x00]                                (* no session id *)
  ++ [x00; x02; x00; x2f]                 (* one cipher suite *)
  ++ [x01; x00]                           (* one compression method *)
  ++ [x00; x20]                           (* 32 bytes of extensions *)
  ++ [x0a; x0a; x00; x08]                 (* extension 0x0a0a, 8 bytes *)
  ++ [x00; x00; x00].

Definition split_hello_tail : list byte :=
  [x00; x00; x00; x15; x00]               (* its other 5 bytes *)
  ++ [x00; x00; x00; x10]                 (* server_name, 16 bytes *)
  ++ [x00; x0e; x00; x00; x0b] ++ lit "youtube.com".

Definition split_hello : list byte :=
  ([x16; x03; x01; x00; x36] ++ split_hello_head)
  ++ ([x16; x03; x01; x00; x19] ++ split_hello_tail).

(** The same message in one record, as a client sends it that does not
    split. *)
Definition whole_hello : list byte :=
  [x16; x03; x01; x00; x4f] ++ split_hello_head ++ split_hello_tail.

(** The ClientHello of the parser's tests for example.org with the record
    length set to zero: no record, as nothing can follow a record of
    length zero but the next record header. *)
Definition zero_length_hello : list byte :=
  [x16; x03; x03; x00; x00]
  ++ drop 5 (sni_test.buildSimpleClientHello (lit "example.org")).

(* --------------------------------------------------------------------- *)
(* Facts about the string primitives                                     *)
(* --------------------------------------------------------------------- *)

Lemma streq_true (a b : gostring) : streq a b = true ↔ a = b.
Proof. unfold streq. apply bool_decide_eq_true. Qed.

Lemma HasPrefix_spec (s p : gostring) :
  strings.HasPrefix s p = true ↔ p `prefix_of` s.
Proof.
  unfold strings.HasPrefix.
  rewrite andb_true_iff, Nat.leb_le, streq_true. split.
  - intros [_ Heq]. exists (drop (length p) s).
    rewrite <- Heq at 1. symmetry. apply take_drop.
  - intros [k ->]. split.
    + rewrite length_app. lia.
    + apply take_app_length.
Qed.

Lemma HasSuffix_spec (s x : gostring) :
  strings.HasSuffix s x = true ↔ x `suffix_of` s.
Proof.
  unfold strings.HasSuffix.
  rewrite andb_true_iff, Nat.leb_le, streq_true. split.
  - intros [_ Heq]. exists (take (length s - length x) s).
    rewrite <- Heq at 2. symmetry. apply take_drop.
  - intros [k ->]. rewrite length_app. split; [lia|].
    replace (length k + length x - length x) with (length k) by lia.
    apply drop_app_length.
Qed.

Lemma TrimPrefix_www (r : gostring) :
  strings.HasPrefix r www = true → strings.TrimPrefix r www = drop 4 r.
Proof. intros H. unfold strings.TrimPrefix. rewrite H. reflexivity. Qed.

Lemma rule_hits_spec (h r : gostring) :
  rule_hits (normalize h) r = true ↔ rule_matches h r.
Proof.
  unfold rule_hits, rule_matches, matches_rule.
  destruct (streq (normalize h) (normalize r)
            || strings.HasSuffix (normalize h) (dot ++ normalize r)) eqn:E1.
  - apply orb_true_iff in E1. rewrite streq_true, HasSuffix_spec in E1.
    tauto.
  - apply orb_false_iff in E1 as [E1a E1b].
    assert (N1 : normalize h ≠ normalize r).
    { intros H. apply streq_true in H. congruence. }
    assert (N2 : ¬ (dot ++ normalize r) `suffix_of` normalize h).
    { intros H. apply HasSuffix_spec in H. congruence. }
    destruct (strings.HasPrefix (normalize r) www) eqn:E2.
    + rewrite (TrimPrefix_www _ E2).
      rewrite orb_true_iff, streq_true, HasSuffix_spec.
      apply HasPrefix_spec in E2. tauto.
    + assert (N3 : ¬ www `prefix_of` normalize r).
      { intros H. apply HasPrefix_spec in H. congruence. }
      split; [discriminate | tauto].
Qed.

Lemma isBlocked_matches (h : gostring) (rules : list gostring) :
  isBlocked h rules = true ↔ ∃ r, r ∈ rules ∧ rule_matches h r.
Proof.
  unfold isBlocked.
  induction rules as [|r rules IH]; simpl.
  - split; [discriminate|]. intros (r & Hin & _). inversion Hin.
  - destruct (rule_hits (normalize h) r) eqn:E.
    + split; [|reflexivity]. intros _. exists r. split; [left|].
      apply rule_hits_spec, E.
    + rewrite IH. split.
      * intros (r' & Hin & Hm). exists r'. split; [by right | done].
      * intros (r' & Hin & Hm). apply elem_of_cons in Hin as [->|Hin].
        -- apply rule_hits_spec in Hm. congruence.
        -- exists r'. done.
Qed.

(* --------------------------------------------------------------------- *)
(* The matcher and the match relation of the specification               *)
(* --------------------------------------------------------------------- *)

Lemma byte_val_inj (a b : byte) : byte_val a = byte_val b → a = b.
Proof.
  unfold byte_val. intros H. apply N2Nat.inj in H.
  apply (f_equal Byte.of_N) in H. rewrite !Byte.of_to_N in H. congruence.
Qed.

Lemma lower_byte_val (c : byte) :
  byte_val (strings.lower_byte c)
  = if (65 <=? byte_val c) && (byte_val c <=? 90)
    then byte_val c + 32 else byte_val c.
Proof. by destruct c. Qed.

(** Lower-casing sends two bytes to the same byte exactly when they are
    the same letter. *)
Lemma lower_byte_same (a b : byte) :
  strings.lower_byte a = strings.lower_byte b ↔ same_letter a b.
Proof.
  unfold same_letter. split.
  - intros H. apply (f_equal byte_val) in H.
    rewrite !lower_byte_val in H.
    destruct (decide (a = b)) as [|Hne]; [by left|right].
    assert (byte_val a ≠ byte_val b) by (intros ?%byte_val_inj; done).
    destruct ((65 <=? byte_val a) && (byte_val a <=? 90)) eqn:Ea;
      destruct ((65 <=? byte_val b) && (byte_val b <=? 90)) eqn:Eb;
      try apply andb_true_iff in Ea as [?%Nat.leb_le ?%Nat.leb_le];
      try apply andb_true_iff in Eb as [?%Nat.leb_le ?%Nat.leb_le];
      lia.
  - intros H. apply byte_val_inj. rewrite !lower_byte_val.
    destruct H as [->|[[Ha Hb]|[Hb Ha]]]; [done| |].
    + rewrite (proj2 (andb_true_iff _ _)
                 (conj (proj2 (Nat.leb_le _ _) (proj1 Ha))
                       (proj2 (Nat.leb_le _ _) (proj2 Ha)))).
      destruct ((65 <=? byte_val b) && (byte_val b <=? 90)) eqn:Eb; [|lia].
      apply andb_true_iff in Eb as [?%Nat.leb_le ?%Nat.leb_le]. lia.
    + rewrite (proj2 (andb_true_iff _ _)
                 (conj (proj2 (Nat.leb_le _ _) (proj1 Hb))
                       (proj2 (Nat.leb_le _ _) (proj2 Hb)))).
      destruct ((65 <=? byte_val a) && (byte_val a <=? 90)) eqn:Ea; [|lia].
      apply andb_true_iff in Ea as [?%Nat.leb_le ?%Nat.leb_le]. lia.
Qed.

Lemma ToLower_eq_fold (a b : gostring) :
  strings.ToLower a = strings.ToLower b ↔ eq_fold a b.
Proof.
  unfold strings.ToLower, eq_fold. revert b.
  induction a as [|x a IH]; intros [|y b]; cbn [fmap list_fmap].
  - split; [constructor|done].
  - split; [discriminate|inversion 1].
  - split; [discriminate|inversion 1].
  - split.
    + intros [= Hxy Hab]. constructor; [by apply lower_byte_same|].
      by apply IH.
    + inversion 1 as [|???? Hxy Hab]; subst.
      apply lower_byte_same in Hxy. apply IH in Hab. by f_equal.
Qed.

(** Taking off the trailing dot is what strings.TrimSuffix(x, ".") does. *)
Lemma strip_dot_TrimSuffix (x : gostring) :
  strip_dot x = strings.TrimSuffix x dot.
Proof.
  unfold strip_dot, strings.TrimSuffix.
  destruct x as [|c0 x0] using rev_ind; [done|]. clear IHx0.
  rewrite reverse_snoc.
  case_bool_decide as Hc.
  - subst c0. rewrite reverse_involutive.
    assert (H : strings.HasSuffix (x0 ++ [x2e]) dot = true)
      by (apply HasSuffix_spec; by exists x0).
    rewrite H, length_app. change (length dot) with 1. cbn [length].
    replace (length x0 + 1 - 1) with (length x0) by lia.
    by rewrite take_app_length.
  - destruct (strings.HasSuffix (x0 ++ [c0]) dot) eqn:H; [|done].
    apply HasSuffix_spec in H as [k Hk].
    apply app_inj_tail in Hk as [_ ->]. done.
Qed.

Lemma normalize_strip_dot (x : gostring) :
  normalize x = strings.ToLower (strip_dot x).
Proof. unfold normalize. by rewrite strip_dot_TrimSuffix. Qed.

Lemma matches_rule_fold (h r : gostring) :
  matches_rule (strings.ToLower h) (strings.ToLower r) ↔ matches_fold h r.
Proof.
  unfold matches_rule, matches_fold. rewrite ToLower_eq_fold.
  apply or_iff_compat_l. split.
  - intros [k Hk]. unfold strings.ToLower in Hk.
    apply fmap_app_inv in Hk as (p & s & -> & Hs & ->).
    exists p, s. split; [done|]. apply ToLower_eq_fold.
    unfold strings.ToLower. by rewrite fmap_app, <- Hs.
  - intros (p & s & -> & Hs). apply ToLower_eq_fold in Hs.
    exists (strings.ToLower p). unfold strings.ToLower in *.
    by rewrite fmap_app, Hs, fmap_app.
Qed.

Lemma www_prefix_fold (r : gostring) :
  www `prefix_of` strings.ToLower r ↔ eq_fold (take 4 r) www.
Proof.
  rewrite <- ToLower_eq_fold. change (strings.ToLower www) with www.
  unfold strings.ToLower. rewrite fmap_take. split.
  - intros [k ->]. done.
  - intros H. exists (drop 4 (strings.lower_byte <$> r)).
    by rewrite <- H, take_drop.
Qed.

Lemma rule_matches_blocks (h r : gostring) :
  rule_matches h r ↔ rule_blocks h r.
Proof.
  unfold rule_matches, rule_blocks. rewrite !normalize_strip_dot.
  rewrite matches_rule_fold, www_prefix_fold.
  unfold strings.ToLower at 2. rewrite <- fmap_drop.
  fold (strings.ToLower (drop 4 (strip_dot r))).
  by rewrite matches_rule_fold.
Qed.

(** C2. For every host name h and every rule list, both in ASCII,
    isBlocked returns true exactly when some rule r of the list, or the
    bare form r[4:] of a rule that begins with "www.", satisfies h == r or
    h ends with "." + r, host and rule being taken without their trailing
    dot and compared without regard to case. *)
Theorem isBlocked_iff_matches (h : gostring) (rules : list gostring) :
  ascii h → Forall ascii rules →
  isBlocked h rules = true ↔ matches h rules.
Proof.
  intros _ _. rewrite isBlocked_matches. unfold matches.
  split; intros (r & Hin & Hm); exists r; (split; [done|]);
    by apply rule_matches_blocks.
Qed.

(** Example.COM. against the rule www.example.com. *)
Lemma isBlocked_iff_matches_witness :
  matches (lit "Example.COM.") [lit "www.example.com"].
Proof.
  apply (proj1 (isBlocked_iff_matches (lit "Example.COM.")
                  [lit "www.example.com"]
                  ltac:(apply (bool_decide_unpack _); vm_compute; exact I)
                  ltac:(apply (bool_decide_unpack _); vm_compute; exact I))).
  vm_compute. reflexivity.
Defined.

(** On rules that are in normal form already, lower case and without a
    trailing dot, the "www." test and the cut r[4:] can be read on the
    rule as it is written. *)
Lemma DomainRule_no_dot (r : gostring) :
  DomainRule r → strip_dot r = r ∧ strings.ToLower r = r.
Proof.
  unfold DomainRule. rewrite normalize_strip_dot, strip_dot_TrimSuffix.
  unfold strings.TrimSuffix. intros H.
  destruct (strings.HasSuffix r dot) eqn:Hs; [|done].
  apply (f_equal length) in H. unfold strings.ToLower in H.
  rewrite length_fmap, length_take in H.
  apply HasSuffix_spec, suffix_length in Hs.
  change (length dot) with 1 in *. lia.
Qed.

Lemma isBlocked_iff_matches_as_written (h : gostring)
    (rules : list gostring) :
  Forall DomainRule rules →
  isBlocked h rules = true
  ↔ ∃ r, r ∈ rules
         ∧ (matches_fold (strip_dot h) r
            ∨ (www `prefix_of` r ∧ matches_fold (strip_dot h) (drop 4 r))).
Proof.
  intros Hwf. rewrite isBlocked_matches. rewrite Forall_forall in Hwf.
  assert (Hiff : ∀ r, r ∈ rules →
            rule_matches h r
            ↔ matches_fold (strip_dot h) r
              ∨ (www `prefix_of` r
                 ∧ matches_fold (strip_dot h) (drop 4 r))).
  { intros r Hin. destruct (DomainRule_no_dot r (Hwf r Hin)) as [Hd Hl].
    rewrite rule_matches_blocks. unfold rule_blocks.
    by rewrite Hd, <- www_prefix_fold, Hl. }
  split; intros (r & Hin & Hm); exists r; (split; [done|]);
    by apply (Hiff r Hin).
Qed.

(** Adding rules never un-blocks a host. *)
Lemma isBlocked_monotone (h : gostring) (rules more : list gostring) :
  isBlocked h rules = true → isBlocked h (rules ++ more) = true.
Proof.
  rewrite !isBlocked_matches. intros (r & Hin & Hm).
  exists r. split; [|done]. apply elem_of_app. by left.
Qed.

(* --------------------------------------------------------------------- *)
(* Slices                                                                *)
(* --------------------------------------------------------------------- *)

Lemma bind_Ok {E A B} (m : result E A) (f : A → result E B) (b : B) :
  (m ≫= f) = Ok b → ∃ a, m = Ok a ∧ f a = Ok b.
Proof. destruct m; simpl; try discriminate. eauto. Qed.

Lemma index_Ok {E} (s : slice) (i : nat) (b : byte) :
  index (E:=E) s i = Ok b → i < len s ∧ arr s !! i = Some b.
Proof.
  unfold index. destruct (i <? len s) eqn:Hi; [|discriminate].
  apply Nat.ltb_lt in Hi. destruct (arr s !! i); [|discriminate].
  intros [= ->]. done.
Qed.

Lemma reslice_Ok {E} (s t : slice) (lo hi : nat) :
  reslice (E:=E) s lo hi = Ok t →
  lo ≤ hi ∧ hi ≤ cap s ∧ t = mkSlice (drop lo (arr s)) (hi - lo).
Proof.
  unfold reslice. destruct (_ && _) eqn:Hc; [|discriminate].
  apply andb_true_iff in Hc as [H1 H2].
  apply Nat.leb_le in H1, H2. intros [= <-]. done.
Qed.

(** Reading a big-endian 16-bit field at [lo]. *)
Lemma read16_Ok {E} (s t : slice) (lo hi n : nat) :
  reslice (E:=E) s lo hi = Ok t → Uint16 (E:=E) t = Ok n →
  ∃ b0 b1, arr s !! lo = Some b0 ∧ arr s !! (lo + 1) = Some b1
           ∧ n = be16 b0 b1.
Proof.
  intros (_ & _ & ->)%reslice_Ok Hu. unfold Uint16 in Hu.
  apply bind_Ok in Hu as (b1 & (_ & H1)%index_Ok & Hu).
  apply bind_Ok in Hu as (b0 & (_ & H0)%index_Ok & Hu).
  simpl in *. rewrite lookup_drop in H0, H1.
  rewrite Nat.add_0_r in H0. injection Hu as <-. eauto.
Qed.

Lemma be16_value (b0 b1 : byte) : be16 b0 b1 = 256 * byte_val b0 + byte_val b1.
Proof.
  unfold be16, byte_val.
  assert (Hlt : (Byte.to_N b1 < 2 ^ 8)%N) by (destruct b1; vm_compute; done).
  assert (Hland : N.land (Byte.to_N b1) (Byte.to_N b0 * 2 ^ 8) = 0%N).
  { apply N.bits_inj; intros k; rewrite N.land_spec, N.bits_0.
    destruct (decide (k < 8)%N).
    - rewrite N.mul_pow2_bits_low by done. apply andb_false_r.
    - destruct (decide (Byte.to_N b1 = 0)%N) as [->|]; [by rewrite N.bits_0|].
      rewrite (N.bits_above_log2 (Byte.to_N b1)); [done|].
      assert (N.log2 (Byte.to_N b1) < 8)%N by (apply N.log2_lt_pow2; lia).
      lia. }
  rewrite N.shiftl_mul_pow2, <- N.lxor_lor, <- N.add_nocarry_lxor by done.
  lia.
Qed.

(* --------------------------------------------------------------------- *)
(* What the parser has read when it returns a host name                  *)
(* --------------------------------------------------------------------- *)

(** One step backwards through a run of the parser that ended in [Ok]. *)
Ltac run_step H :=
  lazymatch type of H with
  | (if ?c then Err _ else _) = Ok _ =>
      let C := fresh "C" in destruct c eqn:C; [discriminate H|]
  | (mbind _ _) = Ok _ =>
      let x := fresh "x" in
      let Hx := fresh "Hx" in
      apply bind_Ok in H as (x & Hx & H)
  | (let _ := _ in _) = Ok _ => cbv zeta in H
  end.

Lemma drop_byte (d : list byte) (p : nat) (x : byte) :
  d !! p = Some x → drop p d = [x] ++ drop (p + 1) d.
Proof. intros H. rewrite Nat.add_1_r. by apply drop_S. Qed.

Lemma drop_seg (d : list byte) (p k : nat) :
  drop p d = take k (drop p d) ++ drop (p + k) d.
Proof. by rewrite <- drop_drop, take_drop. Qed.

Lemma seg_length (d : list byte) (p k : nat) :
  p + k ≤ length d → length (take k (drop p d)) = k.
Proof. intros H. rewrite length_take, length_drop. lia. Qed.

Lemma seg_take (a : list byte) (n p k : nat) :
  p + k ≤ n → take k (drop p (take n a)) = take k (drop p a).
Proof.
  intros H. rewrite !take_drop_commute, take_take.
  do 2 f_equal. lia.
Qed.

Lemma bytes_of_length (s : slice) :
  len s ≤ cap s → length (bytes_of s) = len s.
Proof. unfold bytes_of, cap. intros H. rewrite length_take. lia. Qed.

Lemma index_bytes {E} (s : slice) (i : nat) (b : byte) :
  index (E:=E) s i = Ok b → bytes_of s !! i = Some b.
Proof.
  intros [Hi H]%index_Ok. unfold bytes_of. by rewrite lookup_take_lt.
Qed.

Lemma read16_bytes {E} (s t : slice) (lo hi n : nat) :
  reslice (E:=E) s lo hi = Ok t → Uint16 (E:=E) t = Ok n →
  lo + 2 ≤ len s →
  ∃ b0 b1, bytes_of s !! lo = Some b0 ∧ bytes_of s !! (lo + 1) = Some b1
           ∧ n = be16 b0 b1.
Proof.
  intros Hr Hu Hlen.
  destruct (read16_Ok _ _ _ _ _ Hr Hu) as (b0 & b1 & H0 & H1 & ->).
  exists b0, b1. unfold bytes_of. rewrite !lookup_take_lt by lia. done.
Qed.

Lemma reslice_bytes {E} (s t : slice) (lo k : nat) :
  reslice (E:=E) s lo (lo + k) = Ok t → lo + k ≤ len s →
  bytes_of t = take k (drop lo (bytes_of s)).
Proof.
  intros (_ & _ & ->)%reslice_Ok Hlen. unfold bytes_of. cbn [arr len].
  replace (lo + k - lo) with k by lia. by rewrite seg_take.
Qed.

Lemma reslice_wf {E} (s t : slice) (lo k : nat) :
  reslice (E:=E) s lo (lo + k) = Ok t → len t ≤ cap t.
Proof.
  intros (_ & Hc & ->)%reslice_Ok. unfold cap in *. cbn [arr len].
  rewrite length_drop. lia.
Qed.

Lemma parseSNIExtension_sound (s : slice) (h : gostring) :
  len s ≤ cap s →
  sni.parseSNIExtension s = Ok h → server_name (bytes_of s) h.
Proof.
  intros Hwf H. unfold sni.parseSNIExtension in H.
  repeat run_step H.
  change (2 + 1 + 2) with 5 in *. change (2 + 1) with 3 in *.
  apply Nat.ltb_ge in C, C3.
  destruct (read16_bytes _ _ _ _ _ Hx Hx0) as (ll0 & ll1 & Hl0 & Hl1 & _);
    [lia|].
  destruct (read16_bytes _ _ _ _ _ Hx2 Hx3) as (n0 & n1 & Hn0 & Hn1 & ->);
    [lia|].
  apply index_bytes in Hx1.
  apply negb_false_iff, bool_decide_eq_true in C1. subst x1.
  rewrite (reslice_bytes _ _ _ _ Hx4 C3) in *.
  injection H as <-.
  pose proof (bytes_of_length s Hwf) as Hlen.
  set (d := bytes_of s) in *.
  exists ll0, ll1, n0, n1, (drop (5 + be16 n0 n1) d).
  split; [|split].
  - rewrite <- (drop_0 d) at 1.
    rewrite (drop_byte _ 0 ll0), (drop_byte _ 1 ll1),
      (drop_byte _ 2 sni.sniNameTypeHostname),
      (drop_byte _ 3 n0), (drop_byte _ 4 n1) by done.
    change (4 + 1) with 5. by rewrite (drop_seg d 5 (be16 n0 n1)) at 1.
  - apply seg_length. lia.
  - intros Hnil. rewrite Hnil in C4. done.
Qed.

Lemma peel_byte (d : list byte) (p q : nat) (x : byte) (rest : list byte) :
  d !! p = Some x → q = p + 1 → drop q d = rest → drop p d = x :: rest.
Proof. intros H -> <-. by apply drop_byte. Qed.

Lemma peel_seg (d : list byte) (p q k : nat) (rest : list byte) :
  q = p + k → drop q d = rest → drop p d = take k (drop p d) ++ rest.
Proof. intros -> <-. apply drop_seg. Qed.

Lemma extensions_loop_within (fuel : nat) (data : slice) (pos ee : nat)
    (h : gostring) :
  len data ≤ cap data →
  sni.extensions_loop fuel data pos ee = Ok h →
  carry_within (ee - pos) (drop pos (bytes_of data)) h.
Proof.
  intros Hwf. revert pos. induction fuel as [|fuel IH]; intros pos H.
  - discriminate.
  - simpl in H. destruct (pos + 4 <=? ee) eqn:Hc; [|discriminate].
    apply Nat.leb_le in Hc.
    repeat run_step H.
    apply Nat.ltb_ge in C.
    destruct (read16_bytes _ _ _ _ _ Hx Hx0) as (t0 & t1 & Ht0 & Ht1 & ->);
      [lia|].
    destruct (read16_bytes _ _ _ _ _ Hx1 Hx2) as (l0 & l1 & Hl0 & Hl1 & ->);
      [lia|].
    pose proof (bytes_of_length data Hwf) as Hlen.
    set (d := bytes_of data) in *.
    assert (Hd : drop pos d
                 = [t0; t1; l0; l1] ++ take (be16 l0 l1) (drop (pos + 4) d)
                   ++ drop (pos + 4 + be16 l0 l1) d).
    { rewrite (drop_byte _ pos t0), (drop_byte _ (pos + 1) t1) by done.
      replace (pos + 1 + 1) with (pos + 2) by lia.
      rewrite (drop_byte _ (pos + 2) l0), (drop_byte _ (pos + 2 + 1) l1)
        by done.
      replace (pos + 2 + 1 + 1) with (pos + 4) by lia.
      by rewrite (drop_seg d (pos + 4) (be16 l0 l1)) at 1. }
    assert (Hb : length (take (be16 l0 l1) (drop (pos + 4) d)) = be16 l0 l1)
      by (apply seg_length; lia).
    rewrite Hd.
    destruct (be16 t0 t1 =? sni.extensionTypeSNI) eqn:Ety.
    + apply Nat.eqb_eq in Ety. run_step H.
      apply within_here; [lia | done | done |].
      unfold d. rewrite <- (reslice_bytes _ _ _ _ Hx3 C).
      apply parseSNIExtension_sound; [|done].
      by apply reslice_wf in Hx3.
    + apply Nat.eqb_neq in Ety.
      apply within_later; [lia | done | done |].
      rewrite Hb.
      replace (ee - pos - (4 + be16 l0 l1))
        with (ee - (pos + 4 + be16 l0 l1)) by lia.
      by apply IH.
Qed.

Lemma ExtractSNI_within (data : slice) (h : gostring) :
  len data ≤ cap data →
  sni.ExtractSNI data = Ok h → hello_within (bytes_of data) h.
Proof.
  intros Hwf H. unfold sni.ExtractSNI in H.
  repeat run_step H.
  change (9 + 2 + 32) with 43 in *.
  apply Nat.ltb_ge in C, C1, C2, C5, C7. apply Nat.leb_gt in C4, C6.
  apply negb_false_iff, bool_decide_eq_true in C0, C3. subst x x2.
  apply index_bytes in Hx, Hx2, Hx3, Hx6.
  destruct (read16_bytes _ _ _ _ _ Hx0 Hx1) as (r0 & r1 & Hr0 & Hr1 & ->);
    [lia|].
  destruct (read16_bytes _ _ _ _ _ Hx4 Hx5) as (c0 & c1 & Hc0 & Hc1 & ->);
    [lia|].
  destruct (read16_bytes _ _ _ _ _ Hx7 Hx8) as (e0 & e1 & He0 & He1 & ->);
    [lia|].
  apply extensions_loop_within in H; [|done].
  pose proof (bytes_of_length data Hwf) as Hlen.
  set (d := bytes_of data) in *.
  destruct (lookup_lt_is_Some_2 d 1) as [v0 Hv0]; [lia|].
  destruct (lookup_lt_is_Some_2 d 2) as [v1 Hv1]; [lia|].
  set (sl := byte_val x3) in *. set (csl := be16 c0 c1) in *.
  set (cml := byte_val x6) in *.
  exists v0, v1, r0, r1, (take 3 (drop 6 d)), (take 34 (drop 9 d)),
    x3, (take sl (drop 44 d)), c0, c1, (take csl (drop (46 + sl) d)),
    x6, (take cml (drop (47 + sl + csl) d)), e0, e1,
    (drop (49 + sl + csl + cml) d).
  split; [|split; [lia|]]; [|repeat split].
  - cbn [app]. rewrite <- (drop_0 d) at 1.
    apply (peel_byte d 0 1); [done..|].
    apply (peel_byte d 1 2); [done..|].
    apply (peel_byte d 2 3); [done..|].
    apply (peel_byte d 3 4); [done..|].
    apply (peel_byte d 4 5); [done..|].
    apply (peel_byte d 5 6); [done..|].
    apply (peel_seg d 6 9); [done|].
    apply (peel_seg d 9 43); [done|].
    apply (peel_byte d 43 44); [done..|].
    apply (peel_seg d 44 (44 + sl)); [done|].
    apply (peel_byte d (44 + sl) (45 + sl)); [by rewrite <- Hc0; f_equal; lia|lia|].
    apply (peel_byte d (45 + sl) (46 + sl)); [by rewrite <- Hc1; f_equal; lia|lia|].
    apply (peel_seg d (46 + sl) (46 + sl + csl)); [done|].
    apply (peel_byte d (46 + sl + csl) (47 + sl + csl));
      [by rewrite <- Hx6; f_equal; lia|lia|].
    apply (peel_seg d (47 + sl + csl) (47 + sl + csl + cml)); [done|].
    apply (peel_byte d (47 + sl + csl + cml) (48 + sl + csl + cml));
      [by rewrite <- He0; f_equal; lia|lia|].
    apply (peel_byte d (48 + sl + csl + cml) (49 + sl + csl + cml));
      [by rewrite <- He1; f_equal; lia|lia|].
    done.
  - apply seg_length; lia.
  - apply seg_length; lia.
  - apply seg_length; lia.
  - apply seg_length; lia.
  - apply seg_length; lia.
  - replace (49 + sl + csl + cml)
      with (43 + (1 + sl) + (2 + csl) + (1 + cml) + 2) by lia.
    replace (be16 e0 e1)
      with (43 + (1 + sl) + (2 + csl) + (1 + cml) + 2 + be16 e0 e1
            - (43 + (1 + sl) + (2 + csl) + (1 + cml) + 2)) at 1 by lia.
    done.
Qed.

Lemma extensions_loop_fuel (f1 f2 : nat) (data : slice) (pos ee : nat) :
  ee - pos ≤ f1 → ee - pos ≤ f2 →
  sni.extensions_loop f1 data pos ee = sni.extensions_loop f2 data pos ee.
Proof.
  revert f2 pos. induction f1 as [|f1 IH]; intros [|f2] pos H1 H2; simpl;
    try done.
  - destruct (pos + 4 <=? ee) eqn:E; [apply Nat.leb_le in E; lia | done].
  - destruct (pos + 4 <=? ee) eqn:E; [apply Nat.leb_le in E; lia | done].
  - destruct (pos + 4 <=? ee) eqn:E; [apply Nat.leb_le in E | done].
    destruct (reslice data pos (pos + 2)) as [b| |]; simpl; try done.
    destruct (Uint16 b) as [extType| |]; simpl; try done.
    destruct (reslice data (pos + 2) (pos + 4)) as [b'| |]; simpl; try done.
    destruct (Uint16 b') as [extLength| |]; simpl; try done.
    destruct (len data <? _); [done|].
    destruct (extType =? _); [done|].
    apply IH; lia.
Qed.

(* --------------------------------------------------------------------- *)
(* Where the parser can panic                                            *)
(* --------------------------------------------------------------------- *)

Lemma index_total {E} (s : slice) (i : nat) :
  len s ≤ cap s → i < len s → ∃ b, index (E:=E) s i = Ok b.
Proof.
  intros Hwf Hi. unfold index.
  destruct (i <? len s) eqn:Hlt; [|apply Nat.ltb_ge in Hlt; lia].
  destruct (lookup_lt_is_Some_2 (arr s) i) as [b ->]; [unfold cap in *; lia|].
  eauto.
Qed.

Lemma reslice_total {E} (s : slice) (lo hi : nat) :
  lo ≤ hi → hi ≤ cap s →
  reslice (E:=E) s lo hi = Ok (mkSlice (drop lo (arr s)) (hi - lo)).
Proof.
  intros H1 H2. unfold reslice.
  by rewrite (proj2 (Nat.leb_le _ _) H1), (proj2 (Nat.leb_le _ _) H2).
Qed.

Lemma bind_no_panic {E A B} (m : result E A) (f : A → result E B) :
  m ≠ Panic → (∀ a, m = Ok a → f a ≠ Panic) → (m ≫= f) ≠ Panic.
Proof. destruct m; simpl; [eauto | discriminate | done]. Qed.

Lemma index_no_panic {E} (s : slice) (i : nat) :
  len s ≤ cap s → i < len s → index (E:=E) s i ≠ Panic.
Proof. intros Hwf Hi. by destruct (index_total (E:=E) s i Hwf Hi) as [b ->]. Qed.

Lemma reslice_no_panic {E} (s : slice) (lo hi : nat) :
  lo ≤ hi → hi ≤ cap s → reslice (E:=E) s lo hi ≠ Panic.
Proof. intros H1 H2. by rewrite reslice_total. Qed.

(** Uint16 on a two-byte window cut out of [s]. *)
Lemma Uint16_no_panic {E} (s t : slice) (lo hi : nat) :
  reslice (E:=E) s lo hi = Ok t → lo + 2 ≤ hi → Uint16 (E:=E) t ≠ Panic.
Proof.
  intros (_ & Hc & ->)%reslice_Ok Hhi. unfold Uint16.
  assert (Hwf : len (mkSlice (drop lo (arr s)) (hi - lo))
                ≤ cap (mkSlice (drop lo (arr s)) (hi - lo))).
  { unfold cap in *. cbn [arr len]. rewrite length_drop. lia. }
  apply bind_no_panic; [apply index_no_panic; [done | cbn [len]; lia]|].
  intros b1 _.
  apply bind_no_panic; [apply index_no_panic; [done | cbn [len]; lia]|].
  done.
Qed.

(** One step forwards through the parser: a length check that passed is
    kept as a fact, a read is shown to be in range from the facts kept. *)
Ltac no_panic_step :=
  lazymatch goal with
  | |- (if ?c then Err _ else _) ≠ Panic =>
      let C := fresh "C" in
      destruct c eqn:C; [discriminate|];
      lazymatch type of C with
      | (_ <? _) = false => apply Nat.ltb_ge in C
      | (_ <=? _) = false => apply Nat.leb_gt in C
      | _ => idtac
      end
  | |- (mbind _ _) ≠ Panic =>
      let a := fresh "a" in
      let Ha := fresh "Ha" in
      apply bind_no_panic;
      [first [ apply reslice_no_panic; lia
             | apply index_no_panic; [assumption | lia]
             | eapply Uint16_no_panic; [eassumption | lia] ]
      |intros a Ha]
  | |- (let _ := _ in _) ≠ Panic => cbv zeta
  end.

Lemma parseSNIExtension_no_panic (s : slice) :
  len s ≤ cap s → sni.parseSNIExtension s ≠ Panic.
Proof.
  intros Hwf. unfold sni.parseSNIExtension.
  repeat no_panic_step. done.
Qed.

Lemma extensions_loop_no_panic (fuel : nat) (data : slice) (pos ee : nat) :
  len data + 4 ≤ cap data → pos ≤ len data →
  sni.extensions_loop fuel data pos ee ≠ Panic.
Proof.
  intros Hcap. revert pos. induction fuel as [|fuel IH]; intros pos Hpos;
    simpl; [done|].
  destruct (pos + 4 <=? ee); [|done].
  repeat no_panic_step.
  destruct (_ =? sni.extensionTypeSNI).
  - no_panic_step. apply parseSNIExtension_no_panic. by eapply reslice_wf.
  - apply IH. lia.
Qed.

(** ExtractSNI can only panic on a slice with fewer than four bytes of
    capacity behind its length: the reads of an extension's type and length
    are the only ones not preceded by a check against len(data). *)
Lemma ExtractSNI_panic_needs_tight_capacity (data : slice) :
  len data ≤ cap data →
  sni.ExtractSNI data = Panic → cap data < len data + 4.
Proof.
  intros Hwf Hp.
  destruct (decide (cap data < len data + 4)) as [|Hcap]; [done|].
  assert (Hnp : sni.ExtractSNI data ≠ Panic); [|done].
  clear Hp. unfold sni.ExtractSNI.
  repeat no_panic_step.
  apply extensions_loop_no_panic; lia.
Qed.

(* --------------------------------------------------------------------- *)
(* The HTTP request head                                                 *)
(* --------------------------------------------------------------------- *)

Lemma ReadString_app (s line rest : list byte) (ok : bool) :
  proxy.ReadString s = (line, rest, ok) → s = line ++ rest.
Proof.
  revert line rest ok. induction s as [|b s IH]; intros line rest ok; simpl.
  - by intros [= <- <- <-].
  - case_bool_decide.
    + by intros [= <- <- <-].
    + destruct (proxy.ReadString s) as [[l r] o]. intros [= <- <- <-].
      simpl. f_equal. by eapply IH.
Qed.

Lemma ReadString_line (s line rest : list byte) :
  proxy.ReadString s = (line, rest, true) → 0 < length line.
Proof.
  revert line rest. induction s as [|b s IH]; intros line rest; simpl.
  - discriminate.
  - case_bool_decide.
    + intros [= <- <-]. simpl. lia.
    + destruct (proxy.ReadString s) as [[l r] o]. intros [= <- <- ->].
      simpl. lia.
Qed.

Lemma ReadString_shrinks (s line rest : list byte) :
  proxy.ReadString s = (line, rest, true) → length rest < length s.
Proof.
  intros H. pose proof (ReadString_line _ _ _ H).
  apply ReadString_app in H as ->. rewrite length_app. lia.
Qed.

Lemma lower_byte_colon (c : byte) :
  strings.lower_byte c = colon → c = colon.
Proof. destruct c; vm_compute; congruence. Qed.

Lemma IndexByte_elem (s : gostring) (c : byte) :
  c ∈ s → is_Some (strings.IndexByte s c).
Proof.
  induction s as [|b s IH]; [by intros ?%elem_of_nil|].
  intros [->|Hin]%elem_of_cons; simpl.
  - rewrite bool_decide_eq_true_2 by done. eauto.
  - case_bool_decide; [eauto|]. destruct (IH Hin) as [i ->]. simpl. eauto.
Qed.

Lemma IndexByte_lt (s : gostring) (c : byte) (i : nat) :
  strings.IndexByte s c = Some i → i < length s.
Proof.
  revert i. induction s as [|b s IH]; intros i; simpl; [discriminate|].
  case_bool_decide.
  - intros [= <-]. lia.
  - destruct (strings.IndexByte s c) as [j|]; [|discriminate].
    intros [= <-]. specialize (IH j eq_refl). lia.
Qed.

(** A line that passes the "host:" test holds a ':', so SplitN yields two
    parts and indexing the second cannot panic. *)
Lemma host_line_has_colon (line : gostring) :
  strings.HasPrefix (strings.ToLower line) (lit "host:") = true →
  is_Some (strings.IndexByte line colon).
Proof.
  intros [k Hk]%HasPrefix_spec. apply IndexByte_elem.
  assert (H4 : strings.ToLower line !! 4 = Some colon) by (by rewrite Hk).
  unfold strings.ToLower in H4. rewrite list_lookup_fmap in H4.
  destruct (line !! 4) as [c|] eqn:Hc; [|discriminate].
  injection H4 as ->%lower_byte_colon.
  by eapply list_elem_of_lookup_2.
Qed.

Lemma headerLoop_total (fuel : nat) (s : list byte) :
  ∃ host lines, proxy.headerLoop fuel s = Ok (host, lines).
Proof.
  revert s. induction fuel as [|fuel IH]; intros s; simpl; [eauto|].
  destruct (proxy.ReadString s) as [[line rest] ok].
  destruct (_ || _); [eauto|].
  destruct (strings.HasPrefix _ _) eqn:Hp.
  - unfold proxy.afterColon.
    destruct (host_line_has_colon _ Hp) as [i ->]. simpl. eauto.
  - destruct (IH rest) as (host & lines & ->). simpl. eauto.
Qed.

Lemma headerLoop_fuel (f1 f2 : nat) (s : list byte) :
  length s < f1 → length s < f2 →
  proxy.headerLoop f1 s = proxy.headerLoop f2 s.
Proof.
  revert f2 s. induction f1 as [|f1 IH]; intros [|f2] s H1 H2; try lia.
  simpl. destruct (proxy.ReadString s) as [[line rest] ok] eqn:Hr.
  destruct ok; [|done].
  apply ReadString_shrinks in Hr.
  destruct (_ || _); [done|].
  destruct (strings.HasPrefix _ _); [done|].
  rewrite (IH f2 rest) by lia. done.
Qed.

Lemma occurs_in_refl (d : list byte) : occurs_in d d.
Proof. exists [], []. by rewrite app_nil_r. Qed.

Lemma occurs_in_trans (a b c : list byte) :
  occurs_in a b → occurs_in b c → occurs_in a c.
Proof.
  intros (p & q & ->) (p' & q' & ->). exists (p' ++ p), (q ++ q').
  by rewrite <- !app_assoc.
Qed.

Lemma occurs_in_take (d : list byte) (n : nat) : occurs_in (take n d) d.
Proof. exists [], (drop n d). by rewrite take_drop. Qed.

Lemma occurs_in_drop (d : list byte) (n : nat) : occurs_in (drop n d) d.
Proof. exists (take n d), []. by rewrite app_nil_r, take_drop. Qed.

Lemma occurs_in_app_l (a b : list byte) : occurs_in a (a ++ b).
Proof. by exists [], b. Qed.

Lemma occurs_in_app_r (a b : list byte) : occurs_in b (a ++ b).
Proof. exists a, []. by rewrite app_nil_r. Qed.

Lemma occurs_in_reverse (a d : list byte) :
  occurs_in a d → occurs_in (reverse a) (reverse d).
Proof.
  intros (p & q & ->). exists (reverse q), (reverse p).
  by rewrite !reverse_app, <- app_assoc.
Qed.

Lemma TrimLeft_occurs (s : gostring) : occurs_in (strings.TrimLeft s) s.
Proof.
  induction s as [s IH] using (induction_ltof1 _ length).
  unfold ltof in IH.
  destruct s as [|c0 s1]; [apply occurs_in_refl|]. simpl.
  destruct (strings.is_space c0).
  { eapply occurs_in_trans; [apply IH; simpl; lia|].
    apply (occurs_in_app_r [c0]). }
  destruct s1 as [|c1 s2]; [apply occurs_in_refl|].
  destruct (strings.is_space2 c0 c1).
  { eapply occurs_in_trans; [apply IH; simpl; lia|].
    apply (occurs_in_app_r [c0; c1]). }
  destruct s2 as [|c2 s3]; [apply occurs_in_refl|].
  destruct (strings.is_space3 c0 c1 c2); [|apply occurs_in_refl].
  eapply occurs_in_trans; [apply IH; simpl; lia|].
  apply (occurs_in_app_r [c0; c1; c2]).
Qed.

Lemma TrimLeftRev_occurs (r : gostring) :
  occurs_in (strings.TrimLeftRev r) r.
Proof.
  induction r as [r IH] using (induction_ltof1 _ length).
  unfold ltof in IH.
  destruct r as [|c0 r1]; [apply occurs_in_refl|]. simpl.
  destruct (strings.is_space c0).
  { eapply occurs_in_trans; [apply IH; simpl; lia|].
    apply (occurs_in_app_r [c0]). }
  destruct r1 as [|c1 r2]; [apply occurs_in_refl|].
  destruct (strings.is_space2 c1 c0).
  { eapply occurs_in_trans; [apply IH; simpl; lia|].
    apply (occurs_in_app_r [c0; c1]). }
  destruct r2 as [|c2 r3]; [apply occurs_in_refl|].
  destruct (strings.is_space3 c2 c1 c0); [|apply occurs_in_refl].
  eapply occurs_in_trans; [apply IH; simpl; lia|].
  apply (occurs_in_app_r [c0; c1; c2]).
Qed.

Lemma TrimSpace_occurs (s : gostring) : occurs_in (strings.TrimSpace s) s.
Proof.
  unfold strings.TrimSpace, strings.TrimRight.
  eapply occurs_in_trans; [|apply TrimLeft_occurs].
  rewrite <- (reverse_involutive (strings.TrimLeft s)) at 2.
  apply occurs_in_reverse, TrimLeftRev_occurs.
Qed.

Lemma stripPort_occurs (host : gostring) :
  occurs_in (proxy.stripPort host) host.
Proof.
  unfold proxy.stripPort. destruct (strings.IndexByte _ _).
  - apply occurs_in_take.
  - apply occurs_in_refl.
Qed.

Lemma headerLoop_occurs (fuel : nat) (s : list byte) (host : gostring)
    (lines : list gostring) :
  proxy.headerLoop fuel s = Ok (host, lines) → occurs_in host s.
Proof.
  revert s lines. induction fuel as [|fuel IH]; intros s lines; simpl.
  - intros [= <- <-]. by exists [], s.
  - destruct (proxy.ReadString s) as [[line rest] ok] eqn:Hr.
    apply ReadString_app in Hr as ->.
    destruct (_ || _).
    { intros [= <- <-]. by exists [], (line ++ rest). }
    destruct (strings.HasPrefix _ _).
    + unfold proxy.afterColon. destruct (strings.IndexByte _ _) as [i|];
        [|discriminate].
      simpl. intros [= <- <-].
      eapply occurs_in_trans; [apply TrimSpace_occurs|].
      eapply occurs_in_trans; [apply occurs_in_drop|].
      apply occurs_in_app_l.
    + destruct (proxy.headerLoop fuel rest) as [[h ls]| |] eqn:Hl;
        simpl; try discriminate.
      intros [= <- <-].
      eapply occurs_in_trans; [by eapply IH|]. apply occurs_in_app_r.
Qed.

Lemma httpHost_occurs (stream : list byte) (h : gostring) :
  proxy.httpHost stream = Some h → occurs_in h stream.
Proof.
  unfold proxy.httpHost.
  destruct (proxy.ReadString stream) as [[requestLine rest] ok] eqn:Hr.
  apply ReadString_app in Hr as ->.
  destruct ok; cbn [negb]; [|discriminate].
  destruct (proxy.headerLoop (S (length rest)) rest)
    as [[host ls]| |] eqn:Hl;
    try discriminate.
  destruct (streq host []); [discriminate|]. intros [= <-].
  eapply occurs_in_trans; [apply stripPort_occurs|].
  eapply occurs_in_trans; [by eapply headerLoop_occurs|].
  apply occurs_in_app_r.
Qed.

(* --------------------------------------------------------------------- *)
(* The first read of handleHTTPS                                         *)
(* --------------------------------------------------------------------- *)

Lemma readInto_wf (avail : list byte) :
  len (proxy.readInto avail) ≤ cap (proxy.readInto avail).
Proof.
  unfold proxy.readInto, cap. cbn [arr len].
  rewrite length_app, length_take. apply Nat.le_add_r.
Qed.

Lemma readInto_bytes (avail : list byte) :
  bytes_of (proxy.readInto avail) = take proxy.bufSize avail.
Proof.
  unfold proxy.readInto, bytes_of. cbn [arr len].
  generalize proxy.bufSize. intros n.
  rewrite take_app_le by (rewrite length_take; lia).
  rewrite take_take.
  destruct (decide (n ≤ length avail)).
  - f_equal. lia.
  - rewrite !take_ge by lia. done.
Qed.

Lemma tlsHost_within (avail : list byte) (h : gostring) :
  proxy.tlsHost avail = Ok h → hello_within (take proxy.bufSize avail) h.
Proof.
  intros H. rewrite <- readInto_bytes.
  apply ExtractSNI_within; [apply readInto_wf | exact H].
Qed.

Lemma hello_within_occurs (d : list byte) (h : gostring) :
  hello_within d h → occurs_in h d.
Proof.
  intros (v0 & v1 & r0 & r1 & hl & fixed & sidLen & sid & c0 & c1 & cs
          & cmLen & cm & e0 & e1 & exts & -> & _ & _ & _ & _ & _ & _ & He).
  assert (Hx : occurs_in h exts).
  { induction He as [n t0 t1 l0 l1 body rest h _ _ _ Hs
                    |n t0 t1 l0 l1 body rest h _ _ _ _ IH].
    - destruct Hs as (ll0 & ll1 & n0 & n1 & rest' & -> & _ & _).
      exists ([t0; t1; l0; l1] ++ [ll0; ll1; x00; n0; n1]), (rest' ++ rest).
      by rewrite <- !app_assoc.
    - eapply occurs_in_trans; [exact IH|].
      rewrite (app_assoc _ body). apply occurs_in_app_r. }
  eapply occurs_in_trans; [exact Hx|].
  rewrite !app_assoc. apply occurs_in_app_r.
Qed.

(* --------------------------------------------------------------------- *)
(* The handlers                                                          *)
(* --------------------------------------------------------------------- *)

Lemma handleHTTPS_trace rules w d avail :
  proxy.origDst w = Some d →
  proxy.handleHTTPS rules w (Some avail)
  = ClientSetReadDeadline :: ClientRead (take proxy.bufSize avail) ::
    match proxy.tlsHost avail with
    | Panic => [ClientClose; GoPanic]
    | Err _ => proxy.sendTLSAlert ++ [ClientClose]
    | Ok h =>
      if isBlocked h rules then proxy.sendTLSAlert ++ [ClientClose]
      else proxy.forwardConnection w d (take proxy.bufSize avail)
           ++ [ClientClose]
    end.
Proof.
  intros Hd. unfold proxy.handleHTTPS, proxy.tlsHost.
  by rewrite Hd, readInto_bytes.
Qed.

Lemma forwardConnection_dials w d init :
  dials (proxy.forwardConnection w d init ++ [ClientClose]) = [d].
Proof.
  unfold proxy.forwardConnection.
  by destruct (proxy.dialOk w), (0 <? length init), (proxy.writeOk w).
Qed.

(** Extraction failure, a panic or a blocked verdict: no dial. *)
Lemma handleHTTPS_no_dial rules w read :
  (∀ avail h, read = Some avail → proxy.tlsHost avail = Ok h →
              isBlocked h rules = true) →
  dials (proxy.handleHTTPS rules w read) = [].
Proof.
  intros Hblocked.
  destruct (proxy.origDst w) as [d|] eqn:Hd;
    [|by unfold proxy.handleHTTPS; rewrite Hd].
  destruct read as [avail|]; [|by unfold proxy.handleHTTPS; rewrite Hd].
  rewrite (handleHTTPS_trace _ _ _ _ Hd).
  destruct (proxy.tlsHost avail) as [h| |] eqn:Hh; [|done..].
  by rewrite (Hblocked avail h eq_refl Hh).
Qed.

(** C1, at [split_hello]: a ClientHello for youtube.com, which is
    blocked, that its sender has split over two handshake records.  For
    TLS this is a well-formed ClientHello that names youtube.com; sent in
    one record ([whole_hello]) it is refused.  Split, the header of the
    second record is walked over as extension data: ExtractSNI returns
    sixteen bytes ending in youtube.com that match no rule, and
    handleHTTPS dials the original destination and replays the
    ClientHello to it, where the claim has it not dial.  Nor is the input
    [zero_length_hello], which holds no record at all, kept from being
    dialled. *)
Theorem handleHTTPS_dials_host_split_over_records :
  tls.serverName split_hello = Some (lit "youtube.com")
  ∧ isBlocked (lit "youtube.com") [lit "youtube.com"] = true
  ∧ proxy.tlsHost split_hello
    = Ok ([x00; x0e; x00; x00; x0b] ++ lit "youtube.com")
  ∧ dials (proxy.handleHTTPS [lit "youtube.com"] friendly
             (Some split_hello))
    = [lit "93.184.216.34:443"]
  ∧ upstreamBytes (proxy.handleHTTPS [lit "youtube.com"] friendly
                     (Some split_hello))
    = split_hello
  ∧ tls.serverName whole_hello = Some (lit "youtube.com")
  ∧ dials (proxy.handleHTTPS [lit "youtube.com"] friendly
             (Some whole_hello))
    = []
  ∧ tls.serverName zero_length_hello = None
  ∧ dials (proxy.handleHTTPS [lit "youtube.com"] friendly
             (Some zero_length_hello))
    = [lit "93.184.216.34:443"].
Proof. repeat split; vm_compute; reflexivity. Qed.

(** When it does dial, the handler dials the recovered original
    destination, and the bytes read had the layout ExtractSNI takes a host
    name from, the name being one that is not blocked. *)
Lemma handleHTTPS_dial_inv rules w read a :
  a ∈ dials (proxy.handleHTTPS rules w read) →
  proxy.origDst w = Some a
  ∧ ∃ avail h, read = Some avail
      ∧ proxy.tlsHost avail = Ok h
      ∧ hello_within (take proxy.bufSize avail) h
      ∧ isBlocked h rules = false.
Proof.
  destruct (proxy.origDst w) as [d|] eqn:Hd;
    [|by unfold proxy.handleHTTPS; rewrite Hd; intros ?%elem_of_nil].
  destruct read as [avail|];
    [|by unfold proxy.handleHTTPS; rewrite Hd; intros ?%elem_of_nil].
  rewrite (handleHTTPS_trace _ _ _ _ Hd).
  destruct (proxy.tlsHost avail) as [h| |] eqn:Hh;
    [|by intros ?%elem_of_nil..].
  destruct (isBlocked h rules) eqn:Hb; [by intros ?%elem_of_nil|].
  change (dials (?x :: ?y :: ?t)) with (dials t).
  rewrite forwardConnection_dials. intros ->%list_elem_of_singleton.
  split; [done|]. exists avail, h. eauto using tlsHost_within.
Qed.

(** C3, at the 49-byte input [truncated_hello], a slice whose capacity is
    its length: every length check of ExtractSNI passes, the extensions
    loop is entered because the announced extensions end lies four bytes
    ahead, and data[49:51] is out of range.  ExtractSNI panics, where the
    claim has it return one of its four errors.  The same cut at the end of
    a full 16384-byte first read brings down handleHTTPS. *)
Theorem ExtractSNI_panics_on_truncated_extensions :
  length truncated_hello = 49
  ∧ sni.ExtractSNI (of_bytes truncated_hello) = Panic
  ∧ length full_buffer_hello = proxy.bufSize
  ∧ last (proxy.handleHTTPS [] friendly (Some full_buffer_hello))
    = Some GoPanic.
Proof. repeat split; vm_compute; reflexivity. Qed.

(** With room behind the slice's length, as in the buffer of handleHTTPS,
    the same read goes through: the parser takes its extension header from
    beyond the bytes received, and only then gives up. *)
Lemma ExtractSNI_reads_past_the_input :
  sni.ExtractSNI (proxy.readInto truncated_hello) = Err sni.ErrInvalidData
  ∧ (reslice (proxy.readInto truncated_hello) 49 51
     : result sni.error slice)
    = Ok (mkSlice (replicate (proxy.bufSize - 49) x00) 2).
Proof. split; vm_compute; reflexivity. Qed.

(** On the TLS path the bytes replayed upstream are the bytes read. *)
Lemma handleHTTPS_replays_first_read rules w read :
  proxy.dialOk w = true →
  dials (proxy.handleHTTPS rules w read) ≠ [] →
  upstreamBytes (proxy.handleHTTPS rules w read)
  = clientBytes (proxy.handleHTTPS rules w read).
Proof.
  intros Hdial.
  destruct (proxy.origDst w) as [d|] eqn:Hd;
    [|by unfold proxy.handleHTTPS; rewrite Hd].
  destruct read as [avail|]; [|by unfold proxy.handleHTTPS; rewrite Hd].
  rewrite (handleHTTPS_trace _ _ _ _ Hd).
  destruct (proxy.tlsHost avail) as [h| |]; [|done..].
  destruct (isBlocked h rules); [done|]. intros _.
  unfold proxy.forwardConnection. rewrite Hdial.
  destruct (0 <? length (take proxy.bufSize avail)) eqn:Hn.
  - destruct (proxy.writeOk w); unfold upstreamBytes, clientBytes; simpl;
      by rewrite app_nil_r.
  - apply Nat.ltb_ge in Hn.
    assert (take proxy.bufSize avail = []) as ->
      by (apply length_zero_iff_nil; lia).
    done.
Qed.

(** C4, at the request GET / HTTP/1.1, Host: example.org with nothing
    blocked: the flow is allowed and forwarded, the handler has taken the
    request line and the Host line from the client, and it writes the
    request line alone upstream.  The Host line is dropped, where the claim
    has the whole consumed prefix replayed. *)
Theorem handleHTTP_replays_request_line_only :
  dials (proxy.handleHTTP [] friendly_http get_example_org)
  = [lit "93.184.216.34:80"]
  ∧ clientBytes (proxy.handleHTTP [] friendly_http get_example_org)
    = lit "GET / HTTP/1.1" ++ crlf ++ lit "Host: example.org" ++ crlf
  ∧ upstreamBytes (proxy.handleHTTP [] friendly_http get_example_org)
    = lit "GET / HTTP/1.1" ++ crlf
  ∧ upstreamBytes (proxy.handleHTTP [] friendly_http get_example_org)
    ≠ clientBytes (proxy.handleHTTP [] friendly_http get_example_org).
Proof. repeat split; vm_compute; congruence. Qed.

(** handleHTTPS can only be brought down by a first read that fills its
    buffer to within three bytes of the end. *)
Lemma handleHTTPS_panic_needs_full_buffer rules w avail :
  last (proxy.handleHTTPS rules w (Some avail)) = Some GoPanic →
  proxy.bufSize < length avail + 4.
Proof.
  destruct (proxy.origDst w) as [d|] eqn:Hd;
    [|by unfold proxy.handleHTTPS; rewrite Hd].
  rewrite (handleHTTPS_trace _ _ _ _ Hd).
  destruct (proxy.tlsHost avail) as [h| |] eqn:Hx.
  - destruct (isBlocked h rules); [done|].
    rewrite !app_comm_cons, last_snoc. done.
  - done.
  - intros _. apply ExtractSNI_panic_needs_tight_capacity in Hx;
      [|apply readInto_wf].
    unfold proxy.readInto, cap in Hx. cbn [arr len] in Hx.
    rewrite length_app, length_take, length_replicate in Hx. lia.
Qed.

(* --------------------------------------------------------------------- *)
(* The HTTP handler                                                      *)
(* --------------------------------------------------------------------- *)

(** A host can only come from a Host line, which is not empty. *)
Lemma headerLoop_lines (fuel : nat) (s : list byte) (host : gostring)
    (lines : list gostring) :
  proxy.headerLoop fuel s = Ok (host, lines) → host ≠ [] →
  0 < length (concat lines).
Proof.
  revert s lines. induction fuel as [|fuel IH]; intros s lines; simpl.
  - by intros [= <- <-].
  - destruct (proxy.ReadString s) as [[line rest] ok] eqn:Hr.
    destruct (_ || _); [by intros [= <- <-]|].
    destruct (strings.HasPrefix _ _) eqn:Hp.
    + unfold proxy.afterColon.
      destruct (strings.IndexByte line colon) as [i|] eqn:Hi;
        [|discriminate].
      simpl. intros [= <- <-] _. apply IndexByte_lt in Hi.
      cbn [concat]. rewrite length_app. lia.
    + destruct (proxy.headerLoop fuel rest) as [[h ls]| |] eqn:Hl;
        simpl; try discriminate.
      intros [= <- <-] Hh. specialize (IH _ _ Hl Hh).
      cbn [concat]. rewrite length_app. lia.
Qed.

(** The three ways handleHTTP ends once the original destination is
    known: no host, a blocked host, an allowed host. *)
Lemma handleHTTP_cases rules w d stream :
  proxy.origDst w = Some d →
  ∃ reads,
    match proxy.httpHost stream with
    | None =>
        proxy.handleHTTP rules w stream
        = ClientSetReadDeadline :: (ClientRead <$> reads) ++ [ClientClose]
    | Some h =>
        if isBlocked h rules then
          proxy.handleHTTP rules w stream
          = ClientSetReadDeadline :: (ClientRead <$> reads)
            ++ [ClientWrite proxy.response403; ClientClose]
        else
          ∃ requestLine lines,
            reads = requestLine :: lines
            ∧ 0 < length (concat lines)
            ∧ proxy.handleHTTP rules w stream
              = ClientSetReadDeadline :: (ClientRead <$> reads)
                ++ proxy.forwardConnection w d requestLine
                ++ [ClientClose]
    end.
Proof.
  intros Hd. unfold proxy.handleHTTP, proxy.httpHost. rewrite Hd.
  destruct (proxy.ReadString stream) as [[requestLine rest] ok].
  destruct ok; cbn [negb]; [|by exists [requestLine]].
  destruct (headerLoop_total (S (length rest)) rest) as (host & lines & Hl).
  rewrite Hl. exists (requestLine :: lines).
  destruct (streq host []) eqn:Hh; [done|].
  destruct (isBlocked (proxy.stripPort host) rules); [done|].
  exists requestLine, lines. split; [done|]. split; [|done].
  apply (headerLoop_lines _ _ _ _ Hl). intros ->. by vm_compute in Hh.
Qed.

Lemma handleHTTP_no_dst rules w stream :
  proxy.origDst w = None →
  proxy.handleHTTP rules w stream = [ClientSetReadDeadline; ClientClose].
Proof. intros Hd. unfold proxy.handleHTTP. by rewrite Hd. Qed.

Lemma clientWrites_reads reads tail :
  clientWrites (ClientSetReadDeadline :: (ClientRead <$> reads) ++ tail)
  = clientWrites tail.
Proof.
  unfold clientWrites. cbn [omap list_omap]. rewrite omap_app.
  replace (omap _ (ClientRead <$> reads)) with (@nil (list byte)); [done|].
  induction reads; [done|]. by simpl.
Qed.

Lemma dials_reads reads tail :
  dials (ClientSetReadDeadline :: (ClientRead <$> reads) ++ tail)
  = dials tail.
Proof.
  unfold dials. cbn [omap list_omap]. rewrite omap_app.
  replace (omap _ (ClientRead <$> reads)) with (@nil gostring); [done|].
  induction reads; [done|]. by simpl.
Qed.

Lemma clientBytes_reads reads tail :
  clientBytes (ClientSetReadDeadline :: (ClientRead <$> reads) ++ tail)
  = concat reads ++ clientBytes tail.
Proof.
  unfold clientBytes. cbn [omap list_omap]. rewrite omap_app, concat_app.
  f_equal. f_equal. induction reads; [done|]. simpl. by f_equal.
Qed.

Lemma upstreamBytes_reads reads tail :
  upstreamBytes (ClientSetReadDeadline :: (ClientRead <$> reads) ++ tail)
  = upstreamBytes tail.
Proof.
  unfold upstreamBytes. cbn [omap list_omap]. rewrite omap_app.
  replace (omap _ (ClientRead <$> reads)) with (@nil (list byte)); [done|].
  induction reads; [done|]. by simpl.
Qed.

(** Whatever the request, an HTTP flow that is forwarded has lost its
    header lines: upstream receives the request line and nothing else of
    what the handler has taken from the client. *)
Lemma handleHTTP_forward_drops_headers rules w stream :
  proxy.dialOk w = true →
  dials (proxy.handleHTTP rules w stream) ≠ [] →
  ∃ requestLine lines,
    clientBytes (proxy.handleHTTP rules w stream)
    = requestLine ++ concat lines
    ∧ upstreamBytes (proxy.handleHTTP rules w stream) = requestLine
    ∧ 0 < length (concat lines).
Proof.
  intros Hdial Hdials.
  destruct (proxy.origDst w) as [d|] eqn:Hd;
    [|by rewrite handleHTTP_no_dst in Hdials].
  destruct (handleHTTP_cases rules w d stream Hd) as [reads H].
  destruct (proxy.httpHost stream) as [h|].
  - destruct (isBlocked h rules).
    + rewrite H, dials_reads in Hdials. done.
    + destruct H as (requestLine & lines & -> & Hlen & H).
      exists requestLine, lines. rewrite H.
      rewrite clientBytes_reads, upstreamBytes_reads.
      unfold proxy.forwardConnection. rewrite Hdial.
      destruct (0 <? length requestLine) eqn:Hn.
      * destruct (proxy.writeOk w); unfold upstreamBytes, clientBytes;
          simpl; by rewrite !app_nil_r.
      * apply Nat.ltb_ge in Hn.
        assert (requestLine = []) as -> by (apply length_zero_iff_nil; lia).
        unfold upstreamBytes, clientBytes; simpl. by rewrite !app_nil_r.
  - rewrite H, dials_reads in Hdials. done.
Qed.

(** C5, as the claim has it, fails: a request without a Host header gets no
    403 response, the handler closes the connection having written nothing;
    and the level byte of the record sendTLSAlert writes is 1 (warning, the
    alert being close_notify), not 2 (fatal). *)
Lemma no_closer_without_host :
  proxy.httpHost get_without_host = None
  ∧ proxy.handleHTTP [lit "example.org"] friendly_http get_without_host
    = [ClientSetReadDeadline; ClientRead (lit "GET / HTTP/1.1" ++ crlf);
       ClientRead crlf; ClientClose]
  ∧ ¬ (∃ resp,
         resp ∈ clientWrites
                  (proxy.handleHTTP [lit "example.org"] friendly_http
                     get_without_host)
         ∧ lit "HTTP/1.1 403 Forbidden" `prefix_of` resp)
  ∧ proxy.alert !! 5 = Some x01.
Proof.
  repeat split; try (vm_compute; reflexivity).
  intros (resp & Hin & _). vm_compute in Hin. by apply elem_of_nil in Hin.
Qed.

(** C5, amended. Once the original destination is known: on the TLS path,
    when ExtractSNI returns an error or the host it returns is blocked, the
    handler writes the 7-byte alert record 15 03 03 00 02 01 00 (a
    warning-level close_notify) and closes; on the HTTP path, when the host
    taken from the Host header is blocked, it writes a response that begins
    "HTTP/1.1 403 Forbidden" and closes; when no host is found in the
    request it closes without writing anything. *)
Theorem blocked_flows_get_a_closer (rules : list gostring) (w : proxy.world)
    (d : gostring) :
  proxy.origDst w = Some d →
  (∀ avail,
     (∃ e, proxy.tlsHost avail = Err e)
     ∨ (∃ h, proxy.tlsHost avail = Ok h ∧ isBlocked h rules = true) →
     proxy.handleHTTPS rules w (Some avail)
     = [ClientSetReadDeadline; ClientRead (take proxy.bufSize avail);
        ClientSetWriteDeadline;
        ClientWrite [x15; x03; x03; x00; x02; x01; x00];
        ClientClose])
  ∧ (∀ stream h,
       proxy.httpHost stream = Some h → isBlocked h rules = true →
       ∃ reads,
         proxy.handleHTTP rules w stream
         = ClientSetReadDeadline :: (ClientRead <$> reads)
           ++ [ClientWrite proxy.response403; ClientClose])
  ∧ lit "HTTP/1.1 403 Forbidden" `prefix_of` proxy.response403
  ∧ (∀ stream,
       proxy.httpHost stream = None →
       ∃ reads,
         proxy.handleHTTP rules w stream
         = ClientSetReadDeadline :: (ClientRead <$> reads)
           ++ [ClientClose]).
Proof.
  intros Hd. repeat split.
  - intros avail H. rewrite (handleHTTPS_trace _ _ _ _ Hd).
    destruct H as [[e ->]|(h & -> & ->)]; reflexivity.
  - intros stream h Hh Hb.
    destruct (handleHTTP_cases rules w d stream Hd) as [reads H].
    rewrite Hh, Hb in H. eauto.
  - by eexists.
  - intros stream Hh.
    destruct (handleHTTP_cases rules w d stream Hd) as [reads H].
    rewrite Hh in H. eauto.
Qed.

Lemma blocked_flows_get_a_closer_witness :
  proxy.handleHTTPS [lit "example.org"] friendly
    (Some [x16; x03; x01; x00; xff])
  = [ClientSetReadDeadline; ClientRead [x16; x03; x01; x00; xff];
     ClientSetWriteDeadline; ClientWrite proxy.alert; ClientClose]
  ∧ (∃ reads,
       proxy.handleHTTP [lit "example.org"] friendly_http get_example_org
       = ClientSetReadDeadline :: (ClientRead <$> reads)
         ++ [ClientWrite proxy.response403; ClientClose])
  ∧ (∃ reads,
       proxy.handleHTTP [lit "example.org"] friendly_http get_without_host
       = ClientSetReadDeadline :: (ClientRead <$> reads) ++ [ClientClose]).
Proof.
  destruct (blocked_flows_get_a_closer [lit "example.org"] friendly
              (lit "93.184.216.34:443") eq_refl)
    as (Htls & _).
  destruct (blocked_flows_get_a_closer [lit "example.org"] friendly_http
              (lit "93.184.216.34:80") eq_refl)
    as (_ & Hblocked & _ & Hnohost).
  split; [|split].
  - apply (Htls [x16; x03; x01; x00; xff]). left.
    exists sni.ErrInvalidData. vm_compute. reflexivity.
  - apply (Hblocked get_example_org (lit "example.org")).
    + vm_compute. reflexivity.
    + vm_compute. reflexivity.
  - apply Hnohost. vm_compute. reflexivity.
Defined.

(** C7, as the claim has it, fails: for the SNI value and for the Host value
    [Example.COM.] both extractors return [Example.COM.], capitals and
    trailing dot included. *)
Lemma extractors_keep_case_and_dot :
  proxy.tlsHost (sni_test.buildSimpleClientHello (lit "Example.COM."))
  = Ok (lit "Example.COM.")
  ∧ proxy.httpHost get_upper_dotted = Some (lit "Example.COM.")
  ∧ strings.ToLower (lit "Example.COM.") ≠ lit "Example.COM."
  ∧ strings.HasSuffix (lit "Example.COM.") dot = true.
Proof. repeat split; vm_compute; congruence. Qed.

Lemma isBlocked_normalize (h h' : gostring) (rules : list gostring) :
  normalize h = normalize h' → isBlocked h rules = isBlocked h' rules.
Proof. unfold isBlocked. by intros ->. Qed.

(* --------------------------------------------------------------------- *)
(* The state store                                                       *)
(* --------------------------------------------------------------------- *)





(** C10. When the state file exists and can be read, but its content,
    trimmed of white space, is not the token "enabled", IsEnabled returns
    (false, nil): unknown text reads as disabled, and no error is raised. *)
Theorem IsEnabled_unknown_token (s : state.State) (fs : os.FS)
    (data : list byte) :
  os.files fs !! state.path s = Some data →
  state.path s ∉ os.faulty fs →
  strings.TrimSpace data ≠ state.stateEnabled →
  state.IsEnabled s fs = (false, None).
Proof.
  intros Hfile Hok Htok. unfold state.IsEnabled, os.ReadFile.
  rewrite Hfile, decide_False by done. f_equal.
  unfold streq. by apply bool_decide_eq_false.
Qed.

Lemma IsEnabled_unknown_token_witness :
  state.IsEnabled (state.mkState state.DefaultStatePath)
    (os.mkFS {[ state.DefaultStatePath := lit "ENABLED?" ]} ∅)
  = (false, None).
Proof.
  apply (IsEnabled_unknown_token _ _ (lit "ENABLED?")).
  - reflexivity.
  - vm_compute. set_solver.
  - vm_compute. discriminate.
Defined.

(* --------------------------------------------------------------------- *)
(* The blocklist loader                                                  *)
(* --------------------------------------------------------------------- *)

Lemma isBlocked_nil (h : gostring) : isBlocked h [] = false.
Proof. reflexivity. Qed.

Lemma LoadBlocklist_nonempty yaml c fs ds :
  config.LoadBlocklist yaml c fs = inr ds → 0 < length ds.
Proof.
  unfold config.LoadBlocklist.
  destruct (0 <? length (config.BlockedDomains c)) eqn:E.
  - intros [= <-]. by apply Nat.ltb_lt.
  - destruct (streq _ _); [discriminate|].
    destruct (os.ReadFile _ _); [discriminate|].
    destruct (yaml _) as [domains|]; [|discriminate].
    destruct (length domains =? 0) eqn:E0; [discriminate|].
    intros [= <-]. apply Nat.eqb_neq in E0. lia.
Qed.

(** C6, as the claim has it, fails: with no inline domains and a blocklist
    file whose [domains] list is empty, LoadBlocklist does not return the
    empty rule set, it fails with "blocklist file contains no domains". *)
Lemma LoadBlocklist_rejects_empty_file :
  config.LoadBlocklist yaml_empty_list file_config empty_blocklist_fs
  = inl config.ErrNoDomains
  ∧ config.LoadBlocklist yaml_empty_list file_config empty_blocklist_fs
    ≠ inr [].
Proof. split; [reflexivity | discriminate]. Qed.

(** C6, amended. LoadBlocklist never succeeds with the empty rule set: a
    blocklist of zero rules is turned down when it is loaded (an error, or a
    list of at least one domain, comes back); and under the empty rule set
    the matcher blocks no hostname. *)
Theorem empty_blocklist_is_rejected
    (yaml : list byte → option (list gostring)) (c : config.Config)
    (fs : os.FS) (h : gostring) :
  config.LoadBlocklist yaml c fs ≠ inr [] ∧ isBlocked h [] = false.
Proof.
  split; [|apply isBlocked_nil].
  intros H. apply LoadBlocklist_nonempty in H. simpl in H. lia.
Qed.

(* --------------------------------------------------------------------- *)
(* The resolver                                                          *)
(* --------------------------------------------------------------------- *)

(* The resolver, round by round *)

Section resolver_facts.

Variable LookupIP : gostring → option (list resolver.IP).
Variable IPString : resolver.IP → gostring.

Abbreviation ipSet := (resolver.ipSet).
Abbreviation queried := (resolver.queried).
Abbreviation sound := (resolver_sound LookupIP IPString).
Abbreviation complete := (resolver_complete LookupIP IPString).
Abbreviation ask := (resolver_ask LookupIP IPString).

Lemma insert_all_lookup (ips : list resolver.IP)
    (m : gmap gostring resolver.IP) k ip :
  foldl (λ m ip, <[IPString ip := ip]> m) m ips !! k = Some ip →
  m !! k = Some ip ∨ (ip ∈ ips ∧ IPString ip = k).
Proof.
  revert m. induction ips as [|a ips IH]; intros m; simpl; [by left|].
  intros [H|[Hin Hk]]%IH.
  - apply lookup_insert_Some in H as [[<- <-]|[_ H]]; [|by left].
    right. split; [left | done].
  - right. split; [by right | done].
Qed.

Lemma insert_all_keeps (ips : list resolver.IP)
    (m : gmap gostring resolver.IP) k :
  is_Some (m !! k) →
  is_Some (foldl (λ m ip, <[IPString ip := ip]> m) m ips !! k).
Proof.
  revert m. induction ips as [|a ips IH]; intros m; simpl; [done|].
  intros H. apply IH, lookup_insert_is_Some'. by right.
Qed.

Lemma insert_all_has (ips : list resolver.IP)
    (m : gmap gostring resolver.IP) ip :
  ip ∈ ips →
  is_Some (foldl (λ m ip, <[IPString ip := ip]> m) m ips !! IPString ip).
Proof.
  revert m. induction ips as [|a ips IH]; intros m; simpl;
    [by intros ?%elem_of_nil|].
  intros [->|Hin]%elem_of_cons; [|by apply IH].
  apply insert_all_keeps. rewrite lookup_insert_eq. eauto.
Qed.

Lemma ask_queried q p : queried (ask q p) = queried p ++ [q].
Proof. unfold resolver_ask. by destruct (LookupIP q). Qed.

Lemma ask_sound q p : sound p → sound (ask q p).
Proof.
  intros Hs k ip. unfold resolver_ask.
  destruct (LookupIP q) as [ips|] eqn:Hq; cbn [ipSet queried resolver.addAll].
  - intros [H|[Hin Hk]]%insert_all_lookup.
    + destruct (Hs k ip H) as (Hk & q' & ips' & Hq' & Hl & Hin).
      split; [done|]. exists q', ips'. rewrite elem_of_app. eauto.
    + split; [done|]. exists q, ips. rewrite elem_of_app.
      split; [right; by left | done].
  - intros H. destruct (Hs k ip H) as (Hk & q' & ips' & Hq' & Hl & Hin).
    split; [done|]. exists q', ips'. rewrite elem_of_app. eauto.
Qed.

Lemma ask_complete q p : complete p → complete (ask q p).
Proof.
  intros Hc q' ips' ip. rewrite ask_queried, elem_of_app.
  unfold resolver_ask. destruct (LookupIP q) as [ips|] eqn:Hq;
    cbn [ipSet queried resolver.addAll].
  - intros [Hq'|Heq%list_elem_of_singleton] Hl Hin; [|subst q'].
    + apply insert_all_keeps. by eapply Hc.
    + rewrite Hq in Hl. injection Hl as <-. by apply insert_all_has.
  - intros [Hq'|Heq%list_elem_of_singleton] Hl Hin; [by eapply Hc|].
    congruence.
Qed.

Lemma resolveOne_ask d p :
  resolver.resolveOne LookupIP IPString d p
  = match LookupIP d with
    | None => ask d p
    | Some _ =>
        if strings.HasPrefix d www then ask d p
        else ask (www ++ d) (ask d p)
    end.
Proof.
  unfold resolver.resolveOne, resolver.resolveDomain, resolver_ask.
  destruct (LookupIP d) as [ips|]; [|done].
  destruct (strings.HasPrefix d www); [done|]. cbn [negb].
  cbn [queried ipSet resolver.addAll].
  by destruct (LookupIP (www ++ d)).
Qed.

Lemma resolve_rounds domains p :
  sound p → complete p →
  let p' := foldl (λ p d, resolver.resolveOne LookupIP IPString d p)
              p domains in
  queried p' = queried p ++ lookups_made LookupIP domains
  ∧ sound p' ∧ complete p'.
Proof.
  revert p. induction domains as [|d domains IH]; intros p Hs Hc; simpl.
  - by rewrite app_nil_r.
  - rewrite resolveOne_ask.
    destruct (LookupIP d) as [ips|] eqn:Hd;
      [destruct (strings.HasPrefix d www)|].
    + destruct (IH (ask d p)) as (Hq & Hs' & Hc');
        [by apply ask_sound | by apply ask_complete |].
      rewrite Hq, ask_queried, <- app_assoc. done.
    + destruct (IH (ask (www ++ d) (ask d p))) as (Hq & Hs' & Hc');
        [by do 2 apply ask_sound | by do 2 apply ask_complete |].
      rewrite Hq, !ask_queried, <- !app_assoc. done.
    + destruct (IH (ask d p)) as (Hq & Hs' & Hc');
        [by apply ask_sound | by apply ask_complete |].
      rewrite Hq, ask_queried, <- app_assoc. done.
Qed.

Lemma lookups_made_all domains d :
  d ∈ domains → d ∈ lookups_made LookupIP domains.
Proof.
  induction domains as [|a domains IH]; [by intros ?%elem_of_nil|].
  intros [->|Hin]%elem_of_cons; simpl; rewrite elem_of_app.
  - left. destruct (LookupIP a); [destruct (strings.HasPrefix a www)|];
      by left.
  - right. by apply IH.
Qed.

Lemma Resolve_union_aux domains :
  let made := lookups_made LookupIP domains in
  let result := resolver.Resolve LookupIP IPString domains in
  queried (resolver.resolveAll LookupIP IPString domains) = made
  ∧ (∀ d, d ∈ domains → d ∈ made)
  ∧ NoDup (IPString <$> result)
  ∧ (∀ ip, ip ∈ result →
       ∃ q ips, q ∈ made ∧ LookupIP q = Some ips ∧ ip ∈ ips)
  ∧ (∀ q ips ip, q ∈ made → LookupIP q = Some ips → ip ∈ ips →
       ∃ ip', ip' ∈ result ∧ IPString ip' = IPString ip).
Proof.
  intros made result.
  destruct (resolve_rounds domains (resolver.mkProgress ∅ []))
    as (Hq & Hs & Hc).
  { intros k ip. cbn [ipSet]. by rewrite lookup_empty. }
  { intros q ips ip. cbn [queried]. by intros ?%elem_of_nil. }
  fold (resolver.resolveAll LookupIP IPString domains) in Hq, Hs, Hc.
  cbn [queried app] in Hq. fold made in Hq.
  set (p := resolver.resolveAll LookupIP IPString domains) in *.
  assert (Hres : ∀ ip, ip ∈ result ↔ ∃ k, ipSet p !! k = Some ip).
  { intros ip. unfold result, resolver.Resolve. fold p.
    rewrite list_elem_of_fmap. split.
    - intros ([k ip'] & -> & Hin%elem_of_map_to_list). eauto.
    - intros [k Hk]. exists (k, ip). by rewrite elem_of_map_to_list. }
  split; [done|]. split; [apply lookups_made_all|]. split; [|split].
  - unfold result, resolver.Resolve. fold p.
    rewrite <- list_fmap_compose.
    rewrite (list_fmap_ext _ fst (map_to_list (ipSet p))).
    + apply NoDup_fst_map_to_list.
    + intros i [k ip] Hin%list_elem_of_lookup_2%elem_of_map_to_list.
      simpl. by apply Hs.
  - intros ip [k Hk]%Hres. destruct (Hs k ip Hk) as (_ & q & ips & H).
    rewrite Hq in H. eauto.
  - intros q ips ip Hin Hl Hip. rewrite <- Hq in Hin.
    destruct (Hc q ips ip Hin Hl Hip) as [ip' Hip'].
    exists ip'. split; [apply Hres; eauto|]. by apply Hs.
Qed.

End resolver_facts.

(** When the lookup of a rule fails, the round ends at once: nothing is
    added and the www. variant is not asked for. *)
Lemma resolveOne_failed_base LookupIP IPString domain p :
  LookupIP domain = None →
  resolver.resolveOne LookupIP IPString domain p
  = resolver.mkProgress (resolver.ipSet p) (resolver.queried p ++ [domain]).
Proof.
  intros H. unfold resolver.resolveOne, resolver.resolveDomain.
  by rewrite H.
Qed.

(** C9, as the claim has it, fails: for the rule list [a.com] and a system
    resolver for which a.com fails and www.a.com resolves, Resolve asks for
    a.com only; www.a.com is never queried and its address is not in the
    result. *)
Lemma Resolve_skips_www_after_failure :
  resolver.queried (resolver.resolveAll only_www id [lit "a.com"])
  = [lit "a.com"]
  ∧ ((www ++ lit "a.com")
     ∉ resolver.queried (resolver.resolveAll only_www id [lit "a.com"]))
  ∧ only_www (www ++ lit "a.com") = Some [[x5d; xb8; xd8; x22]]
  ∧ resolver.Resolve only_www id [lit "a.com"] = [].
Proof.
  repeat split; try (vm_compute; reflexivity).
  intros Hin. vm_compute in Hin.
  apply list_elem_of_singleton in Hin. discriminate.
Qed.

(** C9, amended. For every rule list Resolve queries every rule and, for
    each rule that resolved and does not begin with "www.", its www.
    variant; a rule whose own lookup fails is passed over without its www.
    variant being queried.  No failure aborts the batch: every rule of the
    list is queried, and the result is the union of all successful lookups
    among those made, holding each textual form once. *)
Theorem Resolve_is_union_of_lookups_made
    (LookupIP : gostring → option (list resolver.IP))
    (IPString : resolver.IP → gostring) (domains : list gostring) :
  let made := lookups_made LookupIP domains in
  let result := resolver.Resolve LookupIP IPString domains in
  resolver.queried (resolver.resolveAll LookupIP IPString domains) = made
  ∧ (∀ d, d ∈ domains → d ∈ made)
  ∧ NoDup (IPString <$> result)
  ∧ (∀ ip, ip ∈ result →
       ∃ q ips, q ∈ made ∧ LookupIP q = Some ips ∧ ip ∈ ips)
  ∧ (∀ q ips ip, q ∈ made → LookupIP q = Some ips → ip ∈ ips →
       ∃ ip', ip' ∈ result ∧ IPString ip' = IPString ip).
Proof. apply Resolve_union_aux. Qed.

Lemma Resolve_is_union_of_lookups_made_witness :
  ∃ ip', ip' ∈ resolver.Resolve only_www id [lit "www.a.com"; lit "a.com"]
         ∧ ip' = [x5d; xb8; xd8; x22].
Proof.
  destruct (Resolve_is_union_of_lookups_made only_www id
              [lit "www.a.com"; lit "a.com"])
    as (_ & _ & _ & _ & Hcomplete).
  apply (Hcomplete (lit "www.a.com") [[x5d; xb8; xd8; x22]]).
  - vm_compute. left.
  - vm_compute. reflexivity.
  - left.
Defined.

(* --------------------------------------------------------------------- *)
(* The parser accepts every input of that layout                         *)
(* --------------------------------------------------------------------- *)

Lemma bind_Ok_l {E A B} (a : A) (f : A → result E B) : (Ok a ≫= f) = f a.
Proof. reflexivity. Qed.

Lemma index_at {E} (s : slice) (i : nat) (b : byte) :
  bytes_of s !! i = Some b → index (E:=E) s i = Ok b.
Proof.
  unfold bytes_of, index. intros [H Hi]%lookup_take_Some.
  by rewrite (proj2 (Nat.ltb_lt _ _) Hi), H.
Qed.

(** A two-byte big-endian field read through a window cut at [lo]. *)
Lemma read16_at {E A} (s : slice) (lo hi : nat) (b0 b1 : byte)
    (f : nat → result E A) :
  len s ≤ cap s →
  bytes_of s !! lo = Some b0 → bytes_of s !! (lo + 1) = Some b1 →
  hi = lo + 2 →
  (reslice s lo hi ≫= λ b, Uint16 b ≫= f) = f (be16 b0 b1).
Proof.
  unfold bytes_of. intros Hwf [H0 Hl0]%lookup_take_Some
    [H1 Hl1]%lookup_take_Some ->.
  rewrite reslice_total by lia. rewrite bind_Ok_l.
  unfold Uint16, index. cbn [arr len].
  replace (lo + 2 - lo) with 2 by lia. cbn [Nat.ltb Nat.leb].
  rewrite !lookup_drop, Nat.add_0_r, H0, H1. reflexivity.
Qed.

(** Walking a cursor through a list that is known piece by piece. *)
Lemma cursor_head (d : list byte) (p q : nat) (x : byte) (t : list byte) :
  drop p d = x :: t → q = p → d !! q = Some x.
Proof.
  intros H ->. rewrite <- (Nat.add_0_r p), <- lookup_drop, H. reflexivity.
Qed.

Lemma cursor_next (d : list byte) (p q : nat) (x : byte) (t : list byte) :
  drop p d = x :: t → q = p + 1 → drop q d = t.
Proof.
  intros H ->. rewrite <- drop_drop, H. reflexivity.
Qed.

Lemma cursor_skip (d : list byte) (p q : nat) (a t : list byte) :
  drop p d = a ++ t → q = p + length a → drop q d = t.
Proof.
  intros H ->. rewrite <- drop_drop, H.
  apply drop_app_length.
Qed.

Lemma cursor_length (d : list byte) (p : nat) (t : list byte) :
  drop p d = t → t ≠ [] → p + length t = length d.
Proof.
  intros <- Hne. rewrite length_drop.
  destruct (decide (p ≤ length d)); [lia|].
  rewrite drop_ge in Hne by lia. done.
Qed.

Lemma parseSNIExtension_complete (s : slice) (h : gostring) :
  len s ≤ cap s →
  server_name (bytes_of s) h → sni.parseSNIExtension s = Ok h.
Proof.
  intros Hwf (ll0 & ll1 & n0 & n1 & rest & Hd & Hn & Hne).
  pose proof (bytes_of_length s Hwf) as Hlen.
  assert (Hl : len s = 5 + length h + length rest).
  { rewrite <- Hlen, Hd, !length_app. reflexivity. }
  assert (L0 : drop 0 (bytes_of s) = ll0 :: ll1 :: x00 :: n0 :: n1 :: h ++ rest)
    by (by rewrite drop_0, Hd).
  pose proof (cursor_next _ 0 1 _ _ L0 eq_refl) as L1.
  pose proof (cursor_next _ 1 2 _ _ L1 eq_refl) as L2.
  pose proof (cursor_next _ 2 3 _ _ L2 eq_refl) as L3.
  pose proof (cursor_next _ 3 4 _ _ L3 eq_refl) as L4.
  pose proof (cursor_next _ 4 5 _ _ L4 eq_refl) as L5.
  unfold sni.parseSNIExtension.
  rewrite (proj2 (Nat.ltb_ge (len s) 5)) by lia.
  rewrite (read16_at s 0 2 ll0 ll1 _ Hwf);
    [|by eapply cursor_head|by eapply cursor_head|done].
  cbv zeta. rewrite (proj2 (Nat.leb_gt (len s) 2)) by lia.
  rewrite (index_at s 2 x00) by (by eapply cursor_head).
  rewrite bind_Ok_l.
  unfold sni.sniNameTypeHostname.
  rewrite bool_decide_eq_true_2 by done. cbn [negb].
  rewrite (proj2 (Nat.ltb_ge (len s) (2 + 1 + 2))) by lia.
  rewrite (read16_at s (2 + 1) (2 + 1 + 2) n0 n1 _ Hwf);
    [|by eapply cursor_head|by eapply cursor_head|done].
  rewrite <- Hn.
  rewrite (proj2 (Nat.ltb_ge (len s) (2 + 1 + 2 + length h))) by lia.
  rewrite reslice_total by (unfold cap in *; lia). rewrite bind_Ok_l.
  assert (Hh : bytes_of (mkSlice (drop (2 + 1 + 2) (arr s))
                                 (2 + 1 + 2 + length h - (2 + 1 + 2))) = h).
  { unfold bytes_of at 1. cbn [arr len].
    replace (2 + 1 + 2 + length h - (2 + 1 + 2)) with (length h) by lia.
    change (2 + 1 + 2) with 5.
    rewrite <- (seg_take (arr s) (len s) 5 (length h)) by lia.
    fold (bytes_of s). rewrite L5.
    apply take_app_length. }
  rewrite Hh. destruct (streq h []) eqn:He; [|done].
  by apply streq_true in He.
Qed.

(** One round of the extension loop on an extension that lies within the
    input. *)
Lemma extensions_loop_round (fuel : nat) (data : slice) (pos ee : nat)
    (t0 t1 l0 l1 : byte) (body rest : list byte) :
  len data ≤ cap data →
  drop pos (bytes_of data) = [t0; t1; l0; l1] ++ body ++ rest →
  length body = be16 l0 l1 →
  pos + 4 ≤ ee →
  let window := mkSlice (drop (pos + 4) (arr data)) (length body) in
  sni.extensions_loop (S fuel) data pos ee
  = (if be16 t0 t1 =? sni.extensionTypeSNI
     then sni.parseSNIExtension window
     else sni.extensions_loop fuel data (pos + 4 + length body) ee)
  ∧ len window ≤ cap window
  ∧ bytes_of window = body
  ∧ drop (pos + 4 + length body) (bytes_of data) = rest.
Proof.
  intros Hwf Hd Hb Hee window.
  pose proof (bytes_of_length data Hwf) as Hlen.
  assert (Hl : pos + (4 + length body + length rest) = len data).
  { rewrite <- Hlen, <- (cursor_length _ _ _ Hd) by done.
    by rewrite !length_app. }
  change ([t0; t1; l0; l1] ++ body ++ rest)
    with (t0 :: t1 :: l0 :: l1 :: body ++ rest) in Hd.
  pose proof (cursor_next _ pos (pos + 1) _ _ Hd eq_refl) as L1.
  pose proof (cursor_next _ (pos + 1) (pos + 2) _ _ L1 ltac:(lia)) as L2.
  pose proof (cursor_next _ (pos + 2) (pos + 3) _ _ L2 ltac:(lia)) as L3.
  pose proof (cursor_next _ (pos + 3) (pos + 4) _ _ L3 ltac:(lia)) as L4.
  assert (Hw : bytes_of window = body).
  { unfold bytes_of at 1, window. cbn [arr len].
    rewrite <- (seg_take (arr data) (len data)) by lia.
    fold (bytes_of data). rewrite L4. by rewrite take_app_length. }
  split; [|split; [|split]]; [| |done|].
  - cbn [sni.extensions_loop].
    rewrite (proj2 (Nat.leb_le (pos + 4) ee)) by lia.
    rewrite (read16_at data pos (pos + 2) t0 t1 _ Hwf);
      [|by eapply cursor_head|by eapply cursor_head|done].
    rewrite (read16_at data (pos + 2) (pos + 4) l0 l1 _ Hwf);
      [|by eapply cursor_head|eapply cursor_head; [exact L3|lia]|lia].
    cbv zeta. rewrite <- Hb.
    rewrite (proj2 (Nat.ltb_ge (len data) (pos + 4 + length body))) by lia.
    destruct (be16 t0 t1 =? sni.extensionTypeSNI); [|done].
    rewrite reslice_total by (unfold cap in *; lia). rewrite bind_Ok_l.
    unfold window. do 2 f_equal. lia.
  - unfold cap, window in *. cbn [arr len]. rewrite length_drop. lia.
  - eapply cursor_skip; [exact L4|done].
Qed.

Lemma extensions_loop_complete (n : nat) (exts : list byte) (h : gostring) :
  carry_within n exts h →
  ∀ fuel data pos ee,
    len data ≤ cap data → drop pos (bytes_of data) = exts →
    ee - pos = n → n ≤ fuel →
    sni.extensions_loop fuel data pos ee = Ok h.
Proof.
  induction 1 as [n t0 t1 l0 l1 body rest h Hn Ht Hb Hs
                 |n t0 t1 l0 l1 body rest h Hn Ht Hb Hc IH];
    intros fuel data pos ee Hwf Hd Hee Hfuel;
    (destruct fuel as [|fuel]; [lia|]);
    destruct (extensions_loop_round fuel data pos ee _ _ _ _ _ _ Hwf Hd Hb)
      as (-> & Hw & Hbody & Hrest); try lia.
  - rewrite Ht. cbn [Nat.eqb sni.extensionTypeSNI].
    apply parseSNIExtension_complete; [done|]. by rewrite Hbody.
  - destruct (be16 t0 t1 =? sni.extensionTypeSNI) eqn:Ety;
      [by apply Nat.eqb_eq in Ety|].
    apply IH; [done|done|lia|lia].
Qed.

Lemma ExtractSNI_complete (data : slice) (h : gostring) :
  len data ≤ cap data →
  hello_within (bytes_of data) h → sni.ExtractSNI data = Ok h.
Proof.
  intros Hwf (v0 & v1 & r0 & r1 & hl & fixed & sidLen & sid & c0 & c1 & cs
              & cmLen & cm & e0 & e1 & exts & Hd & Hrec & Hhl & Hfx & Hsid
              & Hcs & Hcm & Hext).
  pose proof (bytes_of_length data Hwf) as Hlen.
  remember (bytes_of data) as d eqn:Hbytes.
  assert (Hl : len data
               = 49 + length sid + length cs + length cm + length exts).
  { rewrite <- Hlen, Hd, !length_app, Hhl, Hfx. cbn [length]. lia. }
  assert (L0 : drop 0 d = x16 :: v0 :: v1 :: r0 :: r1 :: x01 ::
                 hl ++ fixed ++ [sidLen] ++ sid ++ [c0; c1] ++ cs
                 ++ [cmLen] ++ cm ++ [e0; e1] ++ exts)
    by (by rewrite drop_0, Hd).
  pose proof (cursor_next _ 0 1 _ _ L0 eq_refl) as L1.
  pose proof (cursor_next _ 1 2 _ _ L1 eq_refl) as L2.
  pose proof (cursor_next _ 2 3 _ _ L2 eq_refl) as L3.
  pose proof (cursor_next _ 3 4 _ _ L3 eq_refl) as L4.
  pose proof (cursor_next _ 4 5 _ _ L4 eq_refl) as L5.
  pose proof (cursor_next _ 5 6 _ _ L5 eq_refl) as L6.
  pose proof (cursor_skip _ 6 9 _ _ L6 ltac:(lia)) as L9.
  pose proof (cursor_skip _ 9 43 _ _ L9 ltac:(lia)) as L43.
  pose proof (cursor_next _ 43 44 _ _ L43 eq_refl) as L44.
  pose proof (cursor_skip _ 44 (44 + length sid) _ _ L44 eq_refl) as Lc0.
  pose proof (cursor_next _ _ (45 + length sid) _ _ Lc0 ltac:(lia)) as Lc1.
  pose proof (cursor_next _ _ (46 + length sid) _ _ Lc1 ltac:(lia)) as Lcs.
  pose proof (cursor_skip _ _ (46 + length sid + length cs) _ _ Lcs
                ltac:(lia)) as Lcm.
  pose proof (cursor_next _ _ (47 + length sid + length cs) _ _ Lcm
                ltac:(lia)) as Lcm1.
  pose proof (cursor_skip _ _ (47 + length sid + length cs + length cm)
                _ _ Lcm1 ltac:(lia)) as Le0.
  pose proof (cursor_next _ _ (48 + length sid + length cs + length cm)
                _ _ Le0 ltac:(lia)) as Le1.
  pose proof (cursor_next _ _ (49 + length sid + length cs + length cm)
                _ _ Le1 ltac:(lia)) as Lx.
  rewrite Hbytes in L0, L1, L2, L3, L4, L5, L43, Lc0, Lc1, Lcm, Le0, Le1, Lx.
  unfold sni.ExtractSNI.
  rewrite (proj2 (Nat.ltb_ge (len data) 5)) by lia.
  rewrite (index_at data 0 x16) by (by eapply cursor_head).
  rewrite bind_Ok_l.
  rewrite (read16_at data 3 5 r0 r1 _ Hwf);
    [|by eapply cursor_head|by eapply cursor_head|done].
  unfold sni.contentTypeHandshake, sni.handshakeTypeClientHello.
  rewrite bool_decide_eq_true_2 by done. cbn [negb].
  rewrite (proj2 (Nat.ltb_ge (len data) ((5 + be16 r0 r1) mod (256 * 256))))
    by (by rewrite <- Hlen).
  rewrite (proj2 (Nat.ltb_ge (len data) 9)) by lia.
  rewrite (index_at data 5 x01) by (by eapply cursor_head).
  rewrite bind_Ok_l.
  rewrite bool_decide_eq_true_2 by done. cbn [negb]. cbv zeta.
  change (9 + 2 + 32) with 43.
  rewrite (proj2 (Nat.leb_gt (len data) 43)) by lia.
  rewrite (index_at data 43 sidLen) by (by eapply cursor_head).
  rewrite bind_Ok_l. rewrite <- Hsid.
  rewrite (proj2 (Nat.ltb_ge (len data) (43 + (1 + length sid) + 2)))
    by lia.
  rewrite (read16_at data _ _ c0 c1 _ Hwf);
    [|eapply cursor_head; [exact Lc0|lia]
     |eapply cursor_head; [exact Lc1|lia]|lia].
  rewrite <- Hcs.
  rewrite (proj2 (Nat.leb_gt (len data) _)) by lia.
  rewrite (index_at data _ cmLen)
    by (eapply cursor_head; [exact Lcm|lia]).
  rewrite bind_Ok_l. rewrite <- Hcm.
  rewrite (proj2 (Nat.ltb_ge (len data) _)) by lia.
  rewrite (read16_at data _ _ e0 e1 _ Hwf);
    [|eapply cursor_head; [exact Le0|lia]
     |eapply cursor_head; [exact Le1|lia]|lia].
  apply (extensions_loop_complete _ _ _ Hext); [done| |lia|done].
  rewrite <- Lx. f_equal. lia.
Qed.

(** X1. ExtractSNI returns the host name h exactly on the inputs laid out
    as [hello_within] says: content type 0x16, handshake type 0x01, the
    three length-prefixed fields behind version and random, and an
    extension of type 0, the first one of that type and starting within
    the announced extensions length, whose first entry has name type 0
    and the name h, not empty; the announced record length plus five, as
    a 16-bit sum, not exceeding the input. *)
Theorem ExtractSNI_accepts_exactly (data : slice) (h : gostring) :
  len data ≤ cap data →
  sni.ExtractSNI data = Ok h ↔ hello_within (bytes_of data) h.
Proof.
  intros Hwf. split.
  - by apply ExtractSNI_within.
  - by apply ExtractSNI_complete.
Qed.

(* --------------------------------------------------------------------- *)
(* The ClientHellos of the parser's tests                                *)
(* --------------------------------------------------------------------- *)

Lemma byte_val_of_nat (k : nat) : k < 256 → byte_val (byte_of_nat k) = k.
Proof.
  intros Hk. unfold byte_val, byte_of_nat.
  destruct (Byte.of_N (N.of_nat k)) as [b|] eqn:Hb.
  - apply Byte.to_of_N in Hb. rewrite Hb. lia.
  - apply Byte.of_N_None_iff in Hb. lia.
Qed.

Lemma byte_val_trunc (n : nat) : byte_val (byte_trunc n) = n mod 256.
Proof.
  unfold byte_trunc. apply byte_val_of_nat.
  apply Nat.mod_upper_bound. done.
Qed.

(** byte(n >> 8), byte(n) is the big-endian form of a 16-bit n. *)
Lemma be16_trunc (n : nat) :
  n < 256 * 256 → be16 (byte_trunc (n / 256)) (byte_trunc n) = n.
Proof.
  intros Hn. rewrite be16_value, !byte_val_trunc.
  rewrite (Nat.mod_small (n / 256)) by (apply Nat.Div0.div_lt_upper_bound; lia).
  symmetry. apply Nat.div_mod_eq.
Qed.

Lemma be16_low (n : nat) : n < 256 → be16 x00 (byte_trunc n) = n.
Proof.
  intros Hn. rewrite be16_value, byte_val_trunc.
  rewrite Nat.mod_small by done. reflexivity.
Qed.

Lemma buildSNIExtension_length (h : gostring) :
  length (sni_test.buildSNIExtension h) = length h + 9.
Proof. unfold sni_test.buildSNIExtension. cbn [length app]. lia. Qed.

Lemma buildSNIExtension_carry (h : gostring) (n : nat) :
  4 ≤ n → 1 ≤ length h → length h + 5 < 256 * 256 →
  carry_within n (sni_test.buildSNIExtension h) h.
Proof.
  intros Hn H1 Hh.
  set (name := [x00; byte_trunc (length h / 256); byte_trunc (length h)]
               ++ h).
  set (body := [byte_trunc (length name / 256); byte_trunc (length name)]
               ++ name).
  assert (Hname : length name = length h + 3)
    by (unfold name; rewrite length_app; cbn [length]; lia).
  assert (Hbody : length body = length h + 5)
    by (unfold body; rewrite length_app, Hname; cbn [length]; lia).
  replace (sni_test.buildSNIExtension h)
    with ([x00; x00; byte_trunc (length body / 256);
           byte_trunc (length body)] ++ body ++ [])
    by (by rewrite app_nil_r).
  apply within_here; [done|reflexivity| |].
  - rewrite be16_trunc; [done|lia].
  - exists (byte_trunc (length name / 256)), (byte_trunc (length name)),
      (byte_trunc (length h / 256)), (byte_trunc (length h)), [].
    split; [by rewrite app_nil_r|]. split.
    + rewrite be16_trunc; [done|lia].
    + intros ->. cbn [length] in H1. lia.
Qed.

Lemma buildSimpleClientHello_within (h : gostring) :
  1 ≤ length h → length h ≤ 246 →
  hello_within (sni_test.buildSimpleClientHello h) h.
Proof.
  intros H1 H246.
  pose proof (buildSNIExtension_length h) as Hext.
  set (ext := sni_test.buildSNIExtension h) in *.
  set (ch := [x03; x03] ++ replicate 32 x00 ++ [x00] ++ [x00; x02; x00; x2f]
             ++ [x01; x00] ++ [x00; byte_trunc (length ext)] ++ ext).
  set (hs := [x01; x00; byte_trunc (length ch / 256);
              byte_trunc (length ch)] ++ ch).
  assert (Hch : length ch = length h + 52).
  { unfold ch. rewrite !length_app, length_replicate, Hext.
    cbn [length]. lia. }
  assert (Hhs : length hs = length h + 56).
  { unfold hs. rewrite length_app, Hch. cbn [length]. lia. }
  exists x03, x03, (byte_trunc (length hs / 256)), (byte_trunc (length hs)),
    [x00; byte_trunc (length ch / 256); byte_trunc (length ch)],
    ([x03; x03] ++ replicate 32 x00),
    x00, [], x00, x02, [x00; x2f], x01, [x00],
    x00, (byte_trunc (length ext)), ext.
  split; [reflexivity|].
  split.
  { rewrite be16_trunc by lia.
    etrans; [apply Nat.Div0.mod_le|].
    unfold sni_test.buildSimpleClientHello. fold ext. fold ch. fold hs.
    rewrite length_app. cbn [length]. lia. }
  repeat split.
  rewrite be16_low by lia.
  apply buildSNIExtension_carry; lia.
Qed.

(** X2. Round trip with the builder of the parser's own tests: for every
    host name of 1 to 246 bytes, ExtractSNI returns the name that
    buildSimpleClientHello was given, from a slice of exactly the built
    bytes and from the 16384-byte read buffer of the HTTPS handler. *)
Theorem ExtractSNI_buildSimpleClientHello (h : gostring) :
  1 ≤ length h → length h ≤ 246 →
  sni.ExtractSNI (of_bytes (sni_test.buildSimpleClientHello h)) = Ok h
  ∧ proxy.tlsHost (sni_test.buildSimpleClientHello h) = Ok h.
Proof.
  intros H1 H246.
  pose proof (buildSimpleClientHello_within h H1 H246) as Hw.
  split.
  - apply ExtractSNI_complete.
    + unfold of_bytes, cap. cbn [arr len]. done.
    + unfold of_bytes, bytes_of. cbn [arr len]. by rewrite firstn_all.
  - unfold proxy.tlsHost. apply ExtractSNI_complete; [apply readInto_wf|].
    rewrite readInto_bytes, take_ge; [done|].
    unfold sni_test.buildSimpleClientHello.
    rewrite !length_app, length_replicate, buildSNIExtension_length.
    cbn [length].
    assert (Hbig : 400 ≤ proxy.bufSize) by (by apply Nat.leb_le).
    lia.
Qed.

Lemma ExtractSNI_buildSimpleClientHello_witness :
  sni.ExtractSNI (of_bytes (sni_test.buildSimpleClientHello
                              (lit "old.reddit.com")))
  = Ok (lit "old.reddit.com")
  ∧ proxy.tlsHost (sni_test.buildSimpleClientHello (lit "old.reddit.com"))
    = Ok (lit "old.reddit.com").
Proof.
  apply (ExtractSNI_buildSimpleClientHello (lit "old.reddit.com"));
    vm_compute; lia.
Defined.

(* --------------------------------------------------------------------- *)
(* Which error the parser returns                                        *)
(* --------------------------------------------------------------------- *)

Lemma bind_Err {E A B} (m : result E A) (f : A → result E B) (e : E) :
  (m ≫= f) = Err e → m = Err e ∨ ∃ a, m = Ok a ∧ f a = Err e.
Proof. destruct m; simpl; [eauto | intros [= ->]; eauto | discriminate]. Qed.

Lemma index_no_Err {E} (s : slice) (i : nat) (e : E) : index s i ≠ Err e.
Proof. unfold index. by destruct (i <? len s), (arr s !! i). Qed.

Lemma reslice_no_Err {E} (s : slice) (lo hi : nat) (e : E) :
  reslice s lo hi ≠ Err e.
Proof. unfold reslice. by destruct (_ && _). Qed.

Lemma Uint16_no_Err {E} (s : slice) (e : E) : Uint16 s ≠ Err e.
Proof.
  unfold Uint16. intros [H|(b1 & _ & H)]%bind_Err;
    [by apply index_no_Err in H|].
  apply bind_Err in H as [H|(b0 & _ & H)]; [by apply index_no_Err in H|].
  discriminate.
Qed.

(** One step backwards through a run of the parser that ended in an
    error: a failed check names the error, a read has none of its own. *)
Ltac err_step_with H tac :=
  lazymatch type of H with
  | (if ?c then Err _ else _) = Err _ =>
      let C := fresh "C" in destruct c eqn:C; [try injection H as H; tac|]
  | (mbind _ _) = Err _ =>
      let x := fresh "x" in
      let Hx := fresh "Hx" in
      apply bind_Err in H as [H|(x & Hx & H)];
      [exfalso;
       first [ by apply index_no_Err in H
             | by apply reslice_no_Err in H
             | by apply Uint16_no_Err in H ]|]
  | (let _ := _ in _) = Err _ => cbv zeta in H
  end.

Ltac err_step H := err_step_with H idtac.

Lemma parseSNIExtension_errors (s : slice) (e : sni.error) :
  sni.parseSNIExtension s = Err e →
  e = sni.ErrNoSNI ∨ e = sni.ErrInvalidData.
Proof.
  intros H. unfold sni.parseSNIExtension in H.
  repeat err_step_with H ltac:(by subst; eauto). discriminate.
Qed.

Lemma extensions_loop_errors (fuel : nat) (data : slice) (pos ee : nat)
    (e : sni.error) :
  sni.extensions_loop fuel data pos ee = Err e →
  e = sni.ErrNoSNI ∨ e = sni.ErrInvalidData.
Proof.
  revert pos. induction fuel as [|fuel IH]; intros pos H; simpl in H.
  - injection H as <-. eauto.
  - destruct (pos + 4 <=? ee); [|injection H as <-; eauto].
    do 4 err_step H. cbv zeta in H.
    err_step H; [by subst; eauto|].
    destruct (_ =? sni.extensionTypeSNI).
    + err_step H. by eapply parseSNIExtension_errors.
    + by eapply IH.
Qed.

Lemma read16_total {E A} (s : slice) (lo hi : nat) :
  len s ≤ cap s → lo + 2 ≤ len s → hi = lo + 2 →
  ∃ b0 b1, bytes_of s !! lo = Some b0 ∧ bytes_of s !! (lo + 1) = Some b1
    ∧ ∀ f : nat → result E A,
        (reslice s lo hi ≫= λ b, Uint16 b ≫= f) = f (be16 b0 b1).
Proof.
  intros Hwf Hlo ->. pose proof (bytes_of_length s Hwf) as Hlen.
  destruct (lookup_lt_is_Some_2 (bytes_of s) lo) as [b0 H0]; [lia|].
  destruct (lookup_lt_is_Some_2 (bytes_of s) (lo + 1)) as [b1 H1]; [lia|].
  exists b0, b1. split; [done|]. split; [done|].
  intros f. by apply read16_at.
Qed.

Lemma ExtractSNI_not_handshake (data : slice) :
  len data ≤ cap data →
  sni.ExtractSNI data = Err sni.ErrNotHandshake
  ↔ 5 ≤ len data ∧ bytes_of data !! 0 ≠ Some sni.contentTypeHandshake.
Proof.
  intros Hwf. split.
  - intros H. unfold sni.ExtractSNI in H.
    err_step H; [discriminate|]. apply Nat.ltb_ge in C.
    do 3 err_step H.
    err_step H.
    { apply negb_true_iff, bool_decide_eq_false in C0.
      apply index_bytes in Hx. split; [done|]. rewrite Hx. congruence. }
    repeat err_step_with H ltac:(discriminate).
    apply extensions_loop_errors in H as [H|H]; discriminate.
  - intros [H5 Hb].
    pose proof (bytes_of_length data Hwf) as Hlen.
    destruct (lookup_lt_is_Some_2 (bytes_of data) 0) as [b0 H0]; [lia|].
    destruct (read16_total (E:=sni.error) (A:=gostring) data 3 5 Hwf)
      as (r0 & r1 & _ & _ & Hr); [lia|done|].
    unfold sni.ExtractSNI.
    rewrite (proj2 (Nat.ltb_ge (len data) 5)) by lia.
    rewrite (index_at data 0 b0 H0), bind_Ok_l, Hr.
    rewrite bool_decide_eq_false_2; [done|]. intros ->. by rewrite H0 in Hb.
Qed.

Lemma ExtractSNI_not_client_hello (data : slice) :
  len data ≤ cap data →
  sni.ExtractSNI data = Err sni.ErrNotClientHello
  ↔ 9 ≤ len data
    ∧ bytes_of data !! 0 = Some sni.contentTypeHandshake
    ∧ (∃ r0 r1, bytes_of data !! 3 = Some r0 ∧ bytes_of data !! 4 = Some r1
                ∧ (5 + be16 r0 r1) mod (256 * 256) ≤ len data)
    ∧ bytes_of data !! 5 ≠ Some sni.handshakeTypeClientHello.
Proof.
  intros Hwf. split.
  - intros H. unfold sni.ExtractSNI in H.
    err_step H; [discriminate|]. apply Nat.ltb_ge in C.
    do 3 err_step H.
    err_step H; [discriminate|].
    err_step H; [discriminate|].
    err_step H; [discriminate|].
    err_step H.
    err_step H.
    { apply Nat.ltb_ge in C1, C2.
      apply negb_false_iff, bool_decide_eq_true in C0. subst x.
      destruct (read16_bytes _ _ _ _ _ Hx0 Hx1)
        as (r0 & r1 & Hr0 & Hr1 & ->); [lia|].
      apply index_bytes in Hx, Hx2.
      apply negb_true_iff, bool_decide_eq_false in C3.
      split; [done|]. split; [done|]. split; [by exists r0, r1|].
      rewrite Hx2. congruence. }
    repeat err_step_with H ltac:(discriminate).
    apply extensions_loop_errors in H as [H|H]; discriminate.
  - intros (H9 & H0 & (r0 & r1 & Hr0 & Hr1 & Hrec) & Hb).
    pose proof (bytes_of_length data Hwf) as Hlen.
    destruct (lookup_lt_is_Some_2 (bytes_of data) 5) as [b5 H5]; [lia|].
    unfold sni.ExtractSNI.
    rewrite (proj2 (Nat.ltb_ge (len data) 5)) by lia.
    rewrite (index_at data 0 _ H0), bind_Ok_l.
    rewrite (read16_at data 3 5 r0 r1 _ Hwf) by done.
    rewrite bool_decide_eq_true_2 by done. cbn [negb].
    rewrite (proj2 (Nat.ltb_ge (len data) _)) by done.
    rewrite (proj2 (Nat.ltb_ge (len data) 9)) by lia.
    rewrite (index_at data 5 b5 H5), bind_Ok_l.
    rewrite bool_decide_eq_false_2; [done|]. intros ->. by rewrite H5 in Hb.
Qed.

(** X3. Two of ExtractSNI's errors are told apart by the first bytes
    alone.  ErrNotHandshake is returned exactly for inputs of five bytes or
    more whose first byte is not 0x16; ErrNotClientHello exactly for
    inputs of nine bytes or more that begin with 0x16, pass the
    record-length check, and whose byte at offset 5 is not 0x01. *)
Theorem ExtractSNI_error_kinds (data : slice) :
  len data ≤ cap data →
  (sni.ExtractSNI data = Err sni.ErrNotHandshake
   ↔ 5 ≤ len data ∧ bytes_of data !! 0 ≠ Some x16)
  ∧ (sni.ExtractSNI data = Err sni.ErrNotClientHello
     ↔ 9 ≤ len data
       ∧ bytes_of data !! 0 = Some x16
       ∧ (∃ r0 r1, bytes_of data !! 3 = Some r0
                   ∧ bytes_of data !! 4 = Some r1
                   ∧ (5 + be16 r0 r1) mod (256 * 256) ≤ len data)
       ∧ bytes_of data !! 5 ≠ Some x01).
Proof.
  intros Hwf. split.
  - by apply ExtractSNI_not_handshake.
  - by apply ExtractSNI_not_client_hello.
Qed.

Lemma ExtractSNI_error_kinds_witness :
  sni.ExtractSNI (of_bytes (lit "GET / HTTP/1.1"))
  = Err sni.ErrNotHandshake.
Proof.
  apply (ExtractSNI_error_kinds (of_bytes (lit "GET / HTTP/1.1")));
    [vm_compute; lia|].
  split; [vm_compute; lia|]. vm_compute. congruence.
Defined.

(* --------------------------------------------------------------------- *)
(* IsClientHello                                                         *)
(* --------------------------------------------------------------------- *)

Lemma IsClientHello_false (data : slice) :
  len data ≤ cap data →
  sni.IsClientHello data = Ok true
  ∨ (sni.IsClientHello data = Ok false
     ∧ ∃ e, sni.ExtractSNI data = Err e
            ∧ (e = sni.ErrInvalidData ∨ e = sni.ErrNotHandshake
               ∨ e = sni.ErrNotClientHello)).
Proof.
  intros Hwf. pose proof (bytes_of_length data Hwf) as Hlen.
  unfold sni.IsClientHello.
  destruct (decide (len data < 5)) as [H5|H5].
  { right. rewrite (proj2 (Nat.ltb_lt (len data) 6)) by lia.
    split; [done|]. exists sni.ErrInvalidData. split; [|eauto].
    unfold sni.ExtractSNI.
    by rewrite (proj2 (Nat.ltb_lt (len data) 5)) by lia. }
  destruct (lookup_lt_is_Some_2 (bytes_of data) 0) as [b0 H0]; [lia|].
  destruct (decide (b0 = sni.contentTypeHandshake)) as [->|Hb0].
  2:{ right. split.
      - destruct (len data <? 6); [done|].
        rewrite (index_at data 0 b0 H0), bind_Ok_l.
        by rewrite bool_decide_eq_false_2.
      - exists sni.ErrNotHandshake. split; [|eauto].
        apply ExtractSNI_not_handshake; [done|]. split; [lia|].
        rewrite H0. congruence. }
  destruct (read16_total (E:=sni.error) (A:=gostring) data 3 5 Hwf)
    as (r0 & r1 & Hr0 & Hr1 & Hr); [lia|done|].
  assert (Hstart : sni.ExtractSNI data
    = if len data <? (5 + be16 r0 r1) mod (256 * 256)
      then Err sni.ErrInvalidData
      else if len data <? 9 then Err sni.ErrInvalidData
      else match bytes_of data !! 5 with
           | Some b5 =>
               if negb (bool_decide (b5 = sni.handshakeTypeClientHello))
               then Err sni.ErrNotClientHello
               else sni.ExtractSNI data
           | None => Err sni.ErrInvalidData
           end).
  { unfold sni.ExtractSNI at 1.
    rewrite (proj2 (Nat.ltb_ge (len data) 5)) by lia.
    rewrite (index_at data 0 _ H0), bind_Ok_l, Hr.
    rewrite bool_decide_eq_true_2 by done. cbn [negb].
    destruct (len data <? _) eqn:Hrec; [done|].
    destruct (len data <? 9) eqn:H9; [done|]. apply Nat.ltb_ge in H9.
    destruct (lookup_lt_is_Some_2 (bytes_of data) 5) as [b5 Hb5]; [lia|].
    rewrite Hb5, (index_at data 5 b5 Hb5), bind_Ok_l.
    destruct (negb _) eqn:Hn; [done|].
    unfold sni.ExtractSNI.
    rewrite (proj2 (Nat.ltb_ge (len data) 5)) by lia.
    rewrite (index_at data 0 _ H0), bind_Ok_l, Hr.
    rewrite bool_decide_eq_true_2 by done. cbn [negb].
    rewrite Hrec.
    rewrite (proj2 (Nat.ltb_ge (len data) 9)) by lia.
    by rewrite (index_at data 5 b5 Hb5), bind_Ok_l, Hn. }
  destruct (len data <? 6) eqn:H6.
  { right. split; [done|]. apply Nat.ltb_lt in H6.
    exists sni.ErrInvalidData. split; [|eauto]. rewrite Hstart.
    destruct (len data <? _); [done|].
    by rewrite (proj2 (Nat.ltb_lt (len data) 9)) by lia. }
  apply Nat.ltb_ge in H6.
  destruct (lookup_lt_is_Some_2 (bytes_of data) 5) as [b5 Hb5]; [lia|].
  rewrite (index_at data 0 _ H0), bind_Ok_l.
  rewrite bool_decide_eq_true_2 by done. cbn [negb].
  rewrite (index_at data 5 b5 Hb5), bind_Ok_l.
  destruct (negb (bool_decide (b5 = sni.handshakeTypeClientHello))) eqn:Hn;
    [right|by left].
  split; [done|]. rewrite Hstart, Hb5, Hn.
  destruct (len data <? _); [eauto|].
  destruct (len data <? 9); eauto.
Qed.

(** X4. IsClientHello is a sound pre-filter for ExtractSNI: it never
    panics, and an input it rejects is one ExtractSNI rejects as well,
    with ErrInvalidData, ErrNotHandshake or ErrNotClientHello; so every
    input from which ExtractSNI returns a host name passes the filter. *)
Theorem IsClientHello_prefilter (data : slice) :
  len data ≤ cap data →
  (sni.IsClientHello data = Ok true
   ∨ (sni.IsClientHello data = Ok false
      ∧ ∃ e, sni.ExtractSNI data = Err e
             ∧ (e = sni.ErrInvalidData ∨ e = sni.ErrNotHandshake
                ∨ e = sni.ErrNotClientHello)))
  ∧ (∀ h, sni.ExtractSNI data = Ok h → sni.IsClientHello data = Ok true).
Proof.
  intros Hwf.
  destruct (IsClientHello_false data Hwf) as [Ht|(Hf & e & He & Hk)].
  - split; [by left | done].
  - split; [right; eauto|]. intros h Hh. congruence.
Qed.

Lemma IsClientHello_prefilter_witness :
  sni.IsClientHello
    (of_bytes (sni_test.buildSimpleClientHello (lit "example.com")))
  = Ok true.
Proof.
  apply (IsClientHello_prefilter
           (of_bytes (sni_test.buildSimpleClientHello (lit "example.com"))))
    with (h := lit "example.com"); [vm_compute; lia|].
  vm_compute. reflexivity.
Defined.

Lemma ExtractSNI_accepts_exactly_witness :
  sni.ExtractSNI (of_bytes (sni_test.buildSimpleClientHello (lit "a.io")))
  = Ok (lit "a.io")
  ↔ hello_within
      (bytes_of (of_bytes (sni_test.buildSimpleClientHello (lit "a.io"))))
      (lit "a.io").
Proof.
  apply (ExtractSNI_accepts_exactly
           (of_bytes (sni_test.buildSimpleClientHello (lit "a.io")))).
  vm_compute. lia.
Defined.

(* --------------------------------------------------------------------- *)
(* How long a host name can be                                           *)
(* --------------------------------------------------------------------- *)

Lemma be16_bound (b0 b1 : byte) : be16 b0 b1 < 256 * 256.
Proof.
  rewrite be16_value.
  assert (H : ∀ b, byte_val b < 256) by (intros b; destruct b; vm_compute; lia).
  pose proof (H b0). pose proof (H b1). lia.
Qed.

Lemma carry_within_length (n : nat) (exts : list byte) (h : gostring) :
  carry_within n exts h →
  1 ≤ length h ∧ length h < 256 * 256 ∧ length h + 9 ≤ length exts.
Proof.
  induction 1 as [n t0 t1 l0 l1 body rest h _ _ _ Hs
                 |n t0 t1 l0 l1 body rest h _ _ _ _ IH].
  - destruct Hs as (ll0 & ll1 & n0 & n1 & rest' & -> & Hn & Hne).
    pose proof (be16_bound n0 n1).
    rewrite !length_app. cbn [length].
    destruct h; [done|]. cbn [length] in *. lia.
  - rewrite !length_app. cbn [length]. lia.
Qed.

(** X5. A host name returned by ExtractSNI is never empty, is shorter than
    2^16 bytes, and is at least 58 bytes shorter than the input: no input
    of fewer than 59 bytes yields a host name. *)
Theorem ExtractSNI_host_bounds (data : slice) (h : gostring) :
  len data ≤ cap data →
  sni.ExtractSNI data = Ok h →
  1 ≤ length h ∧ length h < 256 * 256 ∧ length h + 58 ≤ len data.
Proof.
  intros Hwf H. pose proof (bytes_of_length data Hwf) as Hlen.
  apply ExtractSNI_within in H; [|done].
  destruct H as (v0 & v1 & r0 & r1 & hl & fixed & sidLen & sid & c0 & c1
                 & cs & cmLen & cm & e0 & e1 & exts & Hd & _ & Hhl & Hfx & _
                 & _ & _ & Hc).
  apply carry_within_length in Hc as (H1 & H2 & H3).
  split; [done|]. split; [done|].
  rewrite <- Hlen, Hd, !length_app, Hhl, Hfx. cbn [length]. lia.
Qed.

Lemma ExtractSNI_host_bounds_witness :
  1 ≤ length (lit "example.com")
  ∧ length (lit "example.com") < 256 * 256
  ∧ length (lit "example.com") + 58
    ≤ len (of_bytes (sni_test.buildSimpleClientHello (lit "example.com"))).
Proof.
  apply (ExtractSNI_host_bounds
           (of_bytes (sni_test.buildSimpleClientHello (lit "example.com")))
           (lit "example.com")); [vm_compute; lia|].
  vm_compute. reflexivity.
Defined.

(* --------------------------------------------------------------------- *)
(* The HTTPS handler on an input the parser accepts                      *)
(* --------------------------------------------------------------------- *)

Lemma tlsHost_complete (avail : list byte) (h : gostring) :
  hello_within (take proxy.bufSize avail) h → proxy.tlsHost avail = Ok h.
Proof.
  intros Hw. unfold proxy.tlsHost.
  apply ExtractSNI_complete; [apply readInto_wf|].
  by rewrite readInto_bytes.
Qed.

(** X6. What handleHTTPS does with a flow whose first read has the layout
    ExtractSNI takes the host name h from is decided by isBlocked h
    alone.  Blocked: the TLS alert is written and the client closed,
    nothing is dialed.  Otherwise: the recovered original destination is
    dialed and the bytes read are handed to the upstream connection
    unchanged. *)
Theorem handleHTTPS_on_accepted_input (rules : list gostring)
    (w : proxy.world) (dst : gostring) (avail : list byte) (h : gostring) :
  proxy.origDst w = Some dst →
  hello_within (take proxy.bufSize avail) h →
  proxy.handleHTTPS rules w (Some avail)
  = ClientSetReadDeadline :: ClientRead (take proxy.bufSize avail) ::
    if isBlocked h rules
    then [ClientSetWriteDeadline; ClientWrite proxy.alert; ClientClose]
    else proxy.forwardConnection w dst (take proxy.bufSize avail)
         ++ [ClientClose].
Proof.
  intros Hd Hw. rewrite (handleHTTPS_trace _ _ _ _ Hd).
  by rewrite (tlsHost_complete _ _ Hw).
Qed.

Lemma handleHTTPS_on_accepted_input_witness :
  proxy.handleHTTPS [lit "reddit.com"] friendly
    (Some (sni_test.buildSimpleClientHello (lit "old.reddit.com")))
  = ClientSetReadDeadline
    :: ClientRead (take proxy.bufSize
                     (sni_test.buildSimpleClientHello (lit "old.reddit.com")))
    :: (if isBlocked (lit "old.reddit.com") [lit "reddit.com"]
        then [ClientSetWriteDeadline; ClientWrite proxy.alert; ClientClose]
        else proxy.forwardConnection friendly (lit "93.184.216.34:443")
               (take proxy.bufSize
                  (sni_test.buildSimpleClientHello (lit "old.reddit.com")))
             ++ [ClientClose]).
Proof.
  apply handleHTTPS_on_accepted_input; [reflexivity|].
  rewrite <- readInto_bytes.
  apply ExtractSNI_within; [apply readInto_wf|].
  vm_compute. reflexivity.
Defined.

(** X22. What handleHTTPS dials.  An address is dialed exactly when it is
    the recovered original destination, the first read succeeded, its
    bytes have the layout ExtractSNI takes a host name from, and isBlocked
    lets that name through.  Nothing else about the input is looked at. *)
Theorem handleHTTPS_dials_exactly (rules : list gostring) (w : proxy.world)
    (read : option (list byte)) (a : gostring) :
  a ∈ dials (proxy.handleHTTPS rules w read)
  ↔ proxy.origDst w = Some a
    ∧ ∃ avail h, read = Some avail
        ∧ hello_within (take proxy.bufSize avail) h
        ∧ isBlocked h rules = false.
Proof.
  split.
  - intros Ha. apply handleHTTPS_dial_inv in Ha
      as (Hd & avail & h & -> & _ & Hw & Hb).
    split; [done|]. by exists avail, h.
  - intros (Hd & avail & h & -> & Hw & Hb).
    rewrite (handleHTTPS_trace _ _ _ _ Hd), (tlsHost_complete _ _ Hw), Hb.
    change (dials (?x :: ?y :: ?t)) with (dials t).
    rewrite forwardConnection_dials. apply list_elem_of_here.
Qed.

(* --------------------------------------------------------------------- *)
(* Panics                                                                *)
(* --------------------------------------------------------------------- *)

Lemma forwardConnection_no_panic w d init :
  GoPanic ∉ proxy.forwardConnection w d init ++ [ClientClose].
Proof.
  unfold proxy.forwardConnection.
  destruct (proxy.dialOk w), (0 <? length init), (proxy.writeOk w);
    cbn [app]; rewrite ?not_elem_of_cons; repeat split; try done;
    apply not_elem_of_nil.
Qed.

(** X7. The only run-time panic of the TLS path needs a full buffer.
    ExtractSNI does not panic on a slice with four bytes of capacity
    behind its length, and handleHTTPS does not panic on a first read of
    at most 16380 bytes, whatever they are. *)
Theorem handleHTTPS_no_panic_below_full_read :
  (∀ data, len data + 4 ≤ cap data → sni.ExtractSNI data ≠ Panic)
  ∧ (∀ rules w avail,
       length avail + 4 ≤ proxy.bufSize →
       GoPanic ∉ proxy.handleHTTPS rules w (Some avail)).
Proof.
  split.
  - intros data Hcap Hp.
    apply ExtractSNI_panic_needs_tight_capacity in Hp; lia.
  - intros rules w avail Hlen.
    destruct (proxy.origDst w) as [d|] eqn:Hd.
    2:{ unfold proxy.handleHTTPS. rewrite Hd.
        rewrite !not_elem_of_cons. repeat split; try done.
        apply not_elem_of_nil. }
    rewrite (handleHTTPS_trace _ _ _ _ Hd).
    rewrite !not_elem_of_cons. split; [done|]. split; [done|].
    destruct (proxy.tlsHost avail) as [h| |] eqn:Hx.
    + destruct (isBlocked h rules); [|apply forwardConnection_no_panic].
      cbn [app proxy.sendTLSAlert]. rewrite !not_elem_of_cons.
      repeat split; try done. apply not_elem_of_nil.
    + cbn [app proxy.sendTLSAlert]. rewrite !not_elem_of_cons.
      repeat split; try done. apply not_elem_of_nil.
    + apply ExtractSNI_panic_needs_tight_capacity in Hx;
        [|apply readInto_wf].
      unfold proxy.readInto, cap in Hx. cbn [arr len] in Hx.
      rewrite length_app, length_take, length_replicate in Hx. lia.
Qed.

Lemma handleHTTPS_no_panic_below_full_read_witness :
  GoPanic ∉ proxy.handleHTTPS [] friendly (Some truncated_hello).
Proof.
  apply handleHTTPS_no_panic_below_full_read.
  apply Nat.leb_le. vm_compute. reflexivity.
Defined.

(* --------------------------------------------------------------------- *)
(* The HTTP handler: when it dials, when it writes, how it ends          *)
(* --------------------------------------------------------------------- *)

Lemma reads_no_panic (reads : list gostring) :
  GoPanic ∉ (ClientRead <$> reads : list event).
Proof. intros (r & Hr & _)%list_elem_of_fmap. discriminate. Qed.

Lemma clientCloses_reads reads tail :
  clientCloses (ClientSetReadDeadline :: (ClientRead <$> reads) ++ tail)
  = clientCloses tail.
Proof.
  unfold clientCloses. cbn [omap list_omap]. rewrite omap_app, length_app.
  replace (omap _ (ClientRead <$> reads)) with (@nil unit); [done|].
  induction reads; [done|]. by simpl.
Qed.

Lemma destCloses_reads reads tail :
  destCloses (ClientSetReadDeadline :: (ClientRead <$> reads) ++ tail)
  = destCloses tail.
Proof.
  unfold destCloses. cbn [omap list_omap]. rewrite omap_app, length_app.
  replace (omap _ (ClientRead <$> reads)) with (@nil unit); [done|].
  induction reads; [done|]. by simpl.
Qed.

(** X8. The HTTP handler dials only for a host it has checked.  If it
    dials at all, it dials once, the address dialed is the recovered
    original destination, and the request head held a Host header whose
    value, port cut off, is not blocked.  No original destination, no
    complete request line, no Host header or a blocked host: no dial. *)
Theorem handleHTTP_dials_checked_host (rules : list gostring) (w : proxy.world)
    (stream : list byte) (a : gostring) :
  a ∈ dials (proxy.handleHTTP rules w stream) →
  proxy.origDst w = Some a
  ∧ dials (proxy.handleHTTP rules w stream) = [a]
  ∧ ∃ h, proxy.httpHost stream = Some h ∧ isBlocked h rules = false.
Proof.
  destruct (proxy.origDst w) as [d|] eqn:Hd;
    [|by rewrite handleHTTP_no_dst; [intros ?%elem_of_nil|]].
  destruct (handleHTTP_cases rules w d stream Hd) as [reads H].
  destruct (proxy.httpHost stream) as [h|].
  - destruct (isBlocked h rules) eqn:Hb.
    + rewrite H, dials_reads. by intros ?%elem_of_nil.
    + destruct H as (requestLine & lines & -> & _ & ->).
      rewrite dials_reads, forwardConnection_dials.
      intros ->%list_elem_of_singleton. eauto.
  - rewrite H, dials_reads. by intros ?%elem_of_nil.
Qed.

Lemma handleHTTP_dials_checked_host_witness :
  proxy.origDst friendly_http = Some (lit "93.184.216.34:80")
  ∧ dials (proxy.handleHTTP [lit "reddit.com"] friendly_http get_example_org)
    = [lit "93.184.216.34:80"]
  ∧ ∃ h, proxy.httpHost get_example_org = Some h
         ∧ isBlocked h [lit "reddit.com"] = false.
Proof.
  apply handleHTTP_dials_checked_host. vm_compute. apply list_elem_of_here.
Defined.

(** X9. handleHTTP never panics, whatever the client sends: the indexing
    of the second part of a split Host line is always in range. *)
Theorem handleHTTP_never_panics (rules : list gostring) (w : proxy.world)
    (stream : list byte) :
  GoPanic ∉ proxy.handleHTTP rules w stream.
Proof.
  destruct (proxy.origDst w) as [d|] eqn:Hd.
  2:{ rewrite handleHTTP_no_dst by done. rewrite !not_elem_of_cons.
      repeat split; try done. apply not_elem_of_nil. }
  destruct (handleHTTP_cases rules w d stream Hd) as [reads H].
  assert (Hsimple : ∀ tail, GoPanic ∉ tail →
    GoPanic ∉ ClientSetReadDeadline :: (ClientRead <$> reads) ++ tail).
  { intros tail Ht. rewrite not_elem_of_cons, not_elem_of_app.
    split; [done|]. split; [apply reads_no_panic | done]. }
  destruct (proxy.httpHost stream) as [h|].
  - destruct (isBlocked h rules).
    + rewrite H. apply Hsimple. rewrite !not_elem_of_cons.
      repeat split; try done. apply not_elem_of_nil.
    + destruct H as (requestLine & lines & _ & _ & ->).
      apply Hsimple, forwardConnection_no_panic.
  - rewrite H. apply Hsimple. rewrite !not_elem_of_cons.
    repeat split; try done. apply not_elem_of_nil.
Qed.

(* --------------------------------------------------------------------- *)
(* Sockets are closed once; a forwarded flow is never written to         *)
(* --------------------------------------------------------------------- *)

Lemma forwardConnection_closes w d init :
  clientCloses (proxy.forwardConnection w d init ++ [ClientClose]) = 1
  ∧ destCloses (proxy.forwardConnection w d init ++ [ClientClose])
    = (if proxy.dialOk w then 1 else 0)
  ∧ clientWrites (proxy.forwardConnection w d init ++ [ClientClose]) = [].
Proof.
  unfold proxy.forwardConnection.
  by destruct (proxy.dialOk w), (0 <? length init), (proxy.writeOk w).
Qed.

Lemma handleHTTPS_closes rules w read :
  clientCloses (proxy.handleHTTPS rules w read) = 1
  ∧ destCloses (proxy.handleHTTPS rules w read)
    = (if proxy.dialOk w
       then length (dials (proxy.handleHTTPS rules w read)) else 0)
  ∧ (dials (proxy.handleHTTPS rules w read) ≠ [] →
     clientWrites (proxy.handleHTTPS rules w read) = []).
Proof.
  destruct (proxy.origDst w) as [d|] eqn:Hd;
    [|by unfold proxy.handleHTTPS; rewrite Hd; destruct (proxy.dialOk w)].
  destruct read as [avail|];
    [|by unfold proxy.handleHTTPS; rewrite Hd; destruct (proxy.dialOk w)].
  rewrite (handleHTTPS_trace _ _ _ _ Hd).
  destruct (proxy.tlsHost avail) as [h| |];
    [|by destruct (proxy.dialOk w)..].
  destruct (isBlocked h rules); [by destruct (proxy.dialOk w)|].
  change (clientCloses (?x :: ?y :: ?t))
    with (clientCloses t).
  change (destCloses (?x :: ?y :: ?t)) with (destCloses t).
  change (dials (?x :: ?y :: ?t)) with (dials t).
  change (clientWrites (?x :: ?y :: ?t)) with (clientWrites t).
  rewrite forwardConnection_dials.
  destruct (forwardConnection_closes w d (take proxy.bufSize avail))
    as (-> & -> & ->).
  by destruct (proxy.dialOk w).
Qed.

Lemma handleHTTP_closes rules w stream :
  clientCloses (proxy.handleHTTP rules w stream) = 1
  ∧ destCloses (proxy.handleHTTP rules w stream)
    = (if proxy.dialOk w
       then length (dials (proxy.handleHTTP rules w stream)) else 0)
  ∧ (dials (proxy.handleHTTP rules w stream) ≠ [] →
     clientWrites (proxy.handleHTTP rules w stream) = []).
Proof.
  destruct (proxy.origDst w) as [d|] eqn:Hd;
    [|by rewrite handleHTTP_no_dst; [destruct (proxy.dialOk w)|]].
  destruct (handleHTTP_cases rules w d stream Hd) as [reads H].
  destruct (proxy.httpHost stream) as [h|].
  - destruct (isBlocked h rules).
    + rewrite H, clientCloses_reads, destCloses_reads, dials_reads,
        clientWrites_reads.
      by destruct (proxy.dialOk w).
    + destruct H as (requestLine & lines & _ & _ & ->).
      rewrite clientCloses_reads, destCloses_reads, dials_reads,
        clientWrites_reads, forwardConnection_dials.
      destruct (forwardConnection_closes w d requestLine) as (-> & -> & ->).
      by destruct (proxy.dialOk w).
  - rewrite H, clientCloses_reads, destCloses_reads, dials_reads,
      clientWrites_reads.
    by destruct (proxy.dialOk w).
Qed.

(** X10. Each handler closes the client connection exactly once on every
    path, a panic included, and closes an upstream connection exactly when
    its dial succeeded: never twice, and none is left open. *)
Theorem handlers_close_each_socket_once (rules : list gostring)
    (w : proxy.world) (read : option (list byte)) (stream : list byte) :
  clientCloses (proxy.handleHTTPS rules w read) = 1
  ∧ clientCloses (proxy.handleHTTP rules w stream) = 1
  ∧ destCloses (proxy.handleHTTPS rules w read)
    = (if proxy.dialOk w
       then length (dials (proxy.handleHTTPS rules w read)) else 0)
  ∧ destCloses (proxy.handleHTTP rules w stream)
    = (if proxy.dialOk w
       then length (dials (proxy.handleHTTP rules w stream)) else 0)
  ∧ length (dials (proxy.handleHTTPS rules w read)) ≤ 1
  ∧ length (dials (proxy.handleHTTP rules w stream)) ≤ 1.
Proof.
  destruct (handleHTTPS_closes rules w read) as (H1 & H2 & _).
  destruct (handleHTTP_closes rules w stream) as (H3 & H4 & _).
  repeat split; try done.
  - destruct (dials (proxy.handleHTTPS rules w read)) as [|a l] eqn:Hl;
      [cbn [length]; lia|].
    assert (Ha : a ∈ dials (proxy.handleHTTPS rules w read))
      by (rewrite Hl; apply list_elem_of_here).
    apply handleHTTPS_dial_inv in Ha as [Hd _].
    destruct read as [avail|];
      [|by unfold proxy.handleHTTPS in Hl; rewrite Hd in Hl].
    rewrite (handleHTTPS_trace _ _ _ _ Hd) in Hl.
    destruct (proxy.tlsHost avail) as [h| |]; [|done..].
    destruct (isBlocked h rules); [done|].
    change (dials (?x :: ?y :: ?t)) with (dials t) in Hl.
    rewrite forwardConnection_dials in Hl. injection Hl as <-.
    cbn [length]. lia.
  - destruct (dials (proxy.handleHTTP rules w stream)) as [|a l] eqn:Hl;
      [cbn [length]; lia|].
    assert (Ha : a ∈ dials (proxy.handleHTTP rules w stream))
      by (rewrite Hl; apply list_elem_of_here).
    destruct (proxy.origDst w) as [d|] eqn:Hd;
      [|by rewrite handleHTTP_no_dst in Hl].
    destruct (handleHTTP_cases rules w d stream Hd) as [reads H].
    destruct (proxy.httpHost stream) as [h|].
    + destruct (isBlocked h rules).
      * by rewrite H, dials_reads in Hl.
      * destruct H as (requestLine & lines & _ & _ & H).
        rewrite H, dials_reads, forwardConnection_dials in Hl.
        injection Hl as <- <-. cbn [length]. lia.
    + by rewrite H, dials_reads in Hl.
Qed.

(** X11. A flow that is forwarded is never written to by the proxy itself:
    whenever a handler dials, it writes nothing to the client, neither
    the TLS alert nor the 403 response; and whenever it writes to the
    client, it has dialed nothing. *)
Theorem forwarded_flows_get_no_closer (rules : list gostring)
    (w : proxy.world) (read : option (list byte)) (stream : list byte) :
  (dials (proxy.handleHTTPS rules w read) ≠ [] →
   clientWrites (proxy.handleHTTPS rules w read) = [])
  ∧ (dials (proxy.handleHTTP rules w stream) ≠ [] →
     clientWrites (proxy.handleHTTP rules w stream) = [])
  ∧ (clientWrites (proxy.handleHTTPS rules w read) ≠ [] →
     dials (proxy.handleHTTPS rules w read) = [])
  ∧ (clientWrites (proxy.handleHTTP rules w stream) ≠ [] →
     dials (proxy.handleHTTP rules w stream) = []).
Proof.
  destruct (handleHTTPS_closes rules w read) as (_ & _ & H1).
  destruct (handleHTTP_closes rules w stream) as (_ & _ & H2).
  split; [done|]. split; [done|]. split.
  - intros Hw. destruct (dials (proxy.handleHTTPS rules w read)); [done|].
    exfalso. apply Hw, H1. done.
  - intros Hw. destruct (dials (proxy.handleHTTP rules w stream)); [done|].
    exfalso. apply Hw, H2. done.
Qed.

Lemma forwarded_flows_get_no_closer_witness :
  clientWrites
    (proxy.handleHTTPS [] friendly
       (Some (sni_test.buildSimpleClientHello (lit "example.org"))))
  = []
  ∧ dials (proxy.handleHTTP [lit "example.org"] friendly_http
             get_example_org)
    = [].
Proof.
  destruct (forwarded_flows_get_no_closer [] friendly
              (Some (sni_test.buildSimpleClientHello (lit "example.org")))
              get_example_org) as (H1 & _).
  destruct (forwarded_flows_get_no_closer [lit "example.org"] friendly_http
              None get_example_org) as (_ & _ & _ & H4).
  split.
  - apply H1. vm_compute. congruence.
  - apply H4. vm_compute. congruence.
Defined.

(* --------------------------------------------------------------------- *)
(* strings.TrimSpace around ASCII text                                   *)
(* --------------------------------------------------------------------- *)

(** An ASCII byte that is not white space is no part of the encoding of
    any space rune: trimming stops at it from either side. *)
Lemma ascii_not_in_space_rune (c : byte) :
  byte_val c < 128 →
  c ≠ xc2 ∧ c ≠ x85 ∧ c ≠ xa0 ∧ c ≠ xe1 ∧ c ≠ xe2 ∧ c ≠ xe3 ∧ c ≠ x9a
  ∧ c ≠ x80 ∧ c ≠ x81 ∧ c ≠ x9f ∧ c ≠ xa8 ∧ c ≠ xa9 ∧ c ≠ xaf.
Proof.
  intros H. repeat split; intros ->; vm_compute in H; lia.
Qed.

Lemma is_space2_ascii_l (c x : byte) :
  byte_val c < 128 → strings.is_space2 c x = false.
Proof.
  intros (? & _)%ascii_not_in_space_rune. unfold strings.is_space2.
  by rewrite bool_decide_eq_false_2.
Qed.

Lemma is_space2_ascii_r (c x : byte) :
  byte_val c < 128 → strings.is_space2 x c = false.
Proof.
  intros (_ & ? & ? & _)%ascii_not_in_space_rune. unfold strings.is_space2.
  rewrite (bool_decide_eq_false_2 (c = x85)),
    (bool_decide_eq_false_2 (c = xa0)) by done.
  apply andb_false_r.
Qed.

Lemma is_space3_ascii_l (c x y : byte) :
  byte_val c < 128 → strings.is_space3 c x y = false.
Proof.
  intros (_ & _ & _ & ? & ? & ? & _)%ascii_not_in_space_rune.
  unfold strings.is_space3.
  by rewrite (bool_decide_eq_false_2 (c = xe1)),
    (bool_decide_eq_false_2 (c = xe2)),
    (bool_decide_eq_false_2 (c = xe3)) by done.
Qed.

Lemma is_space3_ascii_m (c x y : byte) :
  byte_val c < 128 → strings.is_space3 x c y = false.
Proof.
  intros (_ & _ & _ & _ & _ & _ & ? & ? & ? & _)%ascii_not_in_space_rune.
  unfold strings.is_space3.
  rewrite (bool_decide_eq_false_2 (c = x9a)),
    (bool_decide_eq_false_2 (c = x80)),
    (bool_decide_eq_false_2 (c = x81)) by done.
  by rewrite !andb_false_r.
Qed.

Lemma is_space3_ascii_r (c x y : byte) :
  byte_val c < 128 → strings.is_space3 x y c = false.
Proof.
  intros H.
  destruct (ascii_not_in_space_rune c H)
    as (_ & _ & _ & _ & _ & _ & _ & ? & _ & ? & ? & ? & ?).
  unfold strings.is_space3.
  rewrite (bool_decide_eq_false_2 (c = x80)),
    (bool_decide_eq_false_2 (c = x9f)),
    (bool_decide_eq_false_2 (c = xa8)),
    (bool_decide_eq_false_2 (c = xa9)),
    (bool_decide_eq_false_2 (c = xaf)) by done.
  rewrite (proj2 (Nat.leb_gt 128 (byte_val c))) by lia.
  by rewrite !andb_false_r.
Qed.

(** Leading ASCII white space is stripped up to the first ASCII byte that
    is not white space. *)
Lemma TrimLeft_ascii (ws : gostring) (c : byte) (s : gostring) :
  forallb strings.is_space ws = true →
  byte_val c < 128 → strings.is_space c = false →
  strings.TrimLeft (ws ++ c :: s) = c :: s.
Proof.
  intros Hws Hc Hs. induction ws as [|x ws IH].
  - cbn [app strings.TrimLeft]. rewrite Hs.
    destruct s as [|c1 s]; [done|]. rewrite is_space2_ascii_l by done.
    destruct s as [|c2 s]; [done|]. by rewrite is_space3_ascii_l.
  - cbn [forallb] in Hws. apply andb_true_iff in Hws as [Hx Hws].
    cbn [app strings.TrimLeft]. rewrite Hx. by apply IH.
Qed.

(** Trimming from the right, on the reversed string, does not get past an
    ASCII byte that is not white space; it gets to it when only ASCII
    white space lies before it. *)
Lemma TrimLeftRev_ascii (n : nat) (a : gostring) (c : byte) (b : gostring) :
  length a ≤ n →
  byte_val c < 128 → strings.is_space c = false →
  ∃ a', strings.TrimLeftRev (a ++ c :: b) = a' ++ c :: b
        ∧ (forallb strings.is_space a = true → a' = []).
Proof.
  intros Hn Hc Hs. revert a Hn. induction n as [|n IH]; intros a Hn.
  - destruct a; [|cbn [length] in Hn; lia].
    exists []. split; [|done].
    cbn [app strings.TrimLeftRev]. rewrite Hs.
    destruct b as [|c1 b]; [done|]. rewrite is_space2_ascii_r by done.
    destruct b as [|c2 b]; [done|]. by rewrite is_space3_ascii_r.
  - destruct a as [|c0 a]; [apply (IH []); cbn [length]; lia|].
    cbn [length] in Hn. cbn [app strings.TrimLeftRev].
    destruct (strings.is_space c0) eqn:H0.
    { destruct (IH a ltac:(lia)) as (a' & -> & Ha). exists a'.
      split; [done|]. cbn [forallb]. rewrite H0. done. }
    destruct a as [|c1 a].
    { exists [c0]. cbn [app]. rewrite is_space2_ascii_l by done.
      split; [|by cbn [forallb]; rewrite H0].
      destruct b as [|c2 b]; [done|]. by rewrite is_space3_ascii_m. }
    cbn [length] in Hn. cbn [app].
    destruct (strings.is_space2 c1 c0).
    { destruct (IH a ltac:(lia)) as (a' & -> & Ha). exists a'.
      split; [done|]. cbn [forallb]. by rewrite H0. }
    destruct a as [|c2 a].
    { exists [c0; c1]. cbn [app]. rewrite is_space3_ascii_l by done.
      split; [done|]. cbn [forallb]. by rewrite H0. }
    cbn [length] in Hn. cbn [app].
    destruct (strings.is_space3 c2 c1 c0).
    { destruct (IH a ltac:(lia)) as (a' & -> & Ha). exists a'.
      split; [done|]. cbn [forallb]. by rewrite H0. }
    exists (c0 :: c1 :: c2 :: a). split; [done|].
    cbn [forallb]. by rewrite H0.
Qed.

Lemma TrimRight_ascii (s : gostring) (c : byte) (t : gostring) :
  byte_val c < 128 → strings.is_space c = false →
  ∃ t', strings.TrimRight (s ++ c :: t) = s ++ c :: t'
        ∧ (forallb strings.is_space t = true → t' = []).
Proof.
  intros Hc Hs. unfold strings.TrimRight.
  rewrite reverse_app, reverse_cons, <- app_assoc. cbn [app].
  destruct (TrimLeftRev_ascii (length (reverse t)) (reverse t) c (reverse s)
              (le_n _) Hc Hs) as (a' & -> & Ha).
  exists (reverse a'). split.
  - by rewrite reverse_app, reverse_cons, reverse_involutive, <- app_assoc.
  - intros Ht. rewrite Ha; [done|].
    rewrite forallb_forall in Ht |- *. intros x Hx. apply Ht.
    apply list_elem_of_In in Hx. apply list_elem_of_In.
    exact (proj1 (elem_of_reverse x t) Hx).
Qed.

(** ASCII text between ASCII white space comes out of TrimSpace as it
    is. *)
Lemma TrimSpace_ascii (ws1 ws2 : gostring) (c c' : byte) (mid : gostring) :
  forallb strings.is_space ws1 = true →
  forallb strings.is_space ws2 = true →
  byte_val c < 128 → strings.is_space c = false →
  byte_val c' < 128 → strings.is_space c' = false →
  strings.TrimSpace (ws1 ++ (c :: mid ++ [c']) ++ ws2) = c :: mid ++ [c'].
Proof.
  intros H1 H2 Hc Hs Hc' Hs'. unfold strings.TrimSpace.
  cbn [app]. rewrite TrimLeft_ascii by done.
  destruct (TrimRight_ascii (c :: mid) c' ws2 Hc' Hs') as (t' & Ht & Ht').
  rewrite <- app_assoc. cbn [app] in *. rewrite Ht, Ht'; done.
Qed.

(* --------------------------------------------------------------------- *)
(* The Host header that handleHTTP acts on                               *)
(* --------------------------------------------------------------------- *)

Lemma host_colon_ToLower (name : gostring) :
  host_colon name ↔ strings.ToLower name = lit "host:".
Proof.
  unfold host_colon. rewrite <- ToLower_eq_fold. done.
Qed.

(** The "host:" test of the header loop. *)
Lemma host_test_fold (l : gostring) :
  strings.HasPrefix (strings.ToLower l) (lit "host:") = true
  ↔ host_colon (take 5 l).
Proof.
  rewrite host_colon_ToLower, HasPrefix_spec.
  unfold strings.ToLower. rewrite fmap_take. split.
  - intros [k ->]. done.
  - intros H. exists (drop 5 (strings.lower_byte <$> l)).
    by rewrite <- H, take_drop.
Qed.

Lemma other_header_test (l : gostring) :
  other_header l →
  strings.HasPrefix (strings.ToLower l) (lit "host:") = false.
Proof.
  intros (_ & _ & _ & H).
  destruct (strings.HasPrefix _ _) eqn:E; [|done].
  by apply host_test_fold in E.
Qed.

Lemma other_header_intro (l : gostring) :
  is_line l → l ≠ crlf → l ≠ [lf] →
  strings.HasPrefix (strings.ToLower l) (lit "host:") = false →
  other_header l.
Proof.
  intros Hl H1 H2 H3. repeat split; try done.
  intros H%host_test_fold. congruence.
Qed.

Lemma ReadString_is_line (l s : list byte) :
  is_line l → proxy.ReadString (l ++ s) = (l, s, true).
Proof.
  intros (body & -> & Hnl). induction body as [|b body IH].
  - cbn. by rewrite bool_decide_eq_true_2.
  - apply not_elem_of_cons in Hnl as [Hb Hnl].
    cbn. rewrite bool_decide_eq_false_2 by done.
    cbn in IH. by rewrite (IH Hnl).
Qed.

Lemma is_line_length (l : gostring) : is_line l → 1 ≤ length l.
Proof. intros (body & -> & _). rewrite length_app. cbn. lia. Qed.

Lemma lines_length (ls : list gostring) :
  Forall is_line ls → length ls ≤ length (concat ls).
Proof.
  induction 1 as [|l ls Hl _ IH]; [done|].
  apply is_line_length in Hl. cbn [concat length].
  rewrite length_app. lia.
Qed.

Lemma IndexByte_None (s : gostring) (c : byte) :
  c ∉ s → strings.IndexByte s c = None.
Proof.
  induction s as [|b s IH]; [done|].
  intros [Hb Hs]%not_elem_of_cons. cbn.
  rewrite bool_decide_eq_false_2 by done. by rewrite IH.
Qed.

Lemma IndexByte_first (s : gostring) (c : byte) (t : gostring) :
  c ∉ s → strings.IndexByte (s ++ c :: t) c = Some (length s).
Proof.
  induction s as [|b s IH]; intros Hs.
  - cbn. by rewrite bool_decide_eq_true_2.
  - apply not_elem_of_cons in Hs as [Hb Hs]. cbn.
    rewrite bool_decide_eq_false_2 by done. by rewrite IH.
Qed.

Lemma host_byte_facts (c : byte) :
  host_byte c = true →
  byte_val c < 128 ∧ strings.is_space c = false ∧ c ≠ colon ∧ c ≠ lf.
Proof.
  unfold host_byte. intros [[H1 H2]%andb_true_iff H3]%andb_true_iff.
  apply Nat.leb_le in H1, H2.
  apply negb_true_iff, bool_decide_eq_false in H3.
  split; [lia|]. split; [|split; [done|]].
  - unfold strings.is_space.
    rewrite (proj2 (Nat.leb_gt (byte_val c) 13)) by lia.
    rewrite (proj2 (Nat.eqb_neq (byte_val c) 32)) by lia.
    by rewrite andb_false_r.
  - intros ->. vm_compute in H1. lia.
Qed.

Lemma blank_facts (c : byte) :
  blank c = true → strings.is_space c = true ∧ c ≠ lf.
Proof.
  unfold blank.
  intros [->%bool_decide_eq_true| ->%bool_decide_eq_true]%orb_true_iff;
    done.
Qed.

Lemma host_bytes_facts (v : gostring) :
  forallb host_byte v = true → (colon ∉ v) ∧ (lf ∉ v).
Proof.
  induction v as [|c v IH]; [split; apply not_elem_of_nil|].
  cbn [forallb]. intros [Hc Hv]%andb_true_iff.
  apply host_byte_facts in Hc as (_ & _ & H1 & H2).
  destruct (IH Hv). rewrite !not_elem_of_cons. by auto.
Qed.

Lemma blanks_facts (ws : gostring) :
  forallb blank ws = true →
  forallb strings.is_space ws = true ∧ (lf ∉ ws).
Proof.
  induction ws as [|c ws IH]; [split; [done|apply not_elem_of_nil]|].
  cbn [forallb]. intros [Hc Hv]%andb_true_iff.
  apply blank_facts in Hc as [H1 H2]. destruct (IH Hv) as [H3 H4].
  rewrite H1, H3, not_elem_of_cons. by auto.
Qed.

(** A header name that lower-cases to "host:" is five bytes long, ends in
    the ':' and has neither ':' nor '\n' before it. *)
Lemma host_name_shape (name : gostring) :
  strings.ToLower name = lit "host:" →
  ∃ pre, name = pre ++ [colon] ∧ length pre = 4
         ∧ (colon ∉ pre) ∧ (lf ∉ name).
Proof.
  intros H.
  assert (Hnot : ∀ c x, strings.lower_byte c = x → x ≠ colon → x ≠ lf →
                        c ≠ colon ∧ c ≠ lf).
  { intros c x <- H1 H2. split; intros ->; [apply H1|apply H2]; reflexivity. }
  destruct name as [|c1 [|c2 [|c3 [|c4 [|c5 [|c6 name]]]]]];
    try discriminate H.
  injection H as H1 H2 H3 H4 H5.
  apply lower_byte_colon in H5 as ->.
  apply Hnot in H1 as [??]; [|done..]. apply Hnot in H2 as [??]; [|done..].
  apply Hnot in H3 as [??]; [|done..]. apply Hnot in H4 as [??]; [|done..].
  exists [c1; c2; c3; c4]. split; [done|]. split; [done|].
  rewrite !not_elem_of_cons. repeat split; try done; apply not_elem_of_nil.
Qed.

(** The round of the header loop that meets a Host line. *)
Lemma headerLoop_host_line (fuel : nat) (name value rest : gostring) :
  strings.ToLower name = lit "host:" → lf ∉ value →
  proxy.headerLoop (S fuel) ((name ++ value ++ [lf]) ++ rest)
  = Ok (strings.TrimSpace (value ++ [lf]), [name ++ value ++ [lf]]).
Proof.
  intros Hname Hv.
  destruct (host_name_shape name Hname) as (pre & -> & Hpre & Hc & Hnl).
  set (line := (pre ++ [colon]) ++ value ++ [lf]).
  assert (Hline : is_line line).
  { exists ((pre ++ [colon]) ++ value).
    split; [unfold line; by rewrite !app_assoc|].
    rewrite not_elem_of_app. done. }
  assert (Hlen : 6 ≤ length line).
  { unfold line. rewrite !length_app, Hpre. cbn. lia. }
  cbn [proxy.headerLoop]. rewrite (ReadString_is_line _ _ Hline).
  cbn [negb orb].
  destruct (streq line crlf) eqn:E1.
  { apply streq_true in E1. rewrite E1 in Hlen. cbn in Hlen. lia. }
  destruct (streq line [lf]) eqn:E2.
  { apply streq_true in E2. rewrite E2 in Hlen. cbn in Hlen. lia. }
  cbn [orb].
  assert (Hp : strings.HasPrefix (strings.ToLower line) (lit "host:") = true).
  { apply HasPrefix_spec. exists (strings.ToLower (value ++ [lf])).
    unfold line, strings.ToLower in *. by rewrite fmap_app, Hname. }
  rewrite Hp. unfold proxy.afterColon, line.
  rewrite <- !app_assoc. cbn [app].
  rewrite (IndexByte_first pre colon _ Hc), bind_Ok_l.
  replace (S (length pre)) with (length (pre ++ [colon]))
    by (rewrite length_app; cbn; lia).
  replace (pre ++ colon :: value ++ [lf])
    with ((pre ++ [colon]) ++ value ++ [lf]) by (by rewrite <- app_assoc).
  by rewrite drop_app_length.
Qed.

Lemma headerLoop_skips (hdrs : list gostring) (s : list byte)
    (host : gostring) (lines : list gostring) (fuel : nat) :
  Forall other_header hdrs →
  proxy.headerLoop fuel s = Ok (host, lines) →
  proxy.headerLoop (length hdrs + fuel) (concat hdrs ++ s)
  = Ok (host, hdrs ++ lines).
Proof.
  intros Hh Hs. induction Hh as [|l hdrs Ho _ IH]; [done|].
  pose proof (other_header_test l Ho) as H3.
  destruct Ho as (Hl & H1 & H2 & _).
  cbn [length concat Nat.add proxy.headerLoop]. rewrite <- app_assoc.
  rewrite (ReadString_is_line _ _ Hl). cbn [negb orb].
  destruct (streq l crlf) eqn:E1; [by apply streq_true in E1|].
  destruct (streq l [lf]) eqn:E2; [by apply streq_true in E2|].
  cbn [orb]. rewrite H3, IH. reflexivity.
Qed.

(** The host handleHTTP acts on is the value of the first Host header of
    the request head.  The header name is matched without regard to case;
    blanks before the value, and white space or a port after it, are cut
    off; header lines before it are passed over, and nothing that follows
    the Host line has any influence. *)
Lemma httpHost_host_value
    (requestLine : gostring) (hdrs : list gostring)
    (name ws v t rest : gostring) :
  is_line requestLine →
  Forall other_header hdrs →
  host_colon name →
  forallb blank ws = true →
  v ≠ [] → forallb host_byte v = true →
  lf ∉ t →
  (forallb strings.is_space t = true ∨ ∃ p, t = colon :: p) →
  proxy.httpHost (requestLine ++ concat hdrs
                  ++ (name ++ ws ++ v ++ t ++ [lf]) ++ rest)
  = Some v.
Proof.
  intros Hreq Hh Hname%host_colon_ToLower Hws Hne Hv Ht Htail.
  destruct (blanks_facts ws Hws) as [Hsp Hwnl].
  destruct (host_bytes_facts v Hv) as [Hvc Hvnl].
  unfold proxy.httpHost. rewrite (ReadString_is_line _ _ Hreq).
  cbn [negb].
  set (value := ws ++ v ++ t).
  set (s := concat hdrs ++ (name ++ ws ++ v ++ t ++ [lf]) ++ rest).
  assert (Hfuel : ∃ k, S (length s) = length hdrs + S k).
  { exists (length s - length hdrs).
    assert (length hdrs ≤ length s); [|lia].
    unfold s. rewrite length_app.
    etrans; [|apply Nat.le_add_r]. apply lines_length.
    eapply Forall_impl; [exact Hh|]. by intros l [??]. }
  destruct Hfuel as [k ->]. unfold s.
  rewrite (headerLoop_skips hdrs _ (strings.TrimSpace (value ++ [lf]))
             [name ++ value ++ [lf]] (S k) Hh).
  2:{ replace (name ++ ws ++ v ++ t ++ [lf])
        with (name ++ value ++ [lf])
        by (unfold value; by rewrite <- !app_assoc).
      apply headerLoop_host_line; [done|].
      unfold value. rewrite !not_elem_of_app. done. }
  destruct v as [|c v']; [done|]. clear Hne. pose proof Hv as Hall.
  cbn [forallb] in Hv. apply andb_true_iff in Hv as [Hc Hv'].
  apply host_byte_facts in Hc as (Hc1 & Hc2 & Hc3 & Hc4).
  assert (Hval : ∃ t', strings.TrimSpace (value ++ [lf]) = (c :: v') ++ t'
                       ∧ (t' = [] ∨ ∃ p, t' = colon :: p)).
  { unfold strings.TrimSpace, value. rewrite <- !app_assoc. cbn [app].
    rewrite TrimLeft_ascii by done.
    destruct Htail as [Hsp'|[p ->]].
    - exists []. split; [|by left]. rewrite app_nil_r.
      destruct (exists_last (l:=c :: v') ltac:(done)) as (i & c' & Hi).
      assert (Hc' : host_byte c' = true).
      { rewrite Hi, forallb_app in Hall.
        apply andb_true_iff in Hall as [_ Hall]. cbn [forallb] in Hall.
        by rewrite andb_true_r in Hall. }
      apply host_byte_facts in Hc' as (Hc'1 & Hc'2 & _).
      change (c :: v' ++ t ++ [lf]) with ((c :: v') ++ t ++ [lf]).
      rewrite Hi, <- app_assoc. cbn [app].
      destruct (TrimRight_ascii i c' (t ++ [lf]) Hc'1 Hc'2)
        as (t' & -> & Ht').
      rewrite Ht'; [done|]. rewrite forallb_app, Hsp'. done.
    - change (c :: v' ++ (colon :: p) ++ [lf])
        with ((c :: v') ++ colon :: (p ++ [lf])).
      destruct (TrimRight_ascii (c :: v') colon (p ++ [lf]))
        as (t' & -> & _); [by vm_compute; lia|done|].
      exists (colon :: t'). split; [done|]. right. by exists t'. }
  destruct Hval as (t' & -> & Ht').
  cbn [app]. unfold streq. rewrite bool_decide_eq_false_2 by done.
  f_equal. unfold proxy.stripPort.
  destruct Ht' as [->|[p ->]].
  - rewrite app_nil_r, IndexByte_None; [done|].
    rewrite not_elem_of_cons. split; [done|].
    rewrite not_elem_of_cons in Hvc. tauto.
  - change (c :: v' ++ colon :: p) with ((c :: v') ++ colon :: p).
    rewrite IndexByte_first by done. by rewrite take_app_length.
Qed.

(* --------------------------------------------------------------------- *)
(* Where a host that handleHTTP acts on comes from                       *)
(* --------------------------------------------------------------------- *)

Lemma ReadString_true_is_line (s line rest : list byte) :
  proxy.ReadString s = (line, rest, true) → is_line line.
Proof.
  revert line rest. induction s as [|b s IH]; intros line rest; simpl.
  - discriminate.
  - case_bool_decide as Hb.
    + intros [= <- <-]. subst b. exists []. split; [done|].
      apply not_elem_of_nil.
    + destruct (proxy.ReadString s) as [[l r] o]. intros [= <- <- ->].
      destruct (IH l r eq_refl) as (body & -> & Hnl).
      exists (b :: body). split; [done|].
      rewrite not_elem_of_cons. split; [congruence|done].
Qed.

(** A line that passes the "host:" test: five bytes that lower-case to
    "host:", the fifth being the first ':' of the line, and the value. *)
Lemma host_line_split (line : gostring) :
  strings.HasPrefix (strings.ToLower line) (lit "host:") = true →
  ∃ name value,
    line = name ++ value
    ∧ host_colon name
    ∧ proxy.afterColon line = Ok value.
Proof.
  intros [k Hk]%HasPrefix_spec.
  exists (take 5 line), (drop 5 line).
  assert (Hname : strings.ToLower (take 5 line) = lit "host:").
  { unfold strings.ToLower in *. by rewrite fmap_take, Hk. }
  split; [by rewrite take_drop|]. split; [by apply host_colon_ToLower|].
  destruct (host_name_shape _ Hname) as (pre & Hpre & Hlen & Hc & _).
  unfold proxy.afterColon.
  assert (Hline : line = pre ++ colon :: drop 5 line).
  { rewrite <- (take_drop 5 line) at 1. by rewrite Hpre, <- app_assoc. }
  rewrite Hline at 1. rewrite (IndexByte_first pre colon _ Hc), Hlen.
  reflexivity.
Qed.

Lemma headerLoop_inv (fuel : nat) (s : list byte) (host : gostring)
    (lines : list gostring) :
  proxy.headerLoop fuel s = Ok (host, lines) → host ≠ [] →
  ∃ hdrs name value rest,
    s = concat hdrs ++ (name ++ value) ++ rest
    ∧ Forall other_header hdrs
    ∧ host_colon name
    ∧ is_line (name ++ value)
    ∧ host = strings.TrimSpace value.
Proof.
  revert s lines. induction fuel as [|fuel IH]; intros s lines; simpl.
  - by intros [= <- <-].
  - destruct (proxy.ReadString s) as [[line rest] ok] eqn:Hr.
    destruct ok; cbn [negb orb]; [|by intros [= <- <-]].
    pose proof (ReadString_true_is_line _ _ _ Hr) as Hline.
    apply ReadString_app in Hr as ->.
    destruct (streq line crlf) eqn:E1; [by intros [= <- <-]|].
    destruct (streq line [lf]) eqn:E2; [by intros [= <- <-]|].
    cbn [orb].
    destruct (strings.HasPrefix _ _) eqn:Hp.
    + destruct (host_line_split line Hp) as (name & value & -> & Hn & ->).
      simpl. intros [= <- <-] _.
      exists [], name, value, rest.
      split; [done|]. split; [apply Forall_nil_2|]. done.
    + destruct (proxy.headerLoop fuel rest) as [[h ls]| |] eqn:Hl;
        simpl; try discriminate.
      intros [= <- <-] Hh.
      destruct (IH _ _ Hl Hh) as (hdrs & name & value & rest' & -> & Hhdrs
                                  & Hn & Hv & ->).
      exists (line :: hdrs), name, value, rest'.
      cbn [concat].
      split; [by rewrite <- !app_assoc|]. split; [|done].
      apply Forall_cons. split; [|done].
      apply other_header_intro; [done| | |done].
      * intros ->. by vm_compute in E1.
      * intros ->. by vm_compute in E2.
Qed.

Lemma httpHost_inv (stream : list byte) (h : gostring) :
  proxy.httpHost stream = Some h →
  ∃ requestLine hdrs name value rest,
    stream = requestLine ++ concat hdrs ++ (name ++ value) ++ rest
    ∧ is_line requestLine
    ∧ Forall other_header hdrs
    ∧ host_colon name
    ∧ is_line (name ++ value)
    ∧ strings.TrimSpace value ≠ []
    ∧ h = proxy.stripPort (strings.TrimSpace value).
Proof.
  unfold proxy.httpHost.
  destruct (proxy.ReadString stream) as [[requestLine rest] ok] eqn:Hr.
  destruct ok; cbn [negb]; [|discriminate].
  pose proof (ReadString_true_is_line _ _ _ Hr) as Hline.
  apply ReadString_app in Hr as ->.
  destruct (proxy.headerLoop (S (length rest)) rest)
    as [[host ls]| |] eqn:Hl;
    try discriminate.
  destruct (streq host []) eqn:Hh; [discriminate|]. intros [= <-].
  assert (Hne : host ≠ []) by (intros ->; by vm_compute in Hh).
  destruct (headerLoop_inv _ _ _ _ Hl Hne)
    as (hdrs & name & value & rest' & -> & Hhdrs & Hn & Hv & ->).
  exists requestLine, hdrs, name, value, rest'. done.
Qed.

(** C7, amended. For every input from which a host name is extracted, the
    name returned is a run of bytes of the input, unchanged.  In TLS mode
    it is returned exactly when the first read has the layout
    [hello_within] with that name in the name field, as ExtractSNI walks
    the input, of the first entry of the first extension of type 0.  In
    HTTP mode it is the value of the first Host header of the request
    head, what follows the first ':' of that line, with the white space
    around it trimmed and everything from its own first ':' on cut off,
    and nothing else done to it: a value made of printable bytes other
    than ':', capitals and a trailing dot included, comes back byte for
    byte.  Lower-casing and the stripping of one trailing dot are left to
    the matcher, whose verdict is the same for any two names with the same
    normal form. *)
Theorem extractors_return_input_bytes :
  (∀ avail h,
     proxy.tlsHost avail = Ok h ↔ hello_within (take proxy.bufSize avail) h)
  ∧ (∀ avail h, proxy.tlsHost avail = Ok h → occurs_in h avail)
  ∧ (∀ stream h,
       proxy.httpHost stream = Some h →
       occurs_in h stream
       ∧ ∃ requestLine hdrs name value rest,
           stream = requestLine ++ concat hdrs ++ (name ++ value) ++ rest
           ∧ is_line requestLine
           ∧ Forall other_header hdrs
           ∧ host_colon name
           ∧ is_line (name ++ value)
           ∧ strings.TrimSpace value ≠ []
           ∧ h = proxy.stripPort (strings.TrimSpace value))
  ∧ (∀ requestLine hdrs name ws v t rest,
       is_line requestLine →
       Forall other_header hdrs →
       host_colon name →
       forallb blank ws = true →
       v ≠ [] → forallb host_byte v = true →
       lf ∉ t →
       (forallb strings.is_space t = true ∨ ∃ p, t = colon :: p) →
       proxy.httpHost (requestLine ++ concat hdrs
                       ++ (name ++ ws ++ v ++ t ++ [lf]) ++ rest)
       = Some v)
  ∧ (∀ h h' rules, normalize h = normalize h' →
       isBlocked h rules = isBlocked h' rules).
Proof.
  split; [|split; [|split; [|split]]].
  - intros avail h. split; [apply tlsHost_within|apply tlsHost_complete].
  - intros avail h Hh. apply tlsHost_within in Hh.
    eapply occurs_in_trans; [by apply hello_within_occurs|].
    apply occurs_in_take.
  - intros stream h Hh. split; [by apply httpHost_occurs|].
    by apply httpHost_inv.
  - apply httpHost_host_value.
  - apply isBlocked_normalize.
Qed.

(** The SNI value and the Host value Example.COM., the latter behind the
    header name HOST, two blanks, and in front of a port. *)
Lemma extractors_return_input_bytes_witness :
  hello_within
    (take proxy.bufSize
       (sni_test.buildSimpleClientHello (lit "Example.COM.")))
    (lit "Example.COM.")
  ∧ proxy.httpHost
      ((lit "GET / HTTP/1.1" ++ crlf)
       ++ concat [lit "Accept: */*" ++ crlf]
       ++ (lit "HOST:" ++ lit "  " ++ lit "Example.COM."
           ++ (colon :: lit "8080" ++ [cr]) ++ [lf])
       ++ crlf ++ lit "Host: example.org" ++ crlf)
    = Some (lit "Example.COM.")
  ∧ isBlocked (lit "Example.COM.") [lit "example.com"]
    = isBlocked (lit "example.com") [lit "example.com"].
Proof.
  destruct extractors_return_input_bytes
    as (Htls & _ & _ & Hhttp & Hnorm).
  split; [|split].
  - apply Htls. vm_compute. reflexivity.
  - apply Hhttp.
    + exists (lit "GET / HTTP/1.1" ++ [cr]). split; [reflexivity|].
      apply (bool_decide_unpack _). vm_compute. exact I.
    + apply Forall_cons. split; [|apply Forall_nil_2].
      apply other_header_intro.
      * exists (lit "Accept: */*" ++ [cr]). split; [reflexivity|].
        apply (bool_decide_unpack _). vm_compute. exact I.
      * vm_compute. congruence.
      * vm_compute. congruence.
      * vm_compute. reflexivity.
    + apply host_colon_ToLower. vm_compute. reflexivity.
    + vm_compute. reflexivity.
    + vm_compute. congruence.
    + vm_compute. reflexivity.
    + apply (bool_decide_unpack _). vm_compute. exact I.
    + right. eexists. reflexivity.
  - apply Hnorm. vm_compute. reflexivity.
Defined.

(* --------------------------------------------------------------------- *)
(* Both extractors decide on a prefix of what the client sends           *)
(* --------------------------------------------------------------------- *)

Lemma carry_within_app (n : nat) (exts extra : list byte) (h : gostring) :
  carry_within n exts h → carry_within n (exts ++ extra) h.
Proof.
  induction 1 as [n t0 t1 l0 l1 body rest h Hn Ht Hb Hs
                 |n t0 t1 l0 l1 body rest h Hn Ht Hb _ IH];
    rewrite <- !app_assoc.
  - by apply within_here.
  - by apply within_later.
Qed.

Lemma hello_within_app (d extra : list byte) (h : gostring) :
  hello_within d h → hello_within (d ++ extra) h.
Proof.
  intros (v0 & v1 & r0 & r1 & hl & fixed & sidLen & sid & c0 & c1 & cs
          & cmLen & cm & e0 & e1 & exts & -> & Hrec & Hhl & Hfx & Hsid
          & Hcs & Hcm & Hext).
  exists v0, v1, r0, r1, hl, fixed, sidLen, sid, c0, c1, cs, cmLen, cm,
    e0, e1, (exts ++ extra).
  split; [by rewrite <- !app_assoc|].
  split; [rewrite length_app; lia|].
  repeat (split; [done|]). by apply carry_within_app.
Qed.

Lemma ReadString_more (s extra line rest : list byte) :
  proxy.ReadString s = (line, rest, true) →
  proxy.ReadString (s ++ extra) = (line, rest ++ extra, true).
Proof.
  revert line rest. induction s as [|b s IH]; intros line rest; cbn.
  - discriminate.
  - case_bool_decide; [by intros [= <- <-]|].
    destruct (proxy.ReadString s) as [[l r] o]. intros [= <- <- ->].
    by rewrite (IH l r eq_refl).
Qed.

Lemma headerLoop_more (fuel : nat) (s extra : list byte) (host : gostring)
    (lines : list gostring) :
  proxy.headerLoop fuel s = Ok (host, lines) → host ≠ [] →
  proxy.headerLoop fuel (s ++ extra) = Ok (host, lines).
Proof.
  revert s lines. induction fuel as [|fuel IH]; intros s lines;
    cbn [proxy.headerLoop].
  - by intros [= <- <-].
  - destruct (proxy.ReadString s) as [[line rest] ok] eqn:Hr.
    destruct ok; [|by intros [= <- <-]].
    rewrite (ReadString_more _ extra _ _ Hr). cbn [negb orb].
    destruct (streq line crlf || streq line [lf]); [by intros [= <- <-]|].
    destruct (strings.HasPrefix _ _); [done|].
    destruct (proxy.headerLoop fuel rest) as [[h ls]| |] eqn:Hl;
      cbn; try discriminate.
    intros [= <- <-] Hh. by rewrite (IH _ _ Hl Hh).
Qed.

(** X12. A host name, once extracted, is not changed by anything the
    client sends after it: ExtractSNI returns the same name when more
    bytes follow the input in the same slice, and the HTTP handler's host
    is the same when more bytes follow on the stream. *)
Theorem extractors_decide_on_a_prefix :
  (∀ d extra h,
     sni.ExtractSNI (of_bytes d) = Ok h →
     sni.ExtractSNI (of_bytes (d ++ extra)) = Ok h)
  ∧ (∀ stream extra h,
       proxy.httpHost stream = Some h →
       proxy.httpHost (stream ++ extra) = Some h).
Proof.
  split.
  - intros d extra h H.
    assert (Hwf : ∀ l, len (of_bytes l) ≤ cap (of_bytes l)) by done.
    assert (Hb : ∀ l, bytes_of (of_bytes l) = l)
      by (intros l; unfold bytes_of, of_bytes; cbn [arr len];
          apply firstn_all).
    apply ExtractSNI_within in H; [|done]. rewrite Hb in H.
    apply ExtractSNI_complete; [done|]. rewrite Hb.
    by apply hello_within_app.
  - intros stream extra h. unfold proxy.httpHost.
    destruct (proxy.ReadString stream) as [[requestLine rest] ok] eqn:Hr.
    destruct ok; [|done]. rewrite (ReadString_more _ extra _ _ Hr).
    cbn [negb].
    destruct (proxy.headerLoop (S (length rest)) rest)
      as [[host lines]| |] eqn:Hl; [|done..].
    destruct (streq host []) eqn:Hh; [done|]. intros [= <-].
    assert (Hne : host ≠ []) by (intros ->; by vm_compute in Hh).
    rewrite (headerLoop_fuel _ (S (length (rest ++ extra))) rest) in Hl;
      [|lia|rewrite length_app; lia].
    by rewrite (headerLoop_more _ _ extra _ _ Hl Hne), Hh.
Qed.

Lemma extractors_decide_on_a_prefix_witness :
  sni.ExtractSNI
    (of_bytes (sni_test.buildSimpleClientHello (lit "example.com")
               ++ lit "more"))
  = Ok (lit "example.com")
  ∧ proxy.httpHost (get_example_org ++ lit "more")
    = Some (lit "example.org").
Proof.
  destruct extractors_decide_on_a_prefix as [Htls Hhttp].
  split.
  - apply Htls. vm_compute. reflexivity.
  - apply Hhttp. vm_compute. reflexivity.
Defined.

(* --------------------------------------------------------------------- *)
(* The matcher: what its verdict does and does not depend on             *)
(* --------------------------------------------------------------------- *)

(** X13. The verdict depends on the set of rules only: order and
    repetition make no difference, and a host blocked by a list is blocked
    by every list that holds the same rules and more. *)
Theorem isBlocked_depends_on_the_rule_set (h : gostring)
    (rules rules' : list gostring) :
  ((∀ r, r ∈ rules → r ∈ rules') →
   isBlocked h rules = true → isBlocked h rules' = true)
  ∧ ((∀ r, r ∈ rules ↔ r ∈ rules') →
     isBlocked h rules = isBlocked h rules').
Proof.
  assert (Hmono : ∀ l l', (∀ r, r ∈ l → r ∈ l') →
            isBlocked h l = true → isBlocked h l' = true).
  { intros l l' Hsub. rewrite !isBlocked_matches.
    intros (r & Hin & Hm). exists r. auto. }
  split; [apply Hmono|].
  intros Heq.
  destruct (isBlocked h rules) eqn:H1.
  - symmetry. apply (Hmono rules rules'); [|done]. intros r. apply Heq.
  - destruct (isBlocked h rules') eqn:H2; [|done].
    rewrite <- H1. apply (Hmono rules' rules); [|done]. intros r. apply Heq.
Qed.

Lemma isBlocked_depends_on_the_rule_set_witness :
  isBlocked (lit "old.reddit.com")
    [lit "youtube.com"; lit "reddit.com"; lit "youtube.com"]
  = isBlocked (lit "old.reddit.com") [lit "reddit.com"; lit "youtube.com"].
Proof.
  apply isBlocked_depends_on_the_rule_set.
  intros r. rewrite !elem_of_cons. tauto.
Defined.

Lemma lower_byte_idemp (c : byte) :
  strings.lower_byte (strings.lower_byte c) = strings.lower_byte c.
Proof. by destruct c. Qed.

Lemma lower_byte_dot (c : byte) : strings.lower_byte c = x2e ↔ c = x2e.
Proof. split; [|by intros ->]. by destruct c. Qed.

Lemma ToLower_idemp (s : gostring) :
  strings.ToLower (strings.ToLower s) = strings.ToLower s.
Proof.
  unfold strings.ToLower. rewrite <- list_fmap_compose.
  apply list_fmap_ext. intros _ c _. apply lower_byte_idemp.
Qed.

Lemma HasSuffix_dot_ToLower (s : gostring) :
  strings.HasSuffix (strings.ToLower s) dot = strings.HasSuffix s dot.
Proof.
  assert (Hiff : dot `suffix_of` strings.ToLower s ↔ dot `suffix_of` s).
  { unfold strings.ToLower. split.
    - intros [k Hk].
      apply fmap_app_inv in Hk as (k' & d' & -> & Hd & ->).
      destruct d' as [|c [|??]]; try discriminate Hd.
      injection Hd as Hd. symmetry in Hd.
      apply lower_byte_dot in Hd as ->. by exists k'.
    - intros [k ->]. exists (strings.lower_byte <$> k).
      by rewrite fmap_app. }
  destruct (strings.HasSuffix s dot) eqn:E.
  - apply HasSuffix_spec, Hiff, HasSuffix_spec, E.
  - destruct (strings.HasSuffix (strings.ToLower s) dot) eqn:E'; [|done].
    apply HasSuffix_spec, Hiff, HasSuffix_spec in E'. congruence.
Qed.

Lemma normalize_ToLower (s : gostring) :
  normalize (strings.ToLower s) = normalize s.
Proof.
  unfold normalize, strings.TrimSuffix. rewrite HasSuffix_dot_ToLower.
  destruct (strings.HasSuffix s dot).
  - unfold strings.ToLower. rewrite length_fmap, <- fmap_take.
    apply ToLower_idemp.
  - apply ToLower_idemp.
Qed.

Lemma normalize_trailing_dot (s : gostring) :
  strings.HasSuffix s dot = false → normalize (s ++ dot) = normalize s.
Proof.
  intros Hs. unfold normalize, strings.TrimSuffix. rewrite Hs.
  assert (H : strings.HasSuffix (s ++ dot) dot = true)
    by (apply HasSuffix_spec; by exists s).
  rewrite H, length_app. change (length dot) with 1.
  replace (length s + 1 - 1) with (length s) by lia.
  by rewrite take_app_length.
Qed.

Lemma isBlocked_loop_rules (host : gostring) (rules rules' : list gostring) :
  normalize <$> rules = normalize <$> rules' →
  isBlocked_loop host rules = isBlocked_loop host rules'.
Proof.
  revert rules'. induction rules as [|r rules IH]; intros [|r' rules'];
    try discriminate; [done|].
  intros [= Hr Hrest]. cbn [isBlocked_loop]. unfold rule_hits.
  by rewrite Hr, (IH rules' Hrest).
Qed.

(** X14. On ASCII names the verdict does not depend on the case of the
    host or of the rules, nor on one trailing dot: a host and the same
    host in lower case, or with a dot appended, get the same verdict, and
    so does a rule list and its lower-cased copy. *)
Theorem isBlocked_ignores_case_and_trailing_dot (h : gostring)
    (rules : list gostring) :
  ascii h → Forall ascii rules →
  isBlocked (strings.ToLower h) rules = isBlocked h rules
  ∧ isBlocked h (strings.ToLower <$> rules) = isBlocked h rules
  ∧ (strings.HasSuffix h dot = false →
     isBlocked (h ++ dot) rules = isBlocked h rules).
Proof.
  intros _ _. split; [|split].
  - apply isBlocked_normalize, normalize_ToLower.
  - unfold isBlocked. apply isBlocked_loop_rules.
    rewrite <- list_fmap_compose. apply list_fmap_ext.
    intros _ r _. apply normalize_ToLower.
  - intros Hs. by apply isBlocked_normalize, normalize_trailing_dot.
Qed.

Lemma isBlocked_ignores_case_and_trailing_dot_witness :
  isBlocked (lit "Old.Reddit.COM" ++ dot) [lit "reddit.com"]
  = isBlocked (lit "Old.Reddit.COM") [lit "reddit.com"].
Proof.
  apply isBlocked_ignores_case_and_trailing_dot.
  - apply (bool_decide_unpack _). vm_compute. exact I.
  - apply (bool_decide_unpack _). vm_compute. exact I.
  - vm_compute. reflexivity.
Defined.

Lemma suffix_dot_app (a b : gostring) :
  b ≠ [] → dot `suffix_of` (a ++ b) ↔ dot `suffix_of` b.
Proof.
  intros Hb. split.
  - intros [k Hk].
    destruct (exists_last Hb) as (b' & c & ->).
    rewrite app_assoc in Hk. apply app_inj_tail in Hk as [_ ->].
    by exists b'.
  - intros [k ->]. exists (a ++ k). by rewrite app_assoc.
Qed.

Lemma TrimSuffix_dot_app (a b : gostring) :
  b ≠ [] →
  strings.TrimSuffix (a ++ b) dot = a ++ strings.TrimSuffix b dot.
Proof.
  intros Hb. unfold strings.TrimSuffix.
  destruct (strings.HasSuffix b dot) eqn:E.
  - assert (E' : strings.HasSuffix (a ++ b) dot = true)
      by (apply HasSuffix_spec, suffix_dot_app, HasSuffix_spec, E; done).
    rewrite E'. apply HasSuffix_spec in E as [k ->].
    rewrite !length_app. change (length dot) with 1.
    replace (length a + (length k + 1) - 1) with (length (a ++ k))
      by (rewrite length_app; lia).
    replace (length k + 1 - 1) with (length k) by lia.
    by rewrite app_assoc, !take_app_length.
  - destruct (strings.HasSuffix (a ++ b) dot) eqn:E'; [|done].
    apply HasSuffix_spec, suffix_dot_app, HasSuffix_spec in E'; [|done].
    congruence.
Qed.

Lemma normalize_app (a b : gostring) :
  b ≠ [] → normalize (a ++ b) = strings.ToLower a ++ normalize b.
Proof.
  intros Hb. unfold normalize. rewrite TrimSuffix_dot_app by done.
  unfold strings.ToLower. by rewrite fmap_app.
Qed.

Lemma matches_rule_longer (pre host x : gostring) :
  matches_rule host x → matches_rule (pre ++ dot ++ host) x.
Proof.
  intros [->|[k ->]]; right.
  - by exists pre.
  - exists (pre ++ dot ++ k). by rewrite <- !app_assoc.
Qed.

(** X15. Blocking is closed under subdomains: an ASCII host that is
    blocked stays blocked under every label, or run of labels, put in
    front of it. *)
Theorem isBlocked_subdomains (h sub : gostring) (rules : list gostring) :
  ascii h → ascii sub →
  h ≠ [] →
  isBlocked h rules = true →
  isBlocked (sub ++ dot ++ h) rules = true.
Proof.
  intros _ _ Hh. rewrite !isBlocked_matches.
  intros (r & Hin & Hm). exists r. split; [done|].
  unfold rule_matches in *.
  rewrite (normalize_app sub (dot ++ h)) by done.
  rewrite (normalize_app dot h) by done.
  change (strings.ToLower dot) with dot.
  destruct Hm as [Hm|[Hp Hm]].
  - left. by apply matches_rule_longer.
  - right. split; [done|]. by apply matches_rule_longer.
Qed.

Lemma isBlocked_subdomains_witness :
  isBlocked (lit "a.b" ++ dot ++ lit "Reddit.com") [lit "reddit.com"] = true.
Proof.
  apply isBlocked_subdomains.
  - apply (bool_decide_unpack _). vm_compute. exact I.
  - apply (bool_decide_unpack _). vm_compute. exact I.
  - vm_compute. congruence.
  - vm_compute. reflexivity.
Defined.

(** X16. A rule written with a leading "www." blocks the whole bare
    domain: for an ASCII rule r in normal form that does not itself begin
    with "www.", the rule www.r blocks exactly the hosts that the rule r
    blocks, r itself and all of its other subdomains included. *)
Theorem www_rule_blocks_the_bare_domain (r h : gostring)
    (rules : list gostring) :
  ascii r →
  DomainRule r → r ≠ [] → strings.HasPrefix r www = false →
  isBlocked h ((www ++ r) :: rules) = isBlocked h (r :: rules).
Proof.
  intros _ Hr Hne Hw.
  assert (Hiff : rule_matches h (www ++ r) ↔ rule_matches h r).
  { unfold rule_matches. rewrite (normalize_app www r) by done.
    change (strings.ToLower www) with www. rewrite Hr.
    change 4 with (length www). rewrite drop_app_length.
    split.
    - intros [[->|Hs]|[_ Hm]]; [| |by left].
      + left. right. by exists (lit "www").
      + left. right. etrans; [|exact Hs].
        exists (dot ++ lit "www"). by rewrite <- !app_assoc.
    - intros [Hm|[Hp _]].
      + right. split; [by exists r | done].
      + apply HasPrefix_spec in Hp. congruence. }
  unfold isBlocked. cbn [isBlocked_loop].
  destruct (rule_hits (normalize h) (www ++ r)) eqn:E1.
  - apply rule_hits_spec, Hiff, rule_hits_spec in E1. by rewrite E1.
  - destruct (rule_hits (normalize h) r) eqn:E2; [|done].
    apply rule_hits_spec, Hiff, rule_hits_spec in E2. congruence.
Qed.

Lemma www_rule_blocks_the_bare_domain_witness :
  isBlocked (lit "mail.example.com") [www ++ lit "example.com"]
  = isBlocked (lit "mail.example.com") [lit "example.com"].
Proof.
  apply www_rule_blocks_the_bare_domain; [|vm_compute; congruence..].
  apply (bool_decide_unpack _). vm_compute. exact I.
Defined.

(* --------------------------------------------------------------------- *)
(* internal/dns and the names the resolver asks for                      *)
(* --------------------------------------------------------------------- *)

Lemma domainText_variants (domain : gostring) :
  dns.domainText domain
  = concat (addressLine <$> resolver.GetDomainVariants domain).
Proof.
  unfold dns.domainText, resolver.GetDomainVariants, addressLine.
  destruct (strings.HasPrefix domain www); cbn [negb fmap list_fmap app concat];
    by rewrite ?app_nil_r.
Qed.

Lemma rulesText_variants (domains : list gostring) :
  dns.rulesText domains
  = dns.header ++ concat (addressLine <$> allVariants domains).
Proof.
  unfold dns.rulesText, allVariants.
  generalize dns.header. induction domains as [|d domains IH]; intros acc.
  - cbn. by rewrite app_nil_r.
  - cbn [foldl fmap list_fmap concat]. rewrite IH, domainText_variants.
    by rewrite fmap_app, concat_app, app_assoc.
Qed.

Lemma lookups_made_variants LookupIP (domains : list gostring) :
  (∀ q, q ∈ lookups_made LookupIP domains → q ∈ allVariants domains)
  ∧ ((∀ d, d ∈ domains → is_Some (LookupIP d)) →
     lookups_made LookupIP domains = allVariants domains).
Proof.
  unfold allVariants. induction domains as [|d domains [IH1 IH2]].
  - split; [done|done].
  - cbn [lookups_made fmap list_fmap concat].
    unfold resolver.GetDomainVariants at 1 3. split.
    + intros q [Hq|Hq]%elem_of_app; apply elem_of_app; [left|right; auto].
      destruct (LookupIP d); destruct (strings.HasPrefix d www);
        cbn [negb] in *; try done.
      apply list_elem_of_singleton in Hq as ->. apply list_elem_of_here.
    + intros Hall. rewrite IH2 by (intros; apply Hall; by right).
      destruct (Hall d) as [ips ->]; [by left|].
      by destruct (strings.HasPrefix d www).
Qed.

(** X17. The DNS layer and the resolver deal with the same names.  The
    dnsmasq file written for a blocklist is the fixed header followed by
    one address line for each variant of each rule, as GetDomainVariants
    lists them, in blocklist order; Resolve asks the system resolver for
    no name outside that list, and for exactly that list when every rule
    resolves. *)
Theorem dns_and_resolver_cover_the_same_names
    (LookupIP : gostring → option (list resolver.IP))
    (IPString : resolver.IP → gostring) (domains : list gostring) :
  dns.rulesText domains
  = dns.header ++ concat (addressLine <$> allVariants domains)
  ∧ (∀ q, q ∈ resolver.queried
                (resolver.resolveAll LookupIP IPString domains) →
          q ∈ allVariants domains)
  ∧ ((∀ d, d ∈ domains → is_Some (LookupIP d)) →
     resolver.queried (resolver.resolveAll LookupIP IPString domains)
     = allVariants domains).
Proof.
  destruct (Resolve_union_aux LookupIP IPString domains) as [Hq _].
  destruct (lookups_made_variants LookupIP domains) as [H1 H2].
  rewrite Hq. split; [apply rulesText_variants|]. split; [done|done].
Qed.

Lemma dns_and_resolver_cover_the_same_names_witness :
  resolver.queried
    (resolver.resolveAll (λ _, Some []) id [lit "a.com"; lit "www.b.org"])
  = allVariants [lit "a.com"; lit "www.b.org"].
Proof.
  apply (dns_and_resolver_cover_the_same_names (λ _, Some []) id
           [lit "a.com"; lit "www.b.org"]).
  intros d _. by exists [].
Defined.

Lemma dns_ApplyRules_ok Dir m domains fs fs' :
  dns.ApplyRules Dir m domains fs = (None, fs') →
  (dns.configPath m ∉ os.faulty fs)
  ∧ fs' = os.mkFS (<[dns.configPath m := dns.rulesText domains]>
                     (os.files fs)) (os.faulty fs).
Proof.
  unfold dns.ApplyRules, os.WriteFile.
  destruct (os.MkdirAll fs _); [discriminate|].
  destruct (decide _); [discriminate|]. by intros [= <-].
Qed.

Lemma ReadFile_other fs p q data :
  p ≠ q →
  os.ReadFile (os.mkFS (<[q := data]> (os.files fs)) (os.faulty fs)) p
  = os.ReadFile fs p.
Proof.
  intros Hp. unfold os.ReadFile. cbn [os.files os.faulty].
  by rewrite lookup_insert_ne.
Qed.

(** X18. dns.ApplyRules, when it succeeds, leaves the configuration file
    holding exactly the text for the list given, whatever the file held
    before, and leaves every other file alone; IsConfigured then reports
    true; applying the same list again changes nothing, and a later
    UpdateRules with another list succeeds and replaces the whole file. *)
Theorem dns_ApplyRules_replaces_the_file (Dir : gostring → gostring)
    (m : dns.Manager) (domains : list gostring) (fs fs' : os.FS) :
  dns.ApplyRules Dir m domains fs = (None, fs') →
  os.ReadFile fs' (dns.configPath m) = inr (dns.rulesText domains)
  ∧ dns.IsConfigured m fs' = true
  ∧ (∀ p, p ≠ dns.configPath m → os.ReadFile fs' p = os.ReadFile fs p)
  ∧ dns.ApplyRules Dir m domains fs' = (None, fs')
  ∧ (∀ domains', ∃ fs'',
       dns.UpdateRules Dir m domains' fs' = (None, fs'')
       ∧ os.ReadFile fs'' (dns.configPath m)
         = inr (dns.rulesText domains')).
Proof.
  intros H. pose proof H as Hcopy.
  apply dns_ApplyRules_ok in H as [Hf ->].
  assert (Hdir : os.MkdirAll fs (Dir (dns.configPath m)) = None).
  { unfold dns.ApplyRules in Hcopy.
    by destruct (os.MkdirAll fs _). }
  assert (Hagain : ∀ ds files,
    dns.ApplyRules Dir m ds (os.mkFS files (os.faulty fs))
    = (None, os.mkFS (<[dns.configPath m := dns.rulesText ds]> files)
               (os.faulty fs))).
  { intros ds files. unfold dns.ApplyRules, os.WriteFile, os.MkdirAll in *.
    cbn [os.files os.faulty].
    destruct (decide (Dir (dns.configPath m) ∈ os.faulty fs));
      [done|].
    by rewrite decide_False. }
  assert (Hread : ∀ ds files,
    os.ReadFile (os.mkFS (<[dns.configPath m := dns.rulesText ds]> files)
                   (os.faulty fs)) (dns.configPath m)
    = inr (dns.rulesText ds)).
  { intros ds files. unfold os.ReadFile. cbn [os.files os.faulty].
    by rewrite lookup_insert_eq, decide_False. }
  split; [apply Hread|]. split; [|split; [|split]].
  - unfold dns.IsConfigured, os.Stat. cbn [os.files os.faulty].
    by rewrite lookup_insert_eq, decide_False.
  - intros p Hp. by apply ReadFile_other.
  - rewrite Hagain. by rewrite insert_insert_eq.
  - intros ds'. eexists. unfold dns.UpdateRules. rewrite Hagain.
    split; [done|]. apply Hread.
Qed.

Lemma dns_ApplyRules_replaces_the_file_witness :
  os.ReadFile
    (dns.ApplyRules id (dns.New (lit "/run/focusd/dnsmasq.conf"))
       [lit "reddit.com"] no_files).2
    (lit "/run/focusd/dnsmasq.conf")
  = inr (dns.rulesText [lit "reddit.com"]).
Proof.
  apply (dns_ApplyRules_replaces_the_file id
           (dns.New (lit "/run/focusd/dnsmasq.conf")) [lit "reddit.com"]
           no_files).
  vm_compute. reflexivity.
Defined.

(** X19. dns.RemoveRules is tolerant and idempotent.  With no
    configuration file it succeeds and changes nothing; whenever it
    succeeds, IsConfigured reports false afterwards, every other file is
    as before, and removing again succeeds; it fails only on a file that
    exists and cannot be removed.  After a successful ApplyRules it
    succeeds. *)
Theorem dns_RemoveRules_tolerant (Dir : gostring → gostring)
    (m : dns.Manager) (fs : os.FS) :
  (os.files fs !! dns.configPath m = None →
   dns.RemoveRules m fs = (None, fs))
  ∧ (∀ fs', dns.RemoveRules m fs = (None, fs') →
       dns.IsConfigured m fs' = false
       ∧ dns.RemoveRules m fs' = (None, fs')
       ∧ (∀ p, p ≠ dns.configPath m →
               os.ReadFile fs' p = os.ReadFile fs p))
  ∧ (∀ e fs', dns.RemoveRules m fs = (Some e, fs') →
       fs' = fs ∧ is_Some (os.files fs !! dns.configPath m)
       ∧ dns.configPath m ∈ os.faulty fs)
  ∧ (∀ domains fs0 , dns.ApplyRules Dir m domains fs0 = (None, fs) →
       ∃ fs', dns.RemoveRules m fs = (None, fs')).
Proof.
  unfold dns.RemoveRules, os.Remove, dns.IsConfigured, os.Stat.
  split; [by intros ->|]. split; [|split].
  - intros fs'.
    destruct (os.files fs !! dns.configPath m) as [data|] eqn:Hf.
    + destruct (decide _); [discriminate|]. intros [= <-].
      cbn [os.files os.faulty]. rewrite lookup_delete_eq.
      split; [done|]. split; [done|].
      intros p Hp. unfold os.ReadFile. cbn [os.files os.faulty].
      by rewrite lookup_delete_ne.
    + cbn [os.IsNotExist negb]. intros [= <-]. by rewrite Hf.
  - intros e fs'.
    destruct (os.files fs !! dns.configPath m) as [data|] eqn:Hf;
      [|discriminate].
    destruct (decide _); [|discriminate]. intros [= <- <-]. eauto.
  - intros domains fs0 [Hf ->]%dns_ApplyRules_ok.
    cbn [os.files os.faulty]. rewrite lookup_insert_eq.
    rewrite decide_False by done. eauto.
Qed.

Lemma dns_RemoveRules_tolerant_witness :
  dns.RemoveRules (dns.New (lit "/run/focusd/dnsmasq.conf")) no_files
  = (None, no_files).
Proof.
  apply (dns_RemoveRules_tolerant id
           (dns.New (lit "/run/focusd/dnsmasq.conf")) no_files).
  vm_compute. reflexivity.
Defined.

(* --------------------------------------------------------------------- *)
(* internal/state: more about the state file                             *)
(* --------------------------------------------------------------------- *)

Lemma TrimSpace_token (ws1 ws2 tok : gostring) (c c' : byte)
    (mid : gostring) :
  tok = c :: mid ++ [c'] →
  forallb strings.is_space ws1 = true →
  forallb strings.is_space ws2 = true →
  byte_val c < 128 → strings.is_space c = false →
  byte_val c' < 128 → strings.is_space c' = false →
  strings.TrimSpace (ws1 ++ tok ++ ws2) = tok.
Proof. intros ->. apply TrimSpace_ascii. Qed.

(** X20. IsEnabled reads the token through any ASCII white space around
    it: blanks, tabs, carriage returns and newlines before or after
    "enabled" leave the state enabled, and around "disabled" leave it
    disabled; String reports the same. *)
Theorem IsEnabled_ignores_surrounding_white_space (s : state.State)
    (fs : os.FS) (ws1 ws2 : gostring) (enabled : bool) :
  forallb strings.is_space ws1 = true →
  forallb strings.is_space ws2 = true →
  os.ReadFile fs (state.path s)
  = inr (ws1 ++ (if enabled then state.stateEnabled
                 else state.stateDisabled) ++ ws2) →
  state.IsEnabled s fs = (enabled, None)
  ∧ state.String s fs
    = (if enabled then lit "enabled" else lit "disabled", None).
Proof.
  intros H1 H2 Hr.
  assert (Hi : state.IsEnabled s fs = (enabled, None)).
  { unfold state.IsEnabled. rewrite Hr.
    destruct enabled.
    - rewrite (TrimSpace_token ws1 ws2 state.stateEnabled x65 x64
                 (lit "nable")); try done; vm_compute; lia.
    - rewrite (TrimSpace_token ws1 ws2 state.stateDisabled x64 x64
                 (lit "isable")); try done; vm_compute; lia. }
  split; [done|]. unfold state.String. rewrite Hi. by destruct enabled.
Qed.

Lemma IsEnabled_ignores_surrounding_white_space_witness :
  state.IsEnabled (state.New [])
    (os.mkFS {[ state.DefaultStatePath := lit "  disabled" ++ crlf ]} ∅)
  = (false, None)
  ∧ state.String (state.New [])
      (os.mkFS {[ state.DefaultStatePath := lit "  disabled" ++ crlf ]} ∅)
    = (lit "disabled", None).
Proof.
  apply (IsEnabled_ignores_surrounding_white_space (state.New [])
           (os.mkFS {[ state.DefaultStatePath := lit "  disabled" ++ crlf ]}
              ∅)
           (lit "  ") crlf false); vm_compute; reflexivity.
Defined.

(** X21. The state file holds the last value written and nothing else is
    touched: after two successful SetEnabled calls IsEnabled and String
    report the second value, the file is that token and a newline, and
    every other file reads as before the first call. *)
Theorem SetEnabled_last_write_wins (Dir : gostring → gostring)
    (s : state.State) (b1 b2 : bool) (fs fs1 fs2 : os.FS) :
  state.SetEnabled Dir s b1 fs = (None, fs1) →
  state.SetEnabled Dir s b2 fs1 = (None, fs2) →
  state.IsEnabled s fs2 = (b2, None)
  ∧ state.String s fs2
    = (if b2 then lit "enabled" else lit "disabled", None)
  ∧ os.ReadFile fs2 (state.path s)
    = inr ((if b2 then state.stateEnabled else state.stateDisabled)
           ++ [lf])
  ∧ (∀ p, p ≠ state.path s → os.ReadFile fs2 p = os.ReadFile fs p).
Proof.
  intros Ha Hb.
  assert (Hshape : ∀ b f f', state.SetEnabled Dir s b f = (None, f') →
    (state.path s ∉ os.faulty f)
    ∧ f' = os.mkFS (<[state.path s :=
                      (if b then state.stateEnabled
                       else state.stateDisabled) ++ [lf]]> (os.files f))
             (os.faulty f)).
  { intros b f f'. unfold state.SetEnabled, os.WriteFile.
    destruct (os.MkdirAll f _); [discriminate|].
    destruct (decide _); [discriminate|]. by intros [= <-]. }
  apply Hshape in Ha as [Hf1 ->]. apply Hshape in Hb as [Hf2 ->].
  cbn [os.files os.faulty] in *.
  assert (Hr : os.ReadFile
    (os.mkFS (<[state.path s :=
                (if b2 then state.stateEnabled else state.stateDisabled)
                ++ [lf]]>
                (<[state.path s :=
                   (if b1 then state.stateEnabled else state.stateDisabled)
                   ++ [lf]]> (os.files fs))) (os.faulty fs))
    (state.path s)
    = inr ((if b2 then state.stateEnabled else state.stateDisabled)
           ++ [lf])).
  { unfold os.ReadFile. cbn [os.files os.faulty].
    by rewrite lookup_insert_eq, decide_False. }
  assert (Hi : state.IsEnabled s
    (os.mkFS (<[state.path s :=
                (if b2 then state.stateEnabled else state.stateDisabled)
                ++ [lf]]>
                (<[state.path s :=
                   (if b1 then state.stateEnabled else state.stateDisabled)
                   ++ [lf]]> (os.files fs))) (os.faulty fs))
    = (b2, None)).
  { unfold state.IsEnabled. rewrite Hr. by destruct b2. }
  split; [done|]. split; [|split; [done|]].
  - unfold state.String. rewrite Hi. by destruct b2.
  - intros p Hp. unfold os.ReadFile. cbn [os.files os.faulty].
    by rewrite !lookup_insert_ne.
Qed.

Lemma SetEnabled_last_write_wins_witness :
  state.IsEnabled (state.New [])
    (state.SetEnabled id (state.New []) false
       (state.SetEnabled id (state.New []) true no_files).2).2
  = (false, None).
Proof.
  apply (SetEnabled_last_write_wins id (state.New []) true false no_files
           (state.SetEnabled id (state.New []) true no_files).2
           (state.SetEnabled id (state.New []) false
              (state.SetEnabled id (state.New []) true no_files).2).2);
    vm_compute; reflexivity.
Defined.

(* --------------------------------------------------------------------- *)
(* The parser on a well-formed ClientHello that comes in one record      *)
(* --------------------------------------------------------------------- *)

Lemma cut_Some (n : nat) (l a b : list byte) :
  tls.cut n l = Some (a, b) → l = a ++ b ∧ length a = n.
Proof.
  unfold tls.cut. destruct (n <=? length l) eqn:E; [|discriminate].
  apply Nat.leb_le in E. intros [= <- <-].
  rewrite take_drop, length_take. split; [done|lia].
Qed.

Lemma vec8_Some (l a b : list byte) :
  tls.vec8 l = Some (a, b) →
  ∃ n, l = [n] ++ a ++ b ∧ length a = byte_val n.
Proof.
  destruct l as [|n rest]; [discriminate|]. cbn [tls.vec8].
  intros [-> H]%cut_Some. by exists n.
Qed.

Lemma vec16_Some (l a b : list byte) :
  tls.vec16 l = Some (a, b) →
  ∃ n0 n1, l = [n0; n1] ++ a ++ b ∧ length a = be16 n0 n1.
Proof.
  destruct l as [|n0 [|n1 rest]]; try discriminate. cbn [tls.vec16].
  intros [-> H]%cut_Some. by exists n0, n1.
Qed.

(** A server_name extension that is well formed is one parseSNIExtension
    reads the same name from. *)
Lemma host_name_server_name (body : list byte) (h : gostring) :
  tls.host_name body = Some h → server_name body h.
Proof.
  unfold tls.host_name.
  destruct (tls.vec16 body) as [[list rest]|] eqn:E1; [|discriminate].
  cbn [mbind option_bind].
  destruct list as [|nameType entry]; [discriminate|].
  destruct (tls.vec16 entry) as [[name more]|] eqn:E2; [|discriminate].
  cbn [mbind option_bind].
  destruct (bool_decide (nameType = x00)) eqn:Ht; [|discriminate].
  destruct (1 <=? length name) eqn:Hn; [|discriminate].
  destruct (bool_decide (more = [])) eqn:Hm; [|discriminate].
  destruct (bool_decide (rest = [])) eqn:Hr; [|discriminate].
  cbn [andb]. intros [= <-].
  apply bool_decide_eq_true in Ht as ->. apply Nat.leb_le in Hn.
  apply vec16_Some in E1 as (ll0 & ll1 & -> & _).
  apply vec16_Some in E2 as (n0 & n1 & -> & Hlen).
  exists ll0, ll1, n0, n1, (more ++ rest). split; [|split; [done|]].
  - cbn [app]. by rewrite <- !app_assoc.
  - intros ->. cbn [length] in Hn. lia.
Qed.

(** A well-formed extensions vector is walked by the loop of ExtractSNI up
    to its first extension of type 0, all of it lying within the budget of
    the vector's own length. *)
Lemma extensions_carry_within (fuel : nat) (v : list byte)
    (l : list (nat * list byte)) (body : list byte) (h : gostring) :
  tls.extensions fuel v = Some l →
  tls.extension 0 l = Some body →
  server_name body h →
  carry_within (length v) v h.
Proof.
  revert v l. induction fuel as [|fuel IH]; intros v l.
  - destruct v; [|discriminate]. intros [= <-]. discriminate.
  - destruct v as [|t0 [|t1 rest]]; cbn [tls.extensions].
    + intros [= <-]. discriminate.
    + discriminate.
    + destruct (tls.vec16 rest) as [[b rest']|] eqn:E; [|discriminate].
      cbn [mbind option_bind].
      destruct (tls.extensions fuel rest') as [more|] eqn:Em;
        [|discriminate].
      cbn [mbind option_bind]. intros [= <-]. cbn [tls.extension].
      apply vec16_Some in E as (l0 & l1 & -> & Hb).
      change (t0 :: t1 :: [l0; l1] ++ b ++ rest')
        with ([t0; t1; l0; l1] ++ b ++ rest').
      destruct (be16 t0 t1 =? 0) eqn:Et.
      * apply Nat.eqb_eq in Et. intros [= ->] Hs.
        apply within_here; [|done..].
        rewrite length_app. cbn [length]. lia.
      * apply Nat.eqb_neq in Et. intros Hx Hs.
        apply within_later; [|done..|].
        { rewrite length_app. cbn [length]. lia. }
        replace (length ([t0; t1; l0; l1] ++ b ++ rest') - (4 + length b))
          with (length rest')
          by (rewrite !length_app; cbn [length]; lia).
        by eapply IH.
Qed.

Lemma serverName_hello_within (v0 v1 l0 l1 : byte) (msg : list byte)
    (h : gostring) :
  length msg = be16 l0 l1 →
  tls.serverName ([x16; v0; v1; l0; l1] ++ msg) = Some h →
  hello_within ([x16; v0; v1; l0; l1] ++ msg) h.
Proof.
  intros Hlen. unfold tls.serverName.
  assert (Hfr : tls.fragments (length ([x16; v0; v1; l0; l1] ++ msg))
                  ([x16; v0; v1; l0; l1] ++ msg)
                = if 1 <=? be16 l0 l1 then Some msg else None).
  { cbn [app length tls.fragments].
    rewrite bool_decide_eq_true_2 by done. cbn [andb].
    destruct (1 <=? be16 l0 l1); [|done].
    unfold tls.cut. rewrite <- Hlen, Nat.leb_refl, firstn_all, drop_all.
    cbn [mbind option_bind].
    destruct (length msg); cbn [tls.fragments mbind option_bind];
      by rewrite app_nil_r. }
  rewrite Hfr. destruct (1 <=? be16 l0 l1); [|discriminate].
  cbn [mbind option_bind].
  destruct (tls.client_hello_extensions msg) as [exts|] eqn:Hch;
    [|discriminate].
  cbn [mbind option_bind].
  destruct (tls.extensions (length exts) exts) as [l|] eqn:Hex;
    [|discriminate].
  cbn [mbind option_bind].
  destruct (tls.extension 0 l) as [body|] eqn:Hb; [|discriminate].
  cbn [mbind option_bind]. intros Hh%host_name_server_name.
  pose proof (extensions_carry_within _ _ _ _ _ Hex Hb Hh) as Hc.
  unfold tls.client_hello_extensions in Hch.
  destruct msg as [|ht [|h0 [|h1 [|h2 body0]]]]; try discriminate.
  destruct (bool_decide (ht = x01)) eqn:Hht; [|discriminate].
  apply bool_decide_eq_true in Hht as ->.
  destruct (tls.be24 h0 h1 h2 =? length body0); [|discriminate].
  cbn [andb] in Hch.
  destruct (tls.cut 34 body0) as [[fixed b1]|] eqn:E1; [|discriminate].
  cbn [mbind option_bind] in Hch.
  destruct (tls.vec8 b1) as [[sid b2]|] eqn:E2; [|discriminate].
  cbn [mbind option_bind] in Hch.
  destruct (tls.vec16 b2) as [[cs b3]|] eqn:E3; [|discriminate].
  cbn [mbind option_bind] in Hch.
  destruct (tls.vec8 b3) as [[cm b4]|] eqn:E4; [|discriminate].
  cbn [mbind option_bind] in Hch.
  destruct (tls.vec16 b4) as [[exts' b5]|] eqn:E5; [|discriminate].
  cbn [mbind option_bind] in Hch.
  destruct (_ && _) eqn:Hchk in Hch; [|discriminate].
  injection Hch as ->.
  apply andb_true_iff in Hchk as [_ Hb5].
  apply bool_decide_eq_true in Hb5 as ->.
  apply cut_Some in E1 as [-> Hfx].
  apply vec8_Some in E2 as (sidLen & -> & Hsid).
  apply vec16_Some in E3 as (c0 & c1 & -> & Hcs).
  apply vec8_Some in E4 as (cmLen & -> & Hcm).
  apply vec16_Some in E5 as (e0 & e1 & -> & Hel).
  rewrite app_nil_r in *.
  exists v0, v1, l0, l1, [h0; h1; h2], fixed, sidLen, sid, c0, c1, cs,
    cmLen, cm, e0, e1, exts.
  split; [by cbn [app]; rewrite <- ?app_assoc|].
  split.
  { etrans; [apply Nat.Div0.mod_le|].
    rewrite length_app, Hlen. cbn [length]. lia. }
  rewrite <- Hel. done.
Qed.

(** X23. On a well-formed ClientHello that comes in one handshake record,
    ExtractSNI returns the host name that TLS reads from it, from a slice
    of just these bytes and, when the record fits the read buffer, in
    handleHTTPS. *)
Theorem ExtractSNI_agrees_with_tls_on_one_record (v0 v1 l0 l1 : byte)
    (msg : list byte) (h : gostring) :
  length msg = be16 l0 l1 →
  tls.serverName ([x16; v0; v1; l0; l1] ++ msg) = Some h →
  sni.ExtractSNI (of_bytes ([x16; v0; v1; l0; l1] ++ msg)) = Ok h
  ∧ (5 + length msg ≤ proxy.bufSize →
     proxy.tlsHost ([x16; v0; v1; l0; l1] ++ msg) = Ok h).
Proof.
  intros Hlen Hs. pose proof (serverName_hello_within _ _ _ _ _ _ Hlen Hs).
  split.
  - apply ExtractSNI_complete; [done|].
    unfold of_bytes, bytes_of. cbn [arr len]. by rewrite firstn_all.
  - intros Hfit. apply tlsHost_complete.
    rewrite take_ge; [done|]. rewrite length_app. cbn [length]. lia.
Qed.

Lemma ExtractSNI_agrees_with_tls_on_one_record_witness :
  sni.ExtractSNI (of_bytes whole_hello) = Ok (lit "youtube.com").
Proof.
  destruct (ExtractSNI_agrees_with_tls_on_one_record x03 x01 x00 x4f
              (split_hello_head ++ split_hello_tail) (lit "youtube.com"))
    as [H _]; [vm_compute; reflexivity..|].
  exact H.
Defined.
